(** * Vessel-trace preprocessing: a shallow embedding of
      [code/data_preprocessing/preprocess.py]

    The script cleans AIS tracks in seven module-level stages and three
    helper functions ([trackOutlier], [detectOutlier], [interpolate_]).
    The embedding keeps the shape of the script:

    - numpy float arrays are lists of rationals ([Q]): arithmetic and
      comparisons are exact, without rounding, NaN or infinities; a 2-D
      array also carries its column count, which [np.vstack] compares;
    - Python exceptions are an explicit outcome ([Raise]); a bare
      [try/except] is a match on it;
    - the [while] loop of [trackOutlier] runs on fuel, with [Diverge]
      for an exhausted budget (shown unreachable);
    - dictionaries keyed by the running counter are association lists
      in insertion order;
    - the geodesic library ([pyproj.Geod]) and the three column names
      that [interpolate_] reads but the module does not bind are
      section variables. *)

From Stdlib Require Import ZArith QArith Qabs List Bool Lia Arith Sorted.
Import ListNotations.
Local Open Scope Z_scope.

(** ** Outcomes of Python code *)

Inductive exn : Type :=
| AssertionError | ValueError | IndexError | NameError
| ZeroDivisionError | GeodError | AttributeError | KeyError | TypeError.

Inductive outcome (A : Type) : Type :=
| Ok (a : A)
| Raise (e : exn)
| Diverge.
Arguments Ok {A} a.
Arguments Raise {A} e.
Arguments Diverge {A}.

Definition bind {A B} (m : outcome A) (k : A -> outcome B) : outcome B :=
  match m with
  | Ok a => k a
  | Raise e => Raise e
  | Diverge => Diverge
  end.

Notation "x <- m ;; k" := (bind m (fun x => k))
  (at level 61, m at next level, right associativity).
Notation "' pat <- m ;; k" := (bind m (fun x => match x with pat => k end))
  (at level 61, pat pattern, m at next level, right associativity).

(** ** List helpers in the vocabulary of numpy *)

(** [l[i] = x] for an index in range (out of range leaves [l] alone; the
    script only assigns in range). *)
Fixpoint upd {A} (i : nat) (x : A) (l : list A) : list A :=
  match l, i with
  | [], _ => []
  | _ :: t, O => x :: t
  | h :: t, S i' => h :: upd i' x t
  end.

(** [np.nonzero(mask)[0]]: the indices where the mask holds. *)
Fixpoint nonzero_from (i : nat) (mask : list bool) : list nat :=
  match mask with
  | [] => []
  | true :: m => i :: nonzero_from (S i) m
  | false :: m => nonzero_from (S i) m
  end.
Definition nonzero (mask : list bool) : list nat := nonzero_from 0 mask.

(** [np.count_nonzero(mask)]. *)
Definition count_nonzero (mask : list bool) : nat :=
  length (filter (fun b => b) mask).

(** [a[mask]]: boolean-mask selection. *)
Fixpoint select {A} (mask : list bool) (l : list A) : list A :=
  match mask, l with
  | true :: m, x :: t => x :: select m t
  | false :: m, _ :: t => select m t
  | _, _ => []
  end.

(** [mask.all()]. *)
Definition all (mask : list bool) : bool := forallb (fun b => b) mask.

(** [a[st:en]] for non-negative bounds, with Python's clipping. *)
Definition slice {A} (st en : nat) (l : list A) : list A :=
  firstn (en - st) (skipn st l).

(** [a[:stop]] where [stop] may be negative (counted from the end). *)
Definition slice_to {A} (stop : Z) (l : list A) : list A :=
  if 0 <=? stop then firstn (Z.to_nat stop) l
  else firstn (Z.to_nat (Z.of_nat (length l) + stop)) l.

(** [np.split(a, idx)]: the pieces [a[0:i1], a[i1:i2], ..., a[ik:]]. *)
Fixpoint split_from {A} (st : nat) (idx : list nat) (l : list A) : list (list A) :=
  match idx with
  | [] => [skipn st l]
  | i :: idx' => slice st i l :: split_from i idx' l
  end.
Definition np_split {A} (l : list A) (idx : list nat) : list (list A) :=
  split_from 0 idx l.

(** [range(a, b, step)] for a positive step. *)
Definition py_range (a b step : Z) : list Z :=
  map (fun k => a + step * Z.of_nat k)
      (seq 0 (Z.to_nat ((b - a + step - 1) / step))).

(** ** Column constants (line 25) *)

Definition LAT : nat := 0.
Definition LON : nat := 1.
Definition SOG : nat := 2.
Definition COG : nat := 3.
Definition HEAD : nat := 4.
Definition NAV : nat := 5.
Definition TIMESTAMP : nat := 6.
Definition MMSI : nat := 7.

Definition SPEED_MAX : Q := 30.

(** ** Koyak outlier selection: [trackOutlier] *)

Module Koyak.

(** The anomaly matrix: [n] rows of [n] indicators. *)
Definition matrix := list (list Z).

Definition entry (A : matrix) (r c : nat) : Z := nth c (nth r A []) 0.

Definition square (A : matrix) : Prop :=
  Forall (fun row => length row = length A) A.

(** [(A.transpose() == A).all()] *)
Definition symmetricb (A : matrix) : bool :=
  let n := length A in
  forallb (fun r => forallb (fun c => entry A c r =? entry A r c) (seq 0 n))
          (seq 0 n).

(** [((A==0) | (A==1)).all()] *)
Definition binaryb (A : matrix) : bool :=
  forallb (forallb (fun x => (x =? 0) || (x =? 1))) A.

(** [np.sum(A, axis = 1)] *)
Definition row_sums (A : matrix) : list Z :=
  map (fun row => fold_right Z.add 0 row) A.

(** [np.max(b)]: raises on an empty array. *)
Definition np_max (b : list Z) : outcome Z :=
  match b with
  | [] => Raise ValueError
  | x :: t => Ok (fold_left Z.max t x)
  end.

(** [np.argmax(b)]: the first index holding the maximum. *)
Fixpoint argmax_from (best : Z) (bi i : nat) (l : list Z) : nat :=
  match l with
  | [] => bi
  | x :: t => if best <? x then argmax_from x i (S i) t
              else argmax_from best bi (S i) t
  end.
Definition argmax (b : list Z) : nat :=
  match b with
  | [] => 0%nat
  | x :: t => argmax_from x 0 1 t
  end.

(** The inner [for j in range(n)] of one iteration. *)
Definition decrement (A : matrix) (r : nat) (o : list bool) (b : list Z) (j : nat)
  : list Z :=
  if nth j o false then b else upd j (nth j b 0 - entry A r j) b.

Definition inner_for (A : matrix) (r n : nat) (o : list bool) (b : list Z) : list Z :=
  fold_left (decrement A r o) (seq 0 n) b.

(** The [while (np.max(b) > 0)] loop. *)
Fixpoint while_loop (fuel : nat) (A : matrix) (n : nat) (b : list Z) (o : list bool)
  : outcome (list bool) :=
  match fuel with
  | O => Diverge
  | S fuel' =>
      m <- np_max b ;;
      if 0 <? m then
        let r := argmax b in
        let o' := upd r true o in
        let b' := upd r 0 b in
        while_loop fuel' A n (inner_for A r n o' b') o'
      else Ok o
  end.

Definition trackOutlier_fuel (fuel : nat) (A : matrix) : outcome (list bool) :=
  if negb (symmetricb A) then Raise AssertionError
  else if negb (binaryb A) then Raise AssertionError
  else
    let n := length A in
    while_loop fuel A n (row_sums A) (repeat false n).

(** Each iteration marks a fresh observation, so [n] iterations and one
    last test of the loop condition are enough
    ([trackOutlier_fuel_enough] below). *)
Definition trackOutlier (A : matrix) : outcome (list bool) :=
  trackOutlier_fuel (S (length A)) A.

(** The observations not yet marked: the measure of the loop. *)
Definition unmarked (o : list bool) : nat := length (filter negb o).

(** Marked observations have a zero score: the loop invariant. *)
Definition scores_ok (n : nat) (b : list Z) (o : list bool) : Prop :=
  length b = n /\ length o = n
  /\ forall j, nth j o false = true -> nth j b 0 = 0.

(** An [n] by [n] matrix. *)
Definition sized (n : nat) (A : matrix) : Prop :=
  length A = n /\ Forall (fun row => length row = n) A.

(** The test matrix of the docstring: the pairs (0,2), (1,2), (1,3),
    (0,3), (2,4), (3,4) are anomalous. *)
Definition docstring_A : matrix :=
  [ [0; 0; 1; 1; 0];
    [0; 0; 1; 1; 0];
    [1; 1; 0; 0; 1];
    [1; 1; 0; 0; 1];
    [0; 0; 1; 1; 0] ].

End Koyak.

(** ** 2-D float arrays *)

Definition row := list Q.

(** A 2-D array: its second dimension and its rows. [np.empty((0, 8))]
    has no rows and eight columns. *)
Record ndarray : Type := mkarr { ncols : nat; rows : list row }.

Definition nrows (a : ndarray) : nat := length (rows a).

Definition np_empty (n m : nat) : ndarray := mkarr m (repeat (repeat 0%Q m) n).

(** Reading a field of a row already in hand. *)
Definition col (j : nat) (r : row) : Q := nth j r 0%Q.

(** [a[:, j]] for a column the array has. *)
Definition column (j : nat) (a : ndarray) : list Q := map (col j) (rows a).

(** [a[:, j]], with the index check numpy makes. *)
Definition column_at (a : ndarray) (j : nat) : outcome (list Q) :=
  if (j <? ncols a)%nat then Ok (column j a) else Raise IndexError.

(** [a[i, j]] for [i >= 0], with the index checks numpy makes. *)
Definition item (a : ndarray) (i j : nat) : outcome Q :=
  if (j <? ncols a)%nat then
    match nth_error (rows a) i with
    | Some r => Ok (col j r)
    | None => Raise IndexError
    end
  else Raise IndexError.

(** [a[-1, j]]. *)
Definition item_last (a : ndarray) (j : nat) : outcome Q :=
  match nrows a with
  | O => Raise IndexError
  | S i => item a i j
  end.

(** [np.vstack([a, r])] for a 2-D [a] and a 1-D [r]: the second
    dimensions must agree, also when [a] has no rows. *)
Definition vstack (a : ndarray) (r : row) : outcome ndarray :=
  if (length r =? ncols a)%nat
  then Ok (mkarr (ncols a) (rows a ++ [r]))
  else Raise ValueError.

(** Comparisons of floats, read on the rationals. *)
Definition Qltb (x y : Q) : bool := negb (Qle_bool y x).

(** [int(x)]: truncation toward zero. *)
Definition py_int (x : Q) : Z := Z.quot (Qnum x) (Zpos (Qden x)).

(** [x / y] on Python floats. *)
Definition py_div (x y : Q) : outcome Q :=
  if Qeq_bool y 0 then Raise ZeroDivisionError else Ok (x / y)%Q.

Definition map2 {A B C} (f : A -> B -> C) (l : list A) (m : list B) : list C :=
  map (fun p => f (fst p) (snd p)) (combine l m).

(** ** Dictionaries keyed by a running counter, in insertion order *)

Definition dict (V : Type) := list (nat * V).

Definition keys {V} (d : dict V) : list nat := map fst d.

Fixpoint lookup {V} (k : nat) (d : dict V) : option V :=
  match d with
  | [] => None
  | (k', v) :: d' => if (k' =? k)%nat then Some v else lookup k d'
  end.

(** [d.pop(k, None)] *)
Definition pop {V} (k : nat) (d : dict V) : dict V :=
  filter (fun kv => negb (fst kv =? k)%nat) d.

(** [d[k] = v] *)
Fixpoint assign {V} (k : nat) (v : V) (d : dict V) : dict V :=
  match d with
  | [] => [(k, v)]
  | (k', v') :: d' =>
      if (k' =? k)%nat then (k, v) :: d' else (k', v') :: assign k v d'
  end.

(** ** The functions that call the geodesic library *)

(** A call into the library: it returns or raises. *)
Definition geod_call {A} (r : option A) : outcome A :=
  match r with
  | Some x => Ok x
  | None => Raise GeodError
  end.

Section Geod.

(** [geod.inv(lon1, lat1, lon2, lat2)] gives (forward azimuth, back
    azimuth, distance); [geod.fwd(lon, lat, az, dist)] gives (longitude,
    latitude, back azimuth). Either may raise, which is [None] here. *)
Variable geod_inv : Q -> Q -> Q -> Q -> option (Q * Q * Q).
Variable geod_fwd : Q -> Q -> Q -> Q -> option (Q * Q * Q).

(** [interpolate_] reads the globals [HEADING], [ROT] and [NAV_STT];
    line 25 binds [HEAD] and [NAV] instead. [None] is a name without a
    binding, whose evaluation raises [NameError]. *)
Variables HEADING ROT NAV_STT : option nat.

Definition global (name : option nat) : outcome nat :=
  match name with
  | Some i => Ok i
  | None => Raise NameError
  end.

(** The array form of [geod.inv]: the four buffers must have one
    length. Only the distances are kept by the caller. *)
Fixpoint inv_each (pts : list ((Q * Q) * (Q * Q))) : outcome (list Q) :=
  match pts with
  | [] => Ok []
  | ((lon1, lat1), (lon2, lat2)) :: rest =>
      '(_, _, d) <- geod_call (geod_inv lon1 lat1 lon2 lat2) ;;
      ds <- inv_each rest ;;
      Ok (d :: ds)
  end.

Definition geod_inv_vec (lons1 lats1 lons2 lats2 : list Q) : outcome (list Q) :=
  if ((length lons1 =? length lats1) && (length lats1 =? length lons2)
      && (length lons2 =? length lats2))%nat
  then inv_each (combine (combine lons1 lats1) (combine lons2 lats2))
  else Raise GeodError.

(** *** [detectOutlier]: rows are [Timestamp, Lat, Lon, Speed] *)

Definition zeros (n : nat) : Koyak.matrix := repeat (repeat 0 n) n.

Definition set_entry (A : Koyak.matrix) (r c : nat) (x : Z) : Koyak.matrix :=
  upd r (upd c x (nth r A [])) A.

(** The conversion factor from knots to metres per second. *)
Definition KNOT : Q := 514444 # 1000000.

(** One pass of [for i in range(1,5)]: the [i]-th diagonal. *)
Definition diagonal (track : list row) (speed_max : Q) (A : Koyak.matrix) (i : nat)
  : outcome Koyak.matrix :=
  let N := length track in
  let head := slice_to (Z.of_nat N - Z.of_nat i) track in
  let tail := skipn i track in
  d <- geod_inv_vec (map (col 2) head) (map (col 1) head)
                    (map (col 2) tail) (map (col 1) tail) ;;
  let delta_t := map2 Qminus (map (col 0) tail) (map (col 0) head) in
  let cond := map2 (fun dt dd => Qltb 2 dt && Qltb (speed_max * KNOT) (dd / dt))
                   delta_t d in
  let abnormal_idx := nonzero cond in
  let A1 := fold_left (fun M k => set_entry M k (k + i) 1) abnormal_idx A in
  let A2 := fold_left (fun M k => set_entry M (k + i) k 1) abnormal_idx A1 in
  Ok A2.

Fixpoint diagonals (track : list row) (speed_max : Q) (A : Koyak.matrix)
         (lags : list nat) : outcome Koyak.matrix :=
  match lags with
  | [] => Ok A
  | i :: rest =>
      A' <- diagonal track speed_max A i ;;
      diagonals track speed_max A' rest
  end.

Definition anomaly_matrix (track : list row) (speed_max : Q) : outcome Koyak.matrix :=
  diagonals track speed_max (zeros (length track)) (seq 1 4).

Definition detectOutlier (track : list row) (speed_max : Q)
  : outcome (list bool * option (list bool)) :=
  let o_report := map (fun r => Qltb speed_max (col 3 r)) track in
  if all o_report then Ok (o_report, None)
  else
    let track' := select (map negb o_report) track in
    A <- anomaly_matrix track' speed_max ;;
    o_calcul <- Koyak.trackOutlier A ;;
    Ok (o_report, Some o_calcul).

(** *** [interpolate_] *)

(** The body of the [try] block (lines 151-165). *)
Definition interpolate_try (track : ndarray) (apos bpos : nat) (dt_full dt_interp : Q)
  : outcome (Q * Q * Q * Q * Q * Q * Q) :=
  lonb <- item track bpos LON ;;
  latb <- item track bpos LAT ;;
  lona <- item track apos LON ;;
  lata <- item track apos LAT ;;
  '(az, _, dist) <- geod_call (geod_inv lonb latb lona lata) ;;
  f <- py_div dt_interp dt_full ;;
  let dist_interp := (dist * f)%Q in
  '(lon_interp, lat_interp, _) <- geod_call (geod_fwd lonb latb az dist_interp) ;;
  sa <- item track apos SOG ;;
  sb <- item track bpos SOG ;;
  let speed_interp := ((sa - sb) * f + sb)%Q in
  ca <- item track apos COG ;;
  cb <- item track bpos COG ;;
  let course_interp := ((ca - cb) * f + cb)%Q in
  h <- global HEADING ;;
  ha <- item track apos h ;;
  hb <- item track bpos h ;;
  let heading_interp := ((ha - hb) * f + hb)%Q in
  r <- global ROT ;;
  ra <- item track apos r ;;
  rb <- item track bpos r ;;
  let rot_interp := ((ra - rb) * f + rb)%Q in
  n <- global NAV_STT ;;
  nav_interp <- (if Qltb (dt_full / 2) dt_interp
                 then item track apos n else item track bpos n) ;;
  Ok (lat_interp, lon_interp, speed_interp, course_interp,
      heading_interp, rot_interp, nav_interp).

Definition interpolate_ (t : Q) (track : ndarray) : outcome (option row) :=
  ts <- column_at track TIMESTAMP ;;
  let before_p := nonzero (map (fun x => Qle_bool x t) ts) in
  let after_p := nonzero (map (fun x => Qltb t x) ts) in
  if ((0 <? length before_p) && (0 <? length after_p))%nat then
    let apos := hd 0%nat after_p in
    let bpos := last before_p 0%nat in
    ta <- item track apos TIMESTAMP ;;
    tb <- item track bpos TIMESTAMP ;;
    let dt_full := (ta - tb)%Q in
    if Qltb 7200 (Qabs dt_full) then Ok None
    else
      let dt_interp := (t - tb)%Q in
      match interpolate_try track apos bpos dt_full dt_interp with
      | Raise _ => Ok None
      | Diverge => Diverge
      | Ok (lat_interp, lon_interp, speed_interp, course_interp,
            heading_interp, rot_interp, nav_interp) =>
          mmsi <- item track 0 MMSI ;;
          Ok (Some [lat_interp; lon_interp; speed_interp; course_interp;
                    heading_interp; rot_interp; t; mmsi; nav_interp])
      end
  else Ok None.

End Geod.

(** ** The module-level stages (lines 177-270) *)

(** The stages apply the column constants of line 25 to arrays of the
    eight input columns, where they are in range: stages 1, 2 and 5 to 7
    read a column with [column] and a field with [col]. Stages 3, 4, 6
    and 7 and the helper functions keep the faults of the script. *)

Definition INTERVAL_MAX : Q := 7200.
Definition resolution : Z := 300.
Definition DURATION_MAX : nat := 12.
Definition one_hour : nat := 12.

(** [np.arange(0, stop, step)] on indices. *)
Definition np_arange (stop step : nat) : list nat :=
  map (fun k => k * step)%nat (seq 0 ((stop + step - 1) / step)).

(** [np.max] of a float column: raises on an empty array. *)
Definition qmax (l : list Q) : outcome Q :=
  match l with
  | [] => Raise ValueError
  | x :: t => Ok (fold_left (fun m y => if Qltb m y then y else m) t x)
  end.

(** [for k in list(d.keys()): if drop(d[k]): d.pop(k, None)]. The keys
    are a snapshot and only the current key is popped, so [d[k]] is
    always bound. *)
Fixpoint pop_for {V} (drop : V -> bool) (ks : list nat) (d : dict V) : dict V :=
  match ks with
  | [] => d
  | k :: rest =>
      match lookup k d with
      | Some v => if drop v then pop_for drop rest (pop k d)
                  else pop_for drop rest d
      | None => pop_for drop rest d
      end
  end.

(** The same loop with a test that may raise: the exception leaves the
    loop, which has no handler. *)
Fixpoint pop_for_try {V} (drop : V -> outcome bool) (ks : list nat) (d : dict V)
  : outcome (dict V) :=
  match ks with
  | [] => Ok d
  | k :: rest =>
      match lookup k d with
      | Some v =>
          b <- drop v ;;
          if b then pop_for_try drop rest (pop k d) else pop_for_try drop rest d
      | None => Raise KeyError
      end
  end.

(** [for t in tmp: d[count] = t; count += 1] *)
Fixpoint store_all {V} (tmp : list V) (d : dict V) (count : nat) : dict V * nat :=
  match tmp with
  | [] => (d, count)
  | t :: rest => store_all rest (assign count t d) (S count)
  end.

(** The shape shared by the loops of stages 1 and 5: every array of the
    previous stage, in key order, is cut into pieces, and each piece is
    stored under the running counter. *)
Fixpoint store_pieces {V W} (pieces : V -> list W) (xs : list V) (d : dict W)
         (count : nat) : dict W * nat :=
  match xs with
  | [] => (d, count)
  | v :: rest =>
      let '(d', count') := store_all (pieces v) d count in
      store_pieces pieces rest d' count'
  end.

(** *** Stage 1: voyages are cut at gaps above two hours (lines 181-194) *)

Definition gaps (v : ndarray) : list nat :=
  let ts := column TIMESTAMP v in
  let intervals := map2 Qminus (tl ts) (slice_to (-1) ts) in
  nonzero (map (fun d => Qltb INTERVAL_MAX d) intervals).

Definition segment (v : ndarray) : list ndarray :=
  if (0 <? nrows v)%nat then
    let idx := gaps v in
    if (length idx =? 0)%nat then [v]
    else map (mkarr (ncols v)) (np_split (rows v) (map S idx))
  else [].

Definition segmentation (traj_data : list ndarray) (voyages : dict ndarray) (count : nat)
  : dict ndarray * nat :=
  store_pieces segment traj_data voyages count.

(** *** Stage 2: short voyages are removed (lines 198-201) *)

Definition duration (v : ndarray) : Q :=
  (col TIMESTAMP (last (rows v) []) - col TIMESTAMP (hd [] (rows v)))%Q.

Definition too_short (v : ndarray) : bool :=
  (nrows v <? 75)%nat || Qltb (duration v) (6 * 3600).

Definition remove_short (voyages : dict ndarray) : dict ndarray :=
  pop_for too_short (keys voyages) voyages.

(** *** Stages 5-7: blocks of twelve hours and the quality tests *)

Definition blocks_of (v : ndarray) : list ndarray :=
  let idx := tl (np_arange (nrows v) (one_hour * DURATION_MAX)) in
  let tmp := np_split (rows v) idx in
  map (mkarr (ncols v))
      (filter (fun subtrack => (one_hour * DURATION_MAX <=? length subtrack)%nat) tmp).

Definition resplit (Vs : list ndarray) (Data : dict ndarray) (count : nat)
  : dict ndarray * nat :=
  store_pieces blocks_of Vs Data count.

(** [np.count_nonzero(block[:, j] == code) / d_L]: an [int] divided by
    the float [d_L], which raises when the block has no rows. *)
Definition fraction_eq (j : nat) (code : Q) (block : ndarray) : outcome Q :=
  py_div (inject_Z (Z.of_nat (count_nonzero (map (fun x => Qeq_bool x code)
                                                 (column j block)))))
         (inject_Z (Z.of_nat (nrows block))).

(** Lines 258-259: the test that pops a block as moored or at anchor.
    [or] evaluates its second operand only when the first is false. *)
Definition moored_or_anchor (block : ndarray) : outcome bool :=
  f7 <- fraction_eq NAV 7 block ;;
  if Qltb (7 # 10) f7 then Ok true
  else f8 <- fraction_eq NAV 8 block ;; Ok (Qltb (7 # 10) f8).

(** Lines 262-263. *)
Definition never_moved (block : ndarray) : outcome bool :=
  sog_max <- qmax (column SOG block) ;;
  Ok (Qltb sog_max 1).

(** The loop of lines 255-264: a block is popped by the first test, or
    else by the second. *)
Definition remove_moored (Data : dict ndarray) : outcome (dict ndarray) :=
  pop_for_try (fun block => moored <- moored_or_anchor block ;;
                            if moored then Ok true else never_moved block)
              (keys Data) Data.

(** Line 269. *)
Definition low_speed (block : ndarray) : outcome bool :=
  f <- py_div (inject_Z (Z.of_nat (count_nonzero (map (fun x => Qltb x 2)
                                                      (column SOG block)))))
              (inject_Z (Z.of_nat (nrows block))) ;;
  Ok (Qltb (8 # 10) f).

Definition remove_low_speed (Data : dict ndarray) : outcome (dict ndarray) :=
  pop_for_try low_speed (keys Data) Data.

(** A block that a test keeps: the test returns and is false. *)
Definition passes (test : ndarray -> outcome bool) (block : ndarray) : bool :=
  match test block with
  | Ok false => true
  | _ => false
  end.

Section Stages.

Variable geod_inv : Q -> Q -> Q -> Q -> option (Q * Q * Q).
Variable geod_fwd : Q -> Q -> Q -> Q -> option (Q * Q * Q).
Variables HEADING ROT NAV_STT : option nat.

(** *** Stage 3: anomalous messages (lines 205-217) *)

(** [o_calcul.all()] and [np.invert(o_calcul)]: the second result of
    [detectOutlier] may be [None], which has no method [all] and which
    [np.invert] rejects. *)
Definition all_method (o : option (list bool)) : outcome bool :=
  match o with
  | Some mask => Ok (all mask)
  | None => Raise AttributeError
  end.

Definition np_invert (o : option (list bool)) : outcome (list bool) :=
  match o with
  | Some mask => Ok (map negb mask)
  | None => Raise TypeError
  end.

(** The body of the [try]: [None] is a popped voyage. [or] evaluates
    [o_calcul.all()] only when [o_report.all()] is false. *)
Definition anomaly_try (v : ndarray) : outcome (option ndarray) :=
  let track := map (fun r => [col TIMESTAMP r; col LAT r; col LON r; col SOG r])
                   (rows v) in
  '(o_report, o_calcul) <- detectOutlier geod_inv track 30 ;;
  drop <- (if all o_report then Ok true else all_method o_calcul) ;;
  if drop then Ok None
  else
    let kept := select (map negb o_report) (rows v) in
    keep <- np_invert o_calcul ;;
    Ok (Some (mkarr (ncols v) (select keep kept))).

(** What the loop below keeps of a voyage, and whether it counts a
    fault: the outcome of stage 3 in closed form ([anomaly_for_spec]). *)
Definition cleaned_entry (kv : nat * ndarray) : list (nat * ndarray) :=
  match anomaly_try (snd kv) with
  | Ok (Some v') => [(fst kv, v')]
  | _ => []
  end.

Definition faulted (kv : nat * ndarray) : bool :=
  match anomaly_try (snd kv) with
  | Raise _ => true
  | _ => false
  end.

Fixpoint anomaly_for (ks : list nat) (voyages : dict ndarray) (error_count : nat)
  : outcome (dict ndarray * nat) :=
  match ks with
  | [] => Ok (voyages, error_count)
  | k :: rest =>
      match lookup k voyages with
      | None => Raise KeyError
      | Some v =>
          match anomaly_try v with
          | Ok None => anomaly_for rest (pop k voyages) error_count
          | Ok (Some v') => anomaly_for rest (assign k v' voyages) error_count
          | Raise _ => anomaly_for rest (pop k voyages) (S error_count)
          | Diverge => Diverge
          end
      end
  end.

Definition remove_anomalies (voyages : dict ndarray) : outcome (dict ndarray * nat) :=
  anomaly_for (keys voyages) voyages 0%nat.

(** *** Stage 4: sampling every five minutes (lines 224-236) *)

(** The inner [for t in range(...)]: [None] is [sampling_track = None]. *)
Fixpoint sampling_for (v : ndarray) (targets : list Z) (sampling_track : ndarray)
  : outcome (option ndarray) :=
  match targets with
  | [] => Ok (Some sampling_track)
  | t :: rest =>
      tmp <- interpolate_ geod_inv geod_fwd HEADING ROT NAV_STT (inject_Z t) v ;;
      match tmp with
      | Some r =>
          sampling_track' <- vstack sampling_track r ;;
          sampling_for v rest sampling_track'
      | None => Ok None
      end
  end.

(** The target timestamps of a voyage. *)
Definition walk (v : ndarray) : outcome (list Z) :=
  first <- item v 0 TIMESTAMP ;;
  final <- item_last v TIMESTAMP ;;
  Ok (py_range (py_int first) (py_int final) resolution).

Definition sample_voyage (v : ndarray) : outcome (option ndarray) :=
  targets <- walk v ;;
  sampling_for v targets (np_empty 0 8).

Fixpoint sampling (vs : list ndarray) (Vs : dict ndarray) (count : nat)
  : outcome (dict ndarray * nat) :=
  match vs with
  | [] => Ok (Vs, count)
  | v :: rest =>
      sampling_track <- sample_voyage v ;;
      match sampling_track with
      | Some s => sampling rest (assign count s Vs) (S count)
      | None => sampling rest Vs count
      end
  end.

(** *** The whole script *)

Definition pipeline (traj_data : list ndarray) : outcome (dict ndarray * nat) :=
  let voyages := fst (segmentation traj_data [] 0%nat) in
  let voyages := remove_short voyages in
  '(voyages, error_count) <- remove_anomalies voyages ;;
  '(Vs, _) <- sampling (map snd voyages) [] 0%nat ;;
  let Data := fst (resplit (map snd Vs) [] 0%nat) in
  Data <- remove_moored Data ;;
  Data <- remove_low_speed Data ;;
  Ok (Data, error_count).

End Stages.

(** ** The claims' vocabulary *)

(** The banded anomaly relation in the words of section 4.2, for a
    distance function [dist lon1 lat1 lon2 lat2]: the pair [(lo, hi)] is
    too fast when more than two seconds elapse between the two messages
    and distance over elapsed time exceeds the speed limit in m/s. *)
Definition too_fast (dist : Q -> Q -> Q -> Q -> Q) (track : list row) (speed_max : Q)
           (lo hi : nat) : bool :=
  let p := nth lo track [] in
  let q := nth hi track [] in
  let elapsed := (col 0 q - col 0 p)%Q in
  Qltb 2 elapsed
  && Qltb (speed_max * (514444 # 1000000))
          (dist (col 2 p) (col 1 p) (col 2 q) (col 1 q) / elapsed).

(** The distance between two rows [Timestamp, Lat, Lon, Speed]. *)
Definition dist_rows (dist : Q -> Q -> Q -> Q -> Q) (p q : row) : Q :=
  dist (col 2 p) (col 1 p) (col 2 q) (col 1 q).

(** One lag of the band: [r] and [c] are [i] apart and too fast. *)
Definition lag_hit (dist : Q -> Q -> Q -> Q -> Q) (track : list row) (speed_max : Q)
           (r c i : nat) : bool :=
  ((c =? r + i)%nat && too_fast dist track speed_max r c)
  || ((r =? c + i)%nat && too_fast dist track speed_max c r).

Definition spec_banded (dist : Q -> Q -> Q -> Q -> Q) (track : list row) (speed_max : Q)
           (r c : nat) : bool :=
  existsb (lag_hit dist track speed_max r c) (seq 1 4).

(** A flat chart standing in for the ellipsoid where an example needs
    numbers: distances add up the two coordinate differences, and moving
    forward shifts the longitude. *)
Definition flat_dist (lon1 lat1 lon2 lat2 : Q) : Q :=
  (Qabs (lon2 - lon1) + Qabs (lat2 - lat1))%Q.

Definition flat_inv (lon1 lat1 lon2 lat2 : Q) : option (Q * Q * Q) :=
  Some (0%Q, 0%Q, flat_dist lon1 lat1 lon2 lat2).

Definition flat_fwd (lon lat az d : Q) : option (Q * Q * Q) :=
  Some (Qred (lon + d), lat, az).

(** Six messages [Timestamp, Lat, Lon, Speed], one minute apart: the
    third is displaced by 5000 on the chart, the last reports 40 knots. *)
Definition jump_track : list row :=
  [ [0; 0; 0; 10]; [60; 0; 0; 10]; [120; 0; 5000; 10];
    [180; 0; 0; 10]; [240; 0; 0; 10]; [300; 0; 0; 40] ]%Q.

(** A track sorted by time: timestamps never decrease. *)
Definition time_sorted (track : ndarray) : Prop :=
  forall i j, (i <= j)%nat -> (j < nrows track)%nat ->
              (nth i (column TIMESTAMP track) 0 <= nth j (column TIMESTAMP track) 0)%Q.

(** Two messages ten minutes apart, in the eight input columns. *)
Definition pair_track : ndarray :=
  mkarr 8 [ [10; 20; 5; 90; 91; 0; 0; 1234];
            [11; 21; 7; 94; 95; 0; 600; 1234] ]%Q.

(** The quality test in the words of section 4.6: the share of the
    rows of a block whose status, read in column [j], is 7 (moored) or
    8 (at anchor). *)
Definition spec_moored_share (j : nat) (block : ndarray) : Q :=
  (inject_Z (Z.of_nat (count_nonzero
                         (map (fun x => Qeq_bool x 7 || Qeq_bool x 8) (column j block))))
   / inject_Z (Z.of_nat (nrows block)))%Q.

(** Where [interpolate_] puts [nav_interp] in the row it returns. *)
Definition NAV_OUT : nat := 8.

(** A block of 144 rows in the layout of line 168, making 10 knots:
    the first 72 rows are moored, the other 72 at anchor, in column 5
    as well as in column 8. *)
Definition half_and_half : ndarray :=
  mkarr 9 (repeat [0; 0; 10; 0; 0; 7; 0; 1234; 7]%Q 72
           ++ repeat [0; 0; 10; 0; 0; 8; 0; 1234; 8]%Q 72).

(** One vessel, eighty messages five minutes apart, making 10 knots
    and moving by 1000 on the chart between messages. *)
Definition steady_voyage : ndarray :=
  mkarr 8 (map (fun k => [50; inject_Z (1000 * Z.of_nat k); 10; 90; 90; 0;
                          inject_Z (300 * Z.of_nat k); 1234]%Q)
               (seq 0 80)).

(** Four messages in the eight input columns: ten minutes between the
    first three, then a silence of 8000 seconds. *)
Definition gap_track : ndarray :=
  mkarr 8 [ [10; 20; 5; 90; 91; 0; 0; 1234];
            [11; 21; 7; 94; 95; 0; 600; 1234];
            [12; 22; 9; 98; 99; 0; 1200; 1234];
            [13; 23; 9; 98; 99; 0; 9200; 1234] ]%Q.

(** ** Further vocabulary: what the Koyak loop maintains *)

(** The anomalies of one observation with the observations that are
    not marked: the row of [A], marked columns left out. *)
Definition live_row (row : list Z) (o : list bool) : Z :=
  fold_right Z.add 0 (map2 (fun a (m : bool) => if m then 0 else a) row o).

Definition live_score (A : Koyak.matrix) (o : list bool) (j : nat) : Z :=
  live_row (nth j A []) o.

(** Inside the loop the score of an observation is zero once it is
    marked, and counts its anomalies with the unmarked ones before. *)
Definition scores_live (A : Koyak.matrix) (n : nat) (b : list Z) (o : list bool) : Prop :=
  length b = n /\ length o = n
  /\ forall j, (j < n)%nat ->
               nth j b 0 = if nth j o false then 0 else live_score A o j.

(** A marked observation has an anomaly in its row. *)
Definition marked_anomalous (A : Koyak.matrix) (n : nat) (o : list bool) : Prop :=
  forall j, (j < n)%nat -> nth j o false = true ->
            exists s, (s < n)%nat /\ Koyak.entry A j s = 1.

(** The matrices the loop over the lags of [detectOutlier] goes
    through: of the size of the track, binary, symmetric, and zero
    outside the band of the four lags. *)
Definition banded (N : nat) (A : Koyak.matrix) : Prop :=
  Koyak.sized N A
  /\ (forall r c, Koyak.entry A r c = 0 \/ Koyak.entry A r c = 1)
  /\ (forall r c, Koyak.entry A c r = Koyak.entry A r c)
  /\ (forall r c, Koyak.entry A r c = 1 ->
                  (r < N)%nat /\ (c < N)%nat /\ r <> c
                  /\ (r <= c + 4)%nat /\ (c <= r + 4)%nat).

(** Four messages five minutes apart in the eight input columns,
    making 10 knots and moving by 1000 on the chart between messages. *)
Definition calm_voyage : ndarray :=
  mkarr 8 [ [50; 0; 10; 90; 90; 0; 0; 1234];
            [50; 1000; 10; 90; 90; 0; 300; 1234];
            [50; 2000; 10; 90; 90; 0; 600; 1234];
            [50; 3000; 10; 90; 90; 0; 900; 1234] ]%Q.

(** A vessel reporting [n] messages [step] seconds apart, in the eight
    input columns. *)
Definition ramp (n : nat) (step : Q) : ndarray :=
  mkarr 8 (map (fun k => [50; 0; 10; 90; 90; 0; inject_Z (Z.of_nat k) * step; 1234]%Q)
               (seq 0 n)).

(** Three messages one minute apart at 10 knots, as [detectOutlier]
    takes them: [Timestamp, Lat, Lon, Speed]. *)
Definition three_messages : list row :=
  [ [0; 0; 0; 10]; [60; 0; 0; 10]; [120; 0; 0; 10] ]%Q.

(** Five messages one minute apart: the vessel moves by 1000 on the
    chart in the first minute, 16.7 m/s, between 30 knots (15.4 m/s)
    and 30 m/s, and stays there. *)
Definition brisk_track : list row :=
  [ [0; 0; 0; 10]; [60; 0; 1000; 10]; [120; 0; 1000; 10];
    [180; 0; 1000; 10]; [240; 0; 1000; 10] ]%Q.


(** * Properties *)

(** ** Lists and comparisons *)

Create Rewrite HintDb np.

Lemma length_upd {A} (i : nat) (x : A) (l : list A) : length (upd i x l) = length l.
Proof.
  revert i; induction l as [|h t IH]; intros [|i]; simpl; auto.
Qed.

Lemma nth_upd_eq {A} (i : nat) (x d : A) (l : list A) :
  (i < length l)%nat -> nth i (upd i x l) d = x.
Proof.
  revert i; induction l as [|h t IH]; intros [|i] H; simpl in *; try lia; auto.
  apply IH; lia.
Qed.

Lemma nth_upd_ne {A} (i j : nat) (x d : A) (l : list A) :
  i <> j -> nth j (upd i x l) d = nth j l d.
Proof.
  revert i j; induction l as [|h t IH]; intros [|i] [|j] H; simpl; auto.
  congruence.
Qed.

#[export] Hint Rewrite @length_upd : np.

Lemma Qltb_lt (x y : Q) : Qltb x y = true <-> (x < y)%Q.
Proof.
  unfold Qltb. rewrite negb_true_iff. split; intros H.
  - apply Qnot_le_lt. intros Hle. apply Qle_bool_iff in Hle. congruence.
  - destruct (Qle_bool y x) eqn:E; auto.
    apply Qle_bool_iff in E. exfalso. eapply Qlt_not_le; eauto.
Qed.

Lemma Qltb_ge (x y : Q) : Qltb x y = false <-> (y <= x)%Q.
Proof.
  unfold Qltb. rewrite negb_false_iff. apply Qle_bool_iff.
Qed.

(** ** Koyak outlier selection *)

Module KoyakFacts.
Import Koyak.

(** [np.argmax] returns a position of the maximum, and the first one. *)
Lemma argmax_from_spec (l : list Z) : forall best bi i,
  (bi < i)%nat ->
  let r := argmax_from best bi i l in
  let m := fold_left Z.max l best in
  (r = bi /\ m = best /\ (forall j, (j < length l)%nat -> nth j l 0 <= best))
  \/ ((i <= r)%nat /\ (r < i + length l)%nat /\ nth (r - i) l 0 = m /\ best < m
      /\ (forall j, (j < length l)%nat -> nth j l 0 <= m)
      /\ (forall j, (j < r - i)%nat -> nth j l 0 < m)).
Proof.
  induction l as [|x t IH]; intros best bi i Hlt r m; subst r m; simpl.
  - left. split; [reflexivity | split; [reflexivity | intros j Hj; lia]].
  - destruct (best <? x) eqn:E.
    + apply Z.ltb_lt in E.
      replace (Z.max best x) with x by lia.
      right.
      destruct (IH x i (S i) ltac:(lia)) as [(Hr & Hm & Hall) | (H1 & H2 & H3 & H4 & H5 & H6)].
      * rewrite Hr, Hm. replace (i - i)%nat with 0%nat by lia.
        split; [lia|]. split; [lia|]. split; [reflexivity|]. split; [lia|].
        split; intros [|j] Hj; try lia. apply Hall; lia.
      * set (r := argmax_from x i (S i) t) in *.
        destruct (r - i)%nat as [|k] eqn:Ek; [lia|].
        replace (r - S i)%nat with k in * by lia.
        split; [lia|]. split; [lia|]. split; [exact H3|]. split; [lia|].
        split; intros [|j] Hj; try lia; [apply H5 | apply H6]; lia.
    + apply Z.ltb_ge in E.
      replace (Z.max best x) with best by lia.
      destruct (IH best bi (S i) ltac:(lia)) as [(Hr & Hm & Hall) | (H1 & H2 & H3 & H4 & H5 & H6)].
      * left. split; [exact Hr|]. split; [exact Hm|].
        intros [|j] Hj; [lia | apply Hall; lia].
      * right. set (r := argmax_from best bi (S i) t) in *.
        destruct (r - i)%nat as [|k] eqn:Ek; [lia|].
        replace (r - S i)%nat with k in * by lia.
        split; [lia|]. split; [lia|]. split; [exact H3|]. split; [lia|].
        split; intros [|j] Hj; try lia; [apply H5 | apply H6]; lia.
Qed.

Lemma argmax_spec (b : list Z) (m : Z) :
  np_max b = Ok m ->
  (argmax b < length b)%nat
  /\ nth (argmax b) b 0 = m
  /\ (forall j, (j < length b)%nat -> nth j b 0 <= m)
  /\ (forall j, (j < argmax b)%nat -> nth j b 0 < m).
Proof.
  destruct b as [|x t]; simpl; [discriminate|].
  intros H; injection H as <-.
  destruct (argmax_from_spec t x 0%nat 1%nat ltac:(lia))
    as [(Hr & Hm & Hall) | (H1 & H2 & H3 & H4 & H5 & H6)]; simpl in *.
  - rewrite Hr, Hm. split; [lia|]. split; [reflexivity|].
    split; [|intros j Hj; lia].
    intros [|j] Hj; [lia | apply Hall; lia].
  - destruct (argmax_from x 0 1 t) as [|r] eqn:Er; [lia|].
    replace (S r - 1)%nat with r in * by lia.
    split; [lia|]. split; [exact H3|].
    split; intros [|j] Hj; try lia; [apply H5 | apply H6]; lia.
Qed.

(** The inner loop keeps the length and leaves marked positions alone. *)
Lemma decrement_length A r o b j : length (decrement A r o b j) = length b.
Proof. unfold decrement. destruct (nth j o false); autorewrite with np; auto. Qed.

Lemma decrement_marked A r o b j k :
  nth k o false = true -> nth k (decrement A r o b j) 0 = nth k b 0.
Proof.
  intros Hk. unfold decrement. destruct (nth j o false) eqn:Ej; auto.
  apply nth_upd_ne. congruence.
Qed.

Lemma inner_for_length A r o js : forall b,
  length (fold_left (decrement A r o) js b) = length b.
Proof.
  induction js as [|j js IH]; intros b; simpl; auto.
  rewrite IH. apply decrement_length.
Qed.

Lemma inner_for_marked A r o k js : forall b,
  nth k o false = true ->
  nth k (fold_left (decrement A r o) js b) 0 = nth k b 0.
Proof.
  induction js as [|j js IH]; intros b Hk; simpl; auto.
  rewrite IH by auto. apply decrement_marked; auto.
Qed.

Lemma unmarked_upd r o :
  (r < length o)%nat -> nth r o false = false ->
  S (unmarked (upd r true o)) = unmarked o.
Proof.
  unfold unmarked. revert r; induction o as [|h t IH]; intros [|r] Hr Hn;
    simpl in *; try lia.
  - subst h. reflexivity.
  - destruct h; simpl; rewrite <- (IH r); auto; lia.
Qed.

Lemma scores_ok_step A n b o m :
  scores_ok n b o -> np_max b = Ok m -> 0 < m ->
  let r := argmax b in
  scores_ok n (inner_for A r n (upd r true o) (upd r 0 b)) (upd r true o)
  /\ S (unmarked (upd r true o)) = unmarked o.
Proof.
  intros (Hb & Ho & Hz) Hm Hpos r.
  destruct (argmax_spec b m Hm) as (Hr & Hv & _).
  fold r in Hr, Hv.
  assert (Hfresh : nth r o false = false).
  { destruct (nth r o false) eqn:E; auto. apply Hz in E. lia. }
  split; [|apply unmarked_upd; auto; lia].
  unfold inner_for. repeat split.
  - rewrite inner_for_length. autorewrite with np. exact Hb.
  - autorewrite with np. exact Ho.
  - intros j Hj. rewrite inner_for_marked by exact Hj.
    destruct (Nat.eq_dec r j) as [<-|Hne].
    + apply nth_upd_eq. lia.
    + rewrite nth_upd_ne by auto. apply Hz.
      rewrite nth_upd_ne in Hj by auto. exact Hj.
Qed.

Lemma while_loop_terminates A n : forall fuel b o,
  (1 <= n)%nat -> scores_ok n b o -> (unmarked o < fuel)%nat ->
  exists o', while_loop fuel A n b o = Ok o' /\ length o' = n.
Proof.
  induction fuel as [|fuel IH]; intros b o Hn Hinv Hfuel; [lia|].
  simpl. destruct (np_max b) as [m| |] eqn:Hm; simpl.
  - destruct (0 <? m) eqn:Hpos.
    + apply Z.ltb_lt in Hpos.
      destruct (scores_ok_step A n b o m Hinv Hm Hpos) as [Hinv' Hdec].
      apply IH; auto. lia.
    + exists o. split; auto. apply Hinv.
  - destruct Hinv as (Hb & _). destruct b; simpl in *; [lia | discriminate].
  - destruct b; discriminate.
Qed.

Lemma while_loop_more_fuel A n : forall fuel b o o',
  while_loop fuel A n b o = Ok o' ->
  forall extra, while_loop (fuel + extra) A n b o = Ok o'.
Proof.
  induction fuel as [|fuel IH]; intros b o o' H extra; simpl in *; [discriminate|].
  destruct (np_max b) as [m| |]; simpl in *; try discriminate.
  destruct (0 <? m); auto.
Qed.

Lemma unmarked_repeat n : unmarked (repeat false n) = n.
Proof. unfold unmarked. induction n; simpl; auto. Qed.

Lemma scores_ok_init A : scores_ok (length A) (row_sums A) (repeat false (length A)).
Proof.
  unfold row_sums. repeat split.
  - apply length_map.
  - apply repeat_length.
  - intros j Hj. exfalso.
    destruct (Nat.lt_ge_cases j (length A)) as [Hlt|Hge].
    + rewrite nth_repeat_lt in Hj by auto. discriminate.
    + rewrite nth_overflow in Hj; [discriminate | rewrite repeat_length; lia].
Qed.

(** Any matrix of at least one row that passes the two assertions is
    processed within the budget of [trackOutlier]. *)
Lemma trackOutlier_fuel_enough (A : matrix) :
  (1 <= length A)%nat -> symmetricb A = true -> binaryb A = true ->
  exists o, trackOutlier A = Ok o /\ length o = length A.
Proof.
  intros Hn Hs Hb. unfold trackOutlier, trackOutlier_fuel. rewrite Hs, Hb. simpl negb. cbv iota.
  apply while_loop_terminates; auto.
  - apply scores_ok_init.
  - rewrite unmarked_repeat. lia.
Qed.

(** [trackOutlier] never exhausts its budget, whatever the matrix. *)
Lemma trackOutlier_no_diverge (A : matrix) : trackOutlier A <> Diverge.
Proof.
  destruct (symmetricb A) eqn:Hs; [destruct (binaryb A) eqn:Hb|].
  - destruct A as [|r A'].
    + discriminate.
    + destruct (trackOutlier_fuel_enough (r :: A')) as (o & Ho & _); auto.
      * simpl; lia.
      * rewrite Ho. discriminate.
  - unfold trackOutlier, trackOutlier_fuel. rewrite Hs, Hb. discriminate.
  - unfold trackOutlier, trackOutlier_fuel. rewrite Hs. discriminate.
Qed.

(** C6, as stated, fails on the matrix without rows: it is square,
    symmetric and binary (both assertions pass), and [np.max] of the
    empty score vector raises [ValueError], so no vector is returned. *)
Lemma trackOutlier_empty_raises :
  square [] /\ symmetricb [] = true /\ binaryb [] = true
  /\ trackOutlier [] = Raise ValueError
  /\ ~ (exists o, trackOutlier [] = Ok o /\ length o = 0%nat).
Proof.
  split; [constructor|]. split; [reflexivity|]. split; [reflexivity|].
  split; [reflexivity|]. intros (o & H & _). discriminate.
Qed.

(** C6 (amended): for every symmetric binary n x n matrix with n >= 1,
    [trackOutlier] terminates and returns a boolean vector of length n;
    the result does not depend on the budget of the loop nor on the run
    (two results are equal), and [np.argmax] breaks ties by the lowest
    index: every position before the chosen one has a strictly smaller
    score. *)
Theorem trackOutlier_total (A : matrix) :
  square A -> symmetricb A = true -> binaryb A = true -> (1 <= length A)%nat ->
  exists o,
    trackOutlier A = Ok o
    /\ length o = length A
    /\ (forall fuel, (length A < fuel)%nat -> trackOutlier_fuel fuel A = Ok o)
    /\ (forall o1 o2, trackOutlier A = Ok o1 -> trackOutlier A = Ok o2 -> o1 = o2)
    /\ (forall b m, np_max b = Ok m ->
                    nth (argmax b) b 0 = m
                    /\ forall j, (j < argmax b)%nat -> nth j b 0 < m).
Proof.
  intros _ Hs Hb Hn.
  destruct (trackOutlier_fuel_enough A Hn Hs Hb) as (o & Ho & Hlen).
  exists o. split; [exact Ho|]. split; [exact Hlen|]. split; [|split].
  - intros fuel Hfuel.
    unfold trackOutlier, trackOutlier_fuel in *. rewrite Hs, Hb in *. simpl negb in *. cbv iota in *.
    replace fuel with (S (length A) + (fuel - S (length A)))%nat by lia.
    apply while_loop_more_fuel. exact Ho.
  - intros o1 o2 H1 H2. congruence.
  - intros b m Hm. destruct (argmax_spec b m Hm) as (_ & Hv & _ & Hfirst). auto.
Qed.

Lemma trackOutlier_total_witness :
  square docstring_A /\ symmetricb docstring_A = true /\ binaryb docstring_A = true
  /\ (1 <= length docstring_A)%nat
  /\ exists o,
    trackOutlier docstring_A = Ok o
    /\ length o = length docstring_A
    /\ (forall fuel, (length docstring_A < fuel)%nat ->
                     trackOutlier_fuel fuel docstring_A = Ok o)
    /\ (forall o1 o2, trackOutlier docstring_A = Ok o1 ->
                      trackOutlier docstring_A = Ok o2 -> o1 = o2)
    /\ (forall b m, np_max b = Ok m ->
                    nth (argmax b) b 0 = m
                    /\ forall j, (j < argmax b)%nat -> nth j b 0 < m).
Proof.
  assert (Hsq : square docstring_A) by (repeat constructor).
  assert (Hn : (1 <= length docstring_A)%nat) by (simpl; lia).
  split; [exact Hsq|]. split; [reflexivity|]. split; [reflexivity|].
  split; [exact Hn|].
  exact (trackOutlier_total docstring_A Hsq eq_refl eq_refl Hn).
Defined.

(** The docstring's matrix: observations 2 and 3 are the outliers. *)
Example trackOutlier_docstring :
  trackOutlier docstring_A = Ok [false; false; true; true; false].
Proof. reflexivity. Qed.

End KoyakFacts.

(** ** Masks, slices and element-wise operations *)

Lemma nonzero_from_In (mask : list bool) : forall i k,
  In k (nonzero_from i mask) <->
  (i <= k)%nat /\ (k - i < length mask)%nat /\ nth (k - i) mask false = true.
Proof.
  induction mask as [|b m IH]; intros i k; simpl.
  - split; [tauto | intros (_ & H & _); lia].
  - destruct b; simpl; rewrite ?IH; split.
    + intros [<-|(H1 & H2 & H3)].
      * replace (i - i)%nat with 0%nat by lia. repeat split; auto; lia.
      * destruct (k - i)%nat as [|j] eqn:E; [lia|].
        replace (k - S i)%nat with j in * by lia. repeat split; auto; lia.
    + intros (H1 & H2 & H3).
      destruct (k - i)%nat as [|j] eqn:E; [left; lia|].
      right. replace (k - S i)%nat with j by lia. repeat split; auto; lia.
    + intros (H1 & H2 & H3).
      destruct (k - i)%nat as [|j] eqn:E; [lia|].
      replace (k - S i)%nat with j in * by lia. repeat split; auto; lia.
    + intros (H1 & H2 & H3).
      destruct (k - i)%nat as [|j] eqn:E; [discriminate|].
      replace (k - S i)%nat with j by lia. repeat split; auto; lia.
Qed.

Lemma nonzero_In (mask : list bool) (k : nat) :
  In k (nonzero mask) <-> (k < length mask)%nat /\ nth k mask false = true.
Proof.
  unfold nonzero. rewrite nonzero_from_In. rewrite Nat.sub_0_r.
  split; [intros (_ & H); exact H | intros H; split; [lia | exact H]].
Qed.

Lemma length_map2 {A B C} (f : A -> B -> C) (l : list A) (m : list B) :
  length (map2 f l m) = Nat.min (length l) (length m).
Proof. unfold map2. rewrite length_map. apply length_combine. Qed.

Lemma nth_map2 {A B C} (f : A -> B -> C) (l : list A) (m : list B) k da db dc :
  (k < length l)%nat -> (k < length m)%nat ->
  nth k (map2 f l m) dc = f (nth k l da) (nth k m db).
Proof.
  unfold map2. revert m k; induction l as [|x l IH]; intros [|y m] [|k] Hl Hm;
    simpl in *; try lia; auto.
  apply IH; lia.
Qed.

Lemma nth_map_col (j k : nat) (l : list row) :
  nth k (map (col j) l) 0%Q = col j (nth k l []).
Proof.
  revert k; induction l as [|r l IH]; intros [|k]; simpl; auto;
    destruct j; reflexivity.
Qed.

Lemma select_all_false {A} (mask : list bool) (l : list A) :
  length mask = length l -> all mask = false -> select (map negb mask) l <> [].
Proof.
  revert l; induction mask as [|b m IH]; intros [|x t] Hlen Hall; simpl in *;
    try discriminate.
  destruct b; simpl in *; [apply IH; auto | discriminate].
Qed.

Lemma all_repeat_true (mask : list bool) :
  all mask = true -> mask = repeat true (length mask).
Proof.
  induction mask as [|b m IH]; simpl; auto.
  intros H. apply andb_true_iff in H as [-> H]. f_equal; auto.
Qed.

(** ** The anomaly matrix of [detectOutlier] *)

Module MatrixFacts.
Import Koyak.

Lemma sized_row n A r : sized n A -> (r < n)%nat -> length (nth r A []) = n.
Proof.
  intros [Hlen Hrows] Hr. rewrite Forall_forall in Hrows.
  apply Hrows. apply nth_In. lia.
Qed.

Lemma sized_zeros n : sized n (zeros n).
Proof.
  unfold zeros. split; [apply repeat_length|].
  apply Forall_forall. intros row Hin. apply repeat_spec in Hin. subst.
  apply repeat_length.
Qed.

Lemma entry_zeros n r c : entry (zeros n) r c = 0.
Proof.
  unfold entry, zeros.
  destruct (Nat.lt_ge_cases r n) as [Hr|Hr].
  - rewrite nth_repeat_lt by auto.
    destruct (Nat.lt_ge_cases c n) as [Hc|Hc].
    + apply nth_repeat_lt; auto.
    + apply nth_overflow. rewrite repeat_length. lia.
  - rewrite (nth_overflow (repeat _ _)) by (rewrite repeat_length; lia).
    destruct c; reflexivity.
Qed.

Lemma sized_set_entry n A r c x : sized n A -> sized n (set_entry A r c x).
Proof.
  intros [Hlen Hrows]. unfold set_entry. split.
  - rewrite length_upd. exact Hlen.
  - clear Hlen. set (new := upd c x (nth r A [])).
    assert (Hnew : (r < length A)%nat -> length new = n).
    { intros Hr. unfold new. rewrite length_upd.
      rewrite Forall_forall in Hrows. apply Hrows, nth_In, Hr. }
    clearbody new. revert r Hnew.
    induction Hrows as [|row A' Hrow Hrest IH]; intros [|r] Hnew; simpl; auto.
    + constructor; auto. apply Hnew. simpl; lia.
    + constructor; auto. apply IH. intros Hr. apply Hnew. simpl; lia.
Qed.

Lemma entry_set_entry n A r c x r' c' :
  sized n A -> (r < n)%nat -> (c < n)%nat ->
  entry (set_entry A r c x) r' c'
  = if ((r =? r') && (c =? c'))%nat then x else entry A r' c'.
Proof.
  intros Hs Hr Hc. unfold entry, set_entry.
  destruct (Nat.eqb_spec r r') as [<-|Hne]; simpl.
  - rewrite nth_upd_eq by (destruct Hs; lia).
    destruct (Nat.eqb_spec c c') as [<-|Hne].
    + apply nth_upd_eq. rewrite (sized_row n); auto.
    + apply nth_upd_ne; auto.
  - rewrite nth_upd_ne by auto. reflexivity.
Qed.

(** A fancy-index assignment [A[f(idx), g(idx)] = 1]. *)
Lemma entry_assign_ones n (f g : nat -> nat) (idx : list nat) : forall A,
  sized n A ->
  (forall k, In k idx -> (f k < n)%nat /\ (g k < n)%nat) ->
  let A' := fold_left (fun M k => set_entry M (f k) (g k) 1) idx A in
  sized n A'
  /\ forall r c, entry A' r c
                = if existsb (fun k => (f k =? r) && (g k =? c))%nat idx
                  then 1 else entry A r c.
Proof.
  induction idx as [|k idx IH]; intros A Hs Hin; simpl.
  - split; auto.
  - destruct (Hin k (or_introl eq_refl)) as [Hf Hg].
    destruct (IH (set_entry A (f k) (g k) 1)) as [Hs' He].
    + apply sized_set_entry; auto.
    + intros k' Hk'. apply Hin. right; auto.
    + split; auto. intros r c. rewrite He.
      rewrite (entry_set_entry n) by auto.
      destruct (existsb _ idx); [rewrite orb_true_r; reflexivity|].
      rewrite orb_false_r. reflexivity.
Qed.

Lemma binaryb_intro n A :
  sized n A ->
  (forall r c, (r < n)%nat -> (c < n)%nat -> entry A r c = 0 \/ entry A r c = 1) ->
  binaryb A = true.
Proof.
  intros [Hlen Hrows] H. unfold binaryb.
  apply forallb_forall. intros row Hrow.
  apply forallb_forall. intros x Hx.
  destruct (In_nth _ _ [] Hrow) as (r & Hr & <-).
  rewrite Forall_forall in Hrows.
  destruct (In_nth _ _ 0 Hx) as (c & Hc & <-).
  rewrite (Hrows _ Hrow) in Hc.
  destruct (H r c ltac:(lia) Hc) as [E|E]; unfold entry in E; rewrite E; reflexivity.
Qed.

Lemma symmetricb_intro A :
  (forall r c, (r < length A)%nat -> (c < length A)%nat -> entry A c r = entry A r c) ->
  symmetricb A = true.
Proof.
  intros H. unfold symmetricb.
  apply forallb_forall. intros r Hr. apply forallb_forall. intros c Hc.
  apply in_seq in Hr, Hc. apply Z.eqb_eq. apply H; lia.
Qed.

End MatrixFacts.

Section DetectFacts.
Import Koyak MatrixFacts.

Variable geod_inv : Q -> Q -> Q -> Q -> option (Q * Q * Q).
Variable dist : Q -> Q -> Q -> Q -> Q.

(** [geod.inv] succeeds and its third result is [dist]. *)
Hypothesis geod_inv_dist : forall lon1 lat1 lon2 lat2,
  exists az baz, geod_inv lon1 lat1 lon2 lat2 = Some (az, baz, dist lon1 lat1 lon2 lat2).

Lemma inv_each_rows (head : list row) : forall tail,
  inv_each geod_inv
           (combine (combine (map (col 2) head) (map (col 1) head))
                    (combine (map (col 2) tail) (map (col 1) tail)))
  = Ok (map2 (dist_rows dist) head tail).
Proof.
  induction head as [|p head IH]; intros [|q tail]; simpl; auto.
  destruct (geod_inv_dist (col 2 p) (col 1 p) (col 2 q) (col 1 q)) as (az & baz & ->).
  simpl. rewrite IH. reflexivity.
Qed.

(** For the lags the loop can process, both slices have [N - i] rows. *)
Lemma slice_to_lag (track : list row) (i : nat) :
  (i <= length track \/ 2 * length track <= i)%nat ->
  slice_to (Z.of_nat (length track) - Z.of_nat i) track
  = firstn (length track - i) track.
Proof.
  intros H. unfold slice_to.
  destruct (0 <=? Z.of_nat (length track) - Z.of_nat i) eqn:E.
  - f_equal. lia.
  - apply Z.leb_gt in E.
    replace (Z.to_nat _) with 0%nat by lia.
    replace (length track - i)%nat with 0%nat by lia. reflexivity.
Qed.

Lemma nth_cond (track : list row) (speed_max : Q) (i k : nat) :
  (k + i < length track)%nat ->
  let head := firstn (length track - i) track in
  let tail := skipn i track in
  let delta_t := map2 Qminus (map (col 0) tail) (map (col 0) head) in
  let cond := map2 (fun dt dd => Qltb 2 dt && Qltb (speed_max * KNOT) (dd / dt))
                   delta_t (map2 (dist_rows dist) head tail) in
  nth k cond false = too_fast dist track speed_max k (k + i).
Proof.
  intros Hk head tail delta_t cond.
  assert (Hh : length head = (length track - i)%nat)
    by (unfold head; rewrite length_firstn; lia).
  assert (Ht : length tail = (length track - i)%nat)
    by (unfold tail; rewrite length_skipn; lia).
  assert (Hnh : nth k head [] = nth k track [])
    by (unfold head; rewrite nth_firstn;
        destruct (k <? _)%nat eqn:E; [reflexivity | apply Nat.ltb_ge in E; lia]).
  assert (Hnt : nth k tail [] = nth (k + i) track [])
    by (unfold tail; rewrite nth_skipn; f_equal; lia).
  unfold cond, delta_t.
  rewrite (nth_map2 _ _ _ k 0%Q 0%Q)
    by (rewrite ?length_map2, ?length_map; lia).
  rewrite (nth_map2 _ _ _ k 0%Q 0%Q) by (rewrite ?length_map; lia).
  rewrite (nth_map2 (dist_rows dist) head tail k (@nil Q) (@nil Q) 0%Q) by lia.
  rewrite !nth_map_col, Hnh, Hnt. reflexivity.
Qed.

Lemma existsb_index (g : nat -> nat) (r c : nat) (idx : list nat) :
  existsb (fun k => (k =? r) && (g k =? c))%nat idx = true <-> In r idx /\ g r = c.
Proof.
  rewrite existsb_exists. split.
  - intros (k & Hin & Hk). apply andb_true_iff in Hk as [H1 H2].
    apply Nat.eqb_eq in H1, H2. subst. auto.
  - intros [Hin <-]. exists r. rewrite !Nat.eqb_refl. auto.
Qed.

Lemma existsb_index' (g : nat -> nat) (r c : nat) (idx : list nat) :
  existsb (fun k => (g k =? r) && (k =? c))%nat idx = true <-> In c idx /\ g c = r.
Proof.
  rewrite existsb_exists. split.
  - intros (k & Hin & Hk). apply andb_true_iff in Hk as [H1 H2].
    apply Nat.eqb_eq in H1, H2. subst. auto.
  - intros [Hin <-]. exists c. rewrite !Nat.eqb_refl. auto.
Qed.

(** One pass of the loop over lags sets exactly the too-fast pairs of
    the [i]-th diagonal, on both sides. *)
Lemma diagonal_spec (track : list row) (speed_max : Q) (i : nat) (A : matrix) :
  (i <= length track \/ 2 * length track <= i)%nat ->
  sized (length track) A ->
  exists A',
    diagonal geod_inv track speed_max A i = Ok A'
    /\ sized (length track) A'
    /\ forall r c, (r < length track)%nat -> (c < length track)%nat ->
                   entry A' r c = if lag_hit dist track speed_max r c i then 1
                                  else entry A r c.
Proof.
  intros Hi Hs. unfold diagonal. rewrite slice_to_lag by exact Hi.
  set (N := length track) in *.
  set (head := firstn (N - i) track). set (tail := skipn i track).
  assert (Hh : length head = (N - i)%nat)
    by (unfold head; rewrite length_firstn; lia).
  assert (Ht : length tail = (N - i)%nat)
    by (unfold tail; rewrite length_skipn; lia).
  unfold geod_inv_vec. rewrite !length_map, Hh, Ht, !Nat.eqb_refl. simpl andb. cbv iota.
  rewrite inv_each_rows. simpl bind.
  set (cond := map2 _ _ (map2 (dist_rows dist) head tail)).
  assert (Hc : length cond = (N - i)%nat).
  { unfold cond. rewrite !length_map2, !length_map. lia. }
  assert (Hidx : forall k, In k (nonzero cond) ->
                           (k + i < N)%nat /\ nth k cond false = true).
  { intros k Hk. apply nonzero_In in Hk as [Hk1 Hk2]. split; [lia | exact Hk2]. }
  destruct (entry_assign_ones N (fun k => k) (fun k => (k + i)%nat) (nonzero cond) A Hs)
    as [Hs1 He1].
  { intros k Hk. destruct (Hidx k Hk). lia. }
  set (A1 := fold_left _ (nonzero cond) A) in *.
  destruct (entry_assign_ones N (fun k => (k + i)%nat) (fun k => k) (nonzero cond) A1 Hs1)
    as [Hs2 He2].
  { intros k Hk. destruct (Hidx k Hk). lia. }
  eexists. split; [reflexivity|]. split; [exact Hs2|].
  intros r c Hr Hc'. rewrite He2, He1. unfold lag_hit.
  assert (Hfwd : forall lo hi, (hi < N)%nat ->
            (In lo (nonzero cond) /\ (lo + i)%nat = hi)
            <-> ((hi =? lo + i)%nat && too_fast dist track speed_max lo hi) = true).
  { intros lo hi Hhi. rewrite andb_true_iff, Nat.eqb_eq, nonzero_In. split.
    - intros [[H1 H2] <-]. split; [reflexivity|].
      rewrite <- H2. symmetry. apply (nth_cond track speed_max i lo). fold N. lia.
    - intros [-> H2]. split; [|reflexivity]. split; [lia|].
      rewrite <- H2. apply (nth_cond track speed_max i lo). fold N. lia. }
  destruct (existsb (fun k => (k + i =? r) && (k =? c))%nat (nonzero cond)) eqn:E2.
  - apply existsb_index' in E2. apply Hfwd in E2; auto.
    rewrite E2, orb_true_r. reflexivity.
  - destruct (existsb (fun k => (k =? r) && (k + i =? c))%nat (nonzero cond)) eqn:E1.
    + apply existsb_index in E1. apply Hfwd in E1; auto.
      rewrite E1. reflexivity.
    + destruct ((c =? r + i)%nat && too_fast dist track speed_max r c) eqn:F1.
      { apply Hfwd in F1; auto.
        apply (existsb_index (fun k => (k + i)%nat)) in F1. congruence. }
      destruct ((r =? c + i)%nat && too_fast dist track speed_max c r) eqn:F2.
      { apply Hfwd in F2; auto.
        apply (existsb_index' (fun k => (k + i)%nat)) in F2. congruence. }
      reflexivity.
Qed.

Lemma diagonals_spec (track : list row) (speed_max : Q) (lags : list nat) : forall A,
  (forall i, In i lags -> (i <= length track \/ 2 * length track <= i)%nat) ->
  sized (length track) A ->
  exists A',
    diagonals geod_inv track speed_max A lags = Ok A'
    /\ sized (length track) A'
    /\ forall r c, (r < length track)%nat -> (c < length track)%nat ->
                   entry A' r c = if existsb (lag_hit dist track speed_max r c) lags
                                  then 1 else entry A r c.
Proof.
  induction lags as [|i lags IH]; intros A Hlags Hs; simpl.
  - exists A. auto.
  - destruct (diagonal_spec track speed_max i A (Hlags i (or_introl eq_refl)) Hs)
      as (A1 & HA1 & Hs1 & He1).
    rewrite HA1. simpl.
    destruct (IH A1 (fun j Hj => Hlags j (or_intror Hj)) Hs1) as (A' & HA' & Hs' & He').
    exists A'. split; [exact HA'|]. split; [exact Hs'|].
    intros r c Hr Hc. rewrite He', He1 by auto.
    destruct (lag_hit dist track speed_max r c i); simpl;
      destruct (existsb _ lags); reflexivity.
Qed.

Lemma spec_banded_sym (track : list row) (speed_max : Q) (r c : nat) :
  spec_banded dist track speed_max c r = spec_banded dist track speed_max r c.
Proof.
  unfold spec_banded, lag_hit. simpl.
  repeat (f_equal; try apply orb_comm).
Qed.

Lemma select_nonempty_all {A} (mask : list bool) (l : list A) :
  select (map negb mask) l <> [] -> all mask = false.
Proof.
  unfold all.
  revert l; induction mask as [|b m IH]; intros [|x t] H; simpl in *;
    try congruence.
  - destruct b; simpl in H; congruence.
  - destruct b; simpl in *; [apply (IH t); exact H | reflexivity].
Qed.

(** In [detectOutlier], once the reported-speed outliers are removed
    and the remaining track has one row or at least four (no lag then
    makes the two slices of different lengths), the matrix handed to
    [trackOutlier] has a 1 at [(r, c)] exactly when [r] and [c] are one
    to four apart, more than two seconds elapse between the two
    messages and distance over elapsed time exceeds [speed_max *
    0.514444]; every other entry is 0; and the second result is
    [trackOutlier] of that matrix. *)
Theorem detectOutlier_banded (track : list row) (speed_max : Q) :
  let o_report := map (fun r => Qltb speed_max (col 3 r)) track in
  let kept := select (map negb o_report) track in
  (length kept = 1 \/ 4 <= length kept)%nat ->
  exists A o_calcul,
    anomaly_matrix geod_inv kept speed_max = Ok A
    /\ sized (length kept) A
    /\ (forall r c, (r < length kept)%nat -> (c < length kept)%nat ->
                    entry A r c = if spec_banded dist kept speed_max r c then 1 else 0)
    /\ trackOutlier A = Ok o_calcul
    /\ length o_calcul = length kept
    /\ detectOutlier geod_inv track speed_max = Ok (o_report, Some o_calcul).
Proof.
  intros o_report kept HN.
  destruct (diagonals_spec kept speed_max (seq 1 4) (zeros (length kept)))
    as (A & HA & Hs & He).
  { intros i Hi. apply in_seq in Hi. lia. }
  { apply sized_zeros. }
  assert (He' : forall r c, (r < length kept)%nat -> (c < length kept)%nat ->
                entry A r c = if spec_banded dist kept speed_max r c then 1 else 0).
  { intros r c Hr Hc. rewrite He by auto. rewrite entry_zeros. reflexivity. }
  assert (Hlen : length A = length kept) by apply Hs.
  destruct (KoyakFacts.trackOutlier_fuel_enough A) as (o & Ho & Hol).
  - lia.
  - apply symmetricb_intro. rewrite Hlen. intros r c Hr Hc.
    rewrite !He' by auto. rewrite spec_banded_sym. reflexivity.
  - apply (binaryb_intro (length kept)); auto.
    intros r c Hr Hc. rewrite He' by auto.
    destruct (spec_banded dist kept speed_max r c); auto.
  - exists A, o. split; [exact HA|]. split; [exact Hs|]. split; [exact He'|].
    split; [exact Ho|]. split; [lia|].
    unfold detectOutlier. fold o_report.
    rewrite (select_nonempty_all o_report track).
    + fold kept. unfold anomaly_matrix. rewrite HA. simpl. rewrite Ho. reflexivity.
    + fold kept. destruct kept; simpl in *; [lia | discriminate].
Qed.

Lemma detectOutlier_short_circuit (track : list row) (speed_max : Q) :
  Forall (fun r => (speed_max < col 3 r)%Q) track ->
  detectOutlier geod_inv track speed_max = Ok (repeat true (length track), None).
Proof.
  intros H. unfold detectOutlier.
  assert (Hall : map (fun r => Qltb speed_max (col 3 r)) track
                 = repeat true (length track)).
  { induction H as [|r t Hr Ht IH]; simpl; auto.
    apply Qltb_lt in Hr. rewrite Hr, IH. reflexivity. }
  rewrite Hall.
  replace (all (repeat true (length track))) with true; auto.
  clear. induction (length track); simpl; auto.
Qed.

(** C10: when every reported speed exceeds [speed_max], [detectOutlier]
    returns at once the all-true report vector with [None] in second
    position; evaluating [o_calcul.all()] or [np.invert(o_calcul)] on
    that result raises. *)
Theorem detectOutlier_all_reported (track : list row) (speed_max : Q) :
  Forall (fun r => (speed_max < col 3 r)%Q) track ->
  let res := detectOutlier geod_inv track speed_max in
  res = Ok (repeat true (length track), None)
  /\ (o <- res ;; all_method (snd o)) = Raise AttributeError
  /\ (o <- res ;; np_invert (snd o)) = Raise TypeError.
Proof.
  intros H res. unfold res.
  rewrite (detectOutlier_short_circuit track speed_max H). auto.
Qed.

(** The caller on that path: [o_report.all()] is true, [or] does not
    look at [o_calcul], and the voyage is popped without a fault. *)
Lemma anomaly_try_all_reported (v : ndarray) :
  Forall (fun r => (30 < col SOG r)%Q) (rows v) ->
  anomaly_try geod_inv v = Ok None.
Proof.
  intros H. unfold anomaly_try.
  rewrite detectOutlier_short_circuit.
  - cbn [bind]. rewrite length_map.
    replace (all (repeat true (length (rows v)))) with true; [reflexivity|].
    induction (length (rows v)); simpl; auto.
  - apply Forall_map. simpl. exact H.
Qed.

End DetectFacts.

Lemma detectOutlier_banded_witness :
  (forall lon1 lat1 lon2 lat2, exists az baz,
      flat_inv lon1 lat1 lon2 lat2 = Some (az, baz, flat_dist lon1 lat1 lon2 lat2))
  /\ (let kept := select (map negb (map (fun r => Qltb 30 (col 3 r)) jump_track))
                         jump_track in
      (length kept = 1 \/ 4 <= length kept)%nat)
  /\ exists A o_calcul,
      let o_report := map (fun r => Qltb 30 (col 3 r)) jump_track in
      let kept := select (map negb o_report) jump_track in
      anomaly_matrix flat_inv kept 30 = Ok A
      /\ Koyak.sized (length kept) A
      /\ (forall r c, (r < length kept)%nat -> (c < length kept)%nat ->
                      Koyak.entry A r c
                      = if spec_banded flat_dist kept 30 r c then 1 else 0)
      /\ Koyak.trackOutlier A = Ok o_calcul
      /\ length o_calcul = length kept
      /\ detectOutlier flat_inv jump_track 30 = Ok (o_report, Some o_calcul).
Proof.
  assert (H1 : forall lon1 lat1 lon2 lat2, exists az baz,
             flat_inv lon1 lat1 lon2 lat2 = Some (az, baz, flat_dist lon1 lat1 lon2 lat2)).
  { intros. exists 0%Q, 0%Q. reflexivity. }
  assert (H2 : let kept := select (map negb (map (fun r => Qltb 30 (col 3 r)) jump_track))
                                  jump_track in
               (length kept = 1 \/ 4 <= length kept)%nat).
  { right. vm_compute. lia. }
  split; [exact H1|]. split; [exact H2|].
  exact (detectOutlier_banded flat_inv flat_dist H1 jump_track 30 H2).
Defined.

Example detectOutlier_jump :
  detectOutlier flat_inv jump_track 30
  = Ok ([false; false; false; false; false; true],
        Some [false; false; true; false; false]).
Proof. vm_compute. reflexivity. Qed.

Lemma detectOutlier_all_reported_witness :
  Forall (fun r => (30 < col 3 r)%Q) [[0; 0; 0; 40]; [60; 0; 0; 50]]%Q
  /\ let res := detectOutlier flat_inv [[0; 0; 0; 40]; [60; 0; 0; 50]]%Q 30 in
     res = Ok (repeat true 2, None)
     /\ (o <- res ;; all_method (snd o)) = Raise AttributeError
     /\ (o <- res ;; np_invert (snd o)) = Raise TypeError.
Proof.
  assert (H : Forall (fun r => (30 < col 3 r)%Q) [[0; 0; 0; 40]; [60; 0; 0; 50]]%Q).
  { repeat constructor. }
  split; [exact H|].
  exact (detectOutlier_all_reported flat_inv [[0; 0; 0; 40]; [60; 0; 0; 50]]%Q 30 H).
Defined.

(** ** The interpolator *)

Lemma nonzero_from_none (mask : list bool) : forall o,
  (forall j, (j < length mask)%nat -> nth j mask false = false) ->
  nonzero_from o mask = [].
Proof.
  induction mask as [|x m IH]; intros o H; simpl; auto.
  pose proof (H 0%nat ltac:(simpl; lia)) as H0. simpl in H0. subst x.
  apply IH. intros j Hj. apply (H (S j)). simpl. lia.
Qed.

Lemma nonzero_from_hd (mask : list bool) : forall o i d,
  (o <= i)%nat -> (i - o < length mask)%nat ->
  nth (i - o) mask false = true ->
  (forall j, (j < i - o)%nat -> nth j mask false = false) ->
  hd d (nonzero_from o mask) = i.
Proof.
  induction mask as [|x m IH]; intros o i d Ho Hlen Hi Hbefore; simpl in *; [lia|].
  destruct (i - o)%nat as [|k] eqn:E.
  - subst x. simpl. lia.
  - rewrite (Hbefore 0%nat) by lia.
    apply IH; try lia.
    + replace (i - S o)%nat with k by lia. exact Hi.
    + replace (i - S o)%nat with k by lia.
      intros j Hj. apply (Hbefore (S j)). lia.
Qed.

Lemma nonzero_from_last (mask : list bool) : forall o i d,
  (o <= i)%nat -> (i - o < length mask)%nat ->
  nth (i - o) mask false = true ->
  (forall j, (i - o < j)%nat -> (j < length mask)%nat -> nth j mask false = false) ->
  last (nonzero_from o mask) d = i.
Proof.
  induction mask as [|x m IH]; intros o i d Ho Hlen Hi Hafter; simpl in *; [lia|].
  destruct (i - o)%nat as [|k] eqn:E.
  - subst x. rewrite nonzero_from_none.
    + simpl. lia.
    + intros j Hj. apply (Hafter (S j)); lia.
  - assert (Hrec : last (nonzero_from (S o) m) d = i).
    { apply IH; try lia.
      - replace (i - S o)%nat with k by lia. exact Hi.
      - replace (i - S o)%nat with k by lia.
        intros j Hj1 Hj2. apply (Hafter (S j)); lia. }
    destruct x; auto.
    assert (Hin : In i (nonzero_from (S o) m)).
    { apply nonzero_from_In. replace (i - S o)%nat with k by lia.
      repeat split; auto; lia. }
    destruct (nonzero_from (S o) m); [destruct Hin | exact Hrec].
Qed.

Lemma nonzero_hd_In (mask : list bool) :
  (0 <? length (nonzero mask))%nat = true -> In (hd 0%nat (nonzero mask)) (nonzero mask).
Proof.
  destruct (nonzero mask); simpl; [discriminate | auto].
Qed.

Lemma nonzero_last_In (mask : list bool) :
  (0 <? length (nonzero mask))%nat = true -> In (last (nonzero mask) 0%nat) (nonzero mask).
Proof.
  intros H. destruct (nonzero mask) as [|a l]; [discriminate|].
  clear H. revert a. induction l as [|b l IH]; intros a.
  - left. reflexivity.
  - right. apply (IH b).
Qed.

Lemma item_in_range (a : ndarray) (i j : nat) :
  (i < nrows a)%nat -> (j < ncols a)%nat ->
  item a i j = Ok (col j (nth i (rows a) [])).
Proof.
  intros Hi Hj. unfold item.
  apply Nat.ltb_lt in Hj. rewrite Hj.
  destruct (nth_error (rows a) i) as [r|] eqn:E.
  - rewrite (nth_error_nth _ _ _ E). reflexivity.
  - apply nth_error_None in E. unfold nrows in Hi. lia.
Qed.

Section InterpolateFacts.

Variable geod_inv : Q -> Q -> Q -> Q -> option (Q * Q * Q).
Variable geod_fwd : Q -> Q -> Q -> Q -> option (Q * Q * Q).
Variables HEADING ROT NAV_STT : option nat.

Local Abbreviation interp := (interpolate_ geod_inv geod_fwd HEADING ROT NAV_STT).
Local Abbreviation interp_try := (interpolate_try geod_inv geod_fwd HEADING ROT NAV_STT).

(** The body of the [try] never runs forever. *)
Lemma interpolate_try_halts track apos bpos dt_full dt_interp :
  interp_try track apos bpos dt_full dt_interp <> Diverge.
Proof.
  unfold interpolate_try, global, geod_call, py_div, item.
  repeat match goal with
         | |- context [match ?x with _ => _ end] => destruct x; simpl; try discriminate
         | |- context [if ?b then _ else _] => destruct b; simpl; try discriminate
         end.
Qed.

(** Every way out of [interpolate_] on a track of at least eight
    columns: unavailable, or a row of nine fields built from a [try]
    block that ran to its end. *)
Lemma interpolate_cases (t : Q) (track : ndarray) :
  (MMSI < ncols track)%nat ->
  interp t track = Ok None
  \/ exists apos bpos vals,
      (apos < nrows track)%nat /\ (bpos < nrows track)%nat
      /\ interp_try track apos bpos
           (col TIMESTAMP (nth apos (rows track) []) - col TIMESTAMP (nth bpos (rows track) []))
           (t - col TIMESTAMP (nth bpos (rows track) [])) = Ok vals
      /\ interp t track
         = Ok (Some (let '(lat, lon, speed, course, heading, rot, nav) := vals in
                     [lat; lon; speed; course; heading; rot; t;
                      col MMSI (nth 0 (rows track) []); nav])).
Proof.
  intros Hcols. unfold MMSI in Hcols. unfold interpolate_, column_at.
  assert (Hts : (TIMESTAMP <? ncols track)%nat = true)
    by (apply Nat.ltb_lt; unfold TIMESTAMP; lia).
  rewrite Hts. simpl bind.
  set (before_p := nonzero (map (fun x => Qle_bool x t) (column TIMESTAMP track))).
  set (after_p := nonzero (map (fun x => Qltb t x) (column TIMESTAMP track))).
  destruct (0 <? length before_p)%nat eqn:Hb; [|left; reflexivity].
  destruct (0 <? length after_p)%nat eqn:Ha; [|left; reflexivity].
  simpl andb. cbv iota.
  assert (Hbpos : (last before_p 0 < nrows track)%nat).
  { apply nonzero_last_In in Hb. apply nonzero_In in Hb as [Hb _].
    unfold column in Hb. rewrite !length_map in Hb. exact Hb. }
  assert (Hapos : (hd 0 after_p < nrows track)%nat).
  { apply nonzero_hd_In in Ha. apply nonzero_In in Ha as [Ha _].
    unfold column in Ha. rewrite !length_map in Ha. exact Ha. }
  rewrite !item_in_range by (auto; unfold TIMESTAMP; lia). simpl bind.
  destruct (Qltb 7200 _); [left; reflexivity|].
  destruct (interp_try _ _ _ _ _) as [vals|e|] eqn:Htry.
  - right. exists (hd 0%nat after_p), (last before_p 0%nat), vals.
    split; [exact Hapos|]. split; [exact Hbpos|]. split; [exact Htry|].
    destruct vals as [[[[[[lat lon] speed] course] heading] rot] nav].
    reflexivity.
  - left. reflexivity.
  - exfalso. eapply interpolate_try_halts; eauto.
Qed.

Ltac bind_inv H :=
  match type of H with
  | bind ?m _ = Ok _ =>
      let E := fresh "E" in
      destruct m eqn:E; simpl in H; [| discriminate H | discriminate H]
  end.

(** A [try] block that ran to its end called both geodesic functions
    with success and found the three names bound. *)
Lemma interpolate_try_ok track apos bpos dt_full dt_interp vals :
  interp_try track apos bpos dt_full dt_interp = Ok vals ->
  (exists lon1 lat1 lon2 lat2 r, geod_inv lon1 lat1 lon2 lat2 = Some r)
  /\ (exists lon lat az d r, geod_fwd lon lat az d = Some r)
  /\ HEADING <> None /\ ROT <> None /\ NAV_STT <> None.
Proof.
  unfold interpolate_try. intros H.
  do 4 bind_inv H.
  bind_inv H. destruct a3 as [[az baz] dist].
  bind_inv H.
  bind_inv H. destruct a4 as [[lon_i lat_i] back].
  do 4 bind_inv H.
  bind_inv H. do 2 bind_inv H.
  bind_inv H. do 2 bind_inv H.
  bind_inv H.
  split; [|split; [|split; [|split]]].
  - unfold geod_call in E3. destruct (geod_inv a a0 a1 a2) eqn:G; [|discriminate].
    eauto 6.
  - unfold geod_call in E5.
    destruct (geod_fwd a a0 az (dist * a3)) eqn:G; [|discriminate]. eauto 6.
  - intros ->. discriminate.
  - intros ->. discriminate.
  - intros ->. discriminate.
Qed.

(** On a track with the eight input columns [interpolate_] returns,
    and a failure of either geodesic call or an unbound name gives
    [None]. *)
Lemma interpolate_outcomes (t : Q) (track : ndarray) :
  (MMSI < ncols track)%nat ->
  (exists r, interp t track = Ok r)
  /\ ((forall lon1 lat1 lon2 lat2, geod_inv lon1 lat1 lon2 lat2 = None) ->
      interp t track = Ok None)
  /\ ((forall lon lat az d, geod_fwd lon lat az d = None) ->
      interp t track = Ok None)
  /\ (HEADING = None \/ ROT = None \/ NAV_STT = None -> interp t track = Ok None)
  /\ (forall row, interp t track = Ok (Some row) ->
        exists apos bpos vals,
          (apos < nrows track)%nat /\ (bpos < nrows track)%nat
          /\ interp_try track apos bpos
               (col TIMESTAMP (nth apos (rows track) [])
                - col TIMESTAMP (nth bpos (rows track) []))
               (t - col TIMESTAMP (nth bpos (rows track) [])) = Ok vals
          /\ row = (let '(lat, lon, speed, course, heading, rot, nav) := vals in
                    [lat; lon; speed; course; heading; rot; t;
                     col MMSI (nth 0 (rows track) []); nav])).
Proof.
  intros Hcols.
  destruct (interpolate_cases t track Hcols)
    as [Hnone | (apos & bpos & vals & Ha & Hb & Htry & Hres)].
  - rewrite Hnone. split; [eauto|]. repeat split; auto. intros row H. discriminate.
  - destruct (interpolate_try_ok _ _ _ _ _ _ Htry)
      as ((l1 & l2 & l3 & l4 & r1 & Hinv) & (f1 & f2 & f3 & f4 & r2 & Hfwd) & Hh & Hr & Hn).
    split; [rewrite Hres; eauto|].
    split; [intros Hfail; rewrite Hfail in Hinv; discriminate|].
    split; [intros Hfail; rewrite Hfail in Hfwd; discriminate|].
    split; [intros [H|[H|H]]; congruence|].
    intros row Hrow. rewrite Hres in Hrow. injection Hrow as <-.
    exists apos, bpos, vals. auto.
Qed.

(** C5: on a track with the eight input columns [interpolate_] always
    returns, a row or [None], and never lets an exception out; when
    [geod.inv] fails, when [geod.fwd] fails, or when any other step of
    the [try] block faults (such as a name without a binding), the
    result is [None]: a row is returned only by a [try] block that ran
    to its end. *)
Theorem interpolate_never_raises (t : Q) (track : ndarray) :
  (MMSI < ncols track)%nat ->
  (exists r, interp t track = Ok r)
  /\ ((forall lon1 lat1 lon2 lat2, geod_inv lon1 lat1 lon2 lat2 = None) ->
      interp t track = Ok None)
  /\ ((forall lon lat az d, geod_fwd lon lat az d = None) ->
      interp t track = Ok None)
  /\ (HEADING = None \/ ROT = None \/ NAV_STT = None -> interp t track = Ok None)
  /\ (forall row, interp t track = Ok (Some row) ->
        exists apos bpos vals,
          (apos < nrows track)%nat /\ (bpos < nrows track)%nat
          /\ interp_try track apos bpos
               (col TIMESTAMP (nth apos (rows track) [])
                - col TIMESTAMP (nth bpos (rows track) []))
               (t - col TIMESTAMP (nth bpos (rows track) [])) = Ok vals
          /\ row = (let '(lat, lon, speed, course, heading, rot, nav) := vals in
                    [lat; lon; speed; course; heading; rot; t;
                     col MMSI (nth 0 (rows track) []); nav])).
Proof. exact (interpolate_outcomes t track). Qed.

Lemma nth_map_lt {A B} (f : A -> B) (l : list A) (j : nat) (d : A) (d' : B) :
  (j < length l)%nat -> nth j (map f l) d' = f (nth j l d).
Proof.
  intros Hj. rewrite (nth_indep _ d' (f d)) by (rewrite length_map; exact Hj).
  apply map_nth.
Qed.

Lemma nth_column (j k : nat) (track : ndarray) :
  nth k (column j track) 0%Q = col j (nth k (rows track) []).
Proof. apply nth_map_col. Qed.

(** At the timestamp of message [b], when the next message is strictly
    later, the search of lines 139-144 brackets the target by [b] and
    [b + 1]. *)
Lemma bracket_at_message (track : ndarray) (b : nat) :
  let ts := column TIMESTAMP track in
  let t := nth b ts 0%Q in
  time_sorted track -> (S b < nrows track)%nat -> (t < nth (S b) ts 0)%Q ->
  let before_p := nonzero (map (fun x => Qle_bool x t) ts) in
  let after_p := nonzero (map (fun x => Qltb t x) ts) in
  (0 <? length before_p)%nat = true /\ (0 <? length after_p)%nat = true
  /\ last before_p 0%nat = b /\ hd 0%nat after_p = S b.
Proof.
  intros ts t Hsorted Hb Hlt before_p after_p.
  assert (Hlen : length ts = nrows track) by (unfold ts, column; apply length_map).
  assert (Hle : forall j, (j <= b)%nat -> (nth j ts 0 <= t)%Q).
  { intros j Hj. apply Hsorted; lia. }
  assert (Hgt : forall j, (b < j)%nat -> (j < nrows track)%nat -> (t < nth j ts 0)%Q).
  { intros j Hj1 Hj2. eapply Qlt_le_trans; [exact Hlt|]. apply Hsorted; lia. }
  assert (Hmb : forall j, (j < nrows track)%nat ->
              nth j (map (fun x => Qle_bool x t) ts) false = (j <=? b)%nat).
  { intros j Hj. rewrite (nth_map_lt _ _ _ 0%Q) by lia.
    destruct (Nat.leb_spec j b) as [H|H].
    - apply Qle_bool_iff. apply Hle; auto.
    - destruct (Qle_bool (nth j ts 0%Q) t) eqn:E; auto.
      apply Qle_bool_iff in E. exfalso.
      apply (Qlt_not_le _ _ (Hgt j H Hj)). exact E. }
  assert (Hma : forall j, (j < nrows track)%nat ->
              nth j (map (fun x => Qltb t x) ts) false = (b <? j)%nat).
  { intros j Hj. rewrite (nth_map_lt _ _ _ 0%Q) by lia.
    destruct (Nat.ltb_spec b j) as [H|H].
    - apply Qltb_lt. apply Hgt; auto.
    - apply Qltb_ge. apply Hle; auto. }
  assert (Hlast : last before_p 0%nat = b).
  { unfold before_p, nonzero. apply nonzero_from_last; rewrite ?Nat.sub_0_r, ?length_map; try lia.
    - rewrite Hmb by lia. apply Nat.leb_refl.
    - intros j Hj1 Hj2. rewrite Hmb by lia. apply Nat.leb_gt. lia. }
  assert (Hhd : hd 0%nat after_p = S b).
  { unfold after_p, nonzero. apply nonzero_from_hd; rewrite ?Nat.sub_0_r, ?length_map; try lia.
    - rewrite Hma by lia. apply Nat.ltb_lt. lia.
    - intros j Hj. rewrite Hma by lia. apply Nat.ltb_ge. lia. }
  assert (Hinb : In b before_p).
  { apply nonzero_In. rewrite length_map. split; [lia|].
    rewrite Hmb by lia. apply Nat.leb_refl. }
  assert (Hina : In (S b) after_p).
  { apply nonzero_In. rewrite length_map. split; [lia|].
    rewrite Hma by lia. apply Nat.ltb_lt. lia. }
  repeat split; auto.
  - destruct before_p; [destruct Hinb | reflexivity].
  - destruct after_p; [destruct Hina | reflexivity].
Qed.

(** At the timestamp of the last message of a sorted track no message
    is strictly later. *)
Lemma no_after_at_last (track : ndarray) (b : nat) :
  let ts := column TIMESTAMP track in
  time_sorted track -> S b = nrows track ->
  nonzero (map (fun x => Qltb (nth b ts 0%Q) x) ts) = [].
Proof.
  intros ts Hsorted Hb. unfold nonzero. apply nonzero_from_none.
  intros j Hj. unfold ts, column in Hj. rewrite !length_map in Hj. fold (nrows track) in Hj.
  rewrite (nth_map_lt _ _ _ 0%Q) by (unfold ts, column; rewrite length_map; exact Hj).
  apply Qltb_ge. apply Hsorted; lia.
Qed.

(** C2 (amended): on a time-sorted track, let [before] be a message
    followed by a strictly later message [after] at most two hours
    away, with [HEADING], [ROT] and [NAV_STT] bound to columns of the
    track and the two geodesic calls succeeding. Called at
    [before.timestamp], [interpolate_] returns a row whose speed,
    course, heading and rate of turn equal [before]'s, whose status is
    [before]'s, and whose position is what [geod.fwd] returns from
    [before]'s position for a distance equal to zero. Called at
    [after.timestamp], it takes [after] as the message at or before
    the target and needs a strictly later one within two hours: it
    returns [None] when [after] is the last message, and when the
    message following [after] is more than two hours later. *)
Theorem interpolate_at_message (track : ndarray) (b h r n : nat)
        (az baz d lon0 lat0 back : Q) :
  let before := nth b (rows track) [] in
  let after := nth (S b) (rows track) [] in
  (MMSI < ncols track)%nat ->
  HEADING = Some h -> ROT = Some r -> NAV_STT = Some n ->
  (h < ncols track)%nat -> (r < ncols track)%nat -> (n < ncols track)%nat ->
  time_sorted track ->
  (S b < nrows track)%nat ->
  (col TIMESTAMP before < col TIMESTAMP after)%Q ->
  (col TIMESTAMP after - col TIMESTAMP before <= 7200)%Q ->
  geod_inv (col LON before) (col LAT before) (col LON after) (col LAT after)
  = Some (az, baz, d) ->
  (forall x, x == 0 ->
             geod_fwd (col LON before) (col LAT before) az x = Some (lon0, lat0, back)) ->
  (exists speed course heading rot,
      interp (col TIMESTAMP before) track
      = Ok (Some [lat0; lon0; speed; course; heading; rot; col TIMESTAMP before;
                  col MMSI (nth 0 (rows track) []); col n before])
      /\ speed == col SOG before /\ course == col COG before
      /\ heading == col h before /\ rot == col r before)
  /\ (S (S b) = nrows track -> interp (col TIMESTAMP after) track = Ok None)
  /\ (forall next, nth_error (rows track) (S (S b)) = Some next ->
        (7200 < col TIMESTAMP next - col TIMESTAMP after)%Q ->
        interp (col TIMESTAMP after) track = Ok None).
Proof.
  intros before after Hcols HH HR HN Hh Hr Hn Hsorted Hb Hlt Hgap Hinv Hfwd.
  unfold MMSI in Hcols.
  assert (Hts : (TIMESTAMP <? ncols track)%nat = true)
    by (apply Nat.ltb_lt; unfold TIMESTAMP; lia).
  split.
  - set (t := col TIMESTAMP before) in *.
    assert (Et : t = nth b (column TIMESTAMP track) 0%Q)
      by (symmetry; apply nth_column).
    assert (Ea : col TIMESTAMP after = nth (S b) (column TIMESTAMP track) 0%Q)
      by (symmetry; apply nth_column).
    destruct (bracket_at_message track b Hsorted Hb) as (Hb1 & Ha1 & Hlast & Hhd).
    { rewrite <- Et, <- Ea. exact Hlt. }
    rewrite <- Et in Hb1, Ha1, Hlast, Hhd.
    unfold interpolate_, column_at. rewrite Hts. cbn [bind geod_call global].
    rewrite Hb1, Ha1, Hlast, Hhd. simpl andb. cbv iota.
    rewrite !item_in_range by (try lia; unfold TIMESTAMP; lia). cbn [bind geod_call global].
    fold before after. fold t.
    assert (Hpos : (0 < col TIMESTAMP after - t)%Q).
    { unfold Qminus. rewrite <- Qlt_minus_iff. exact Hlt. }
    assert (Hbig : Qltb 7200 (Qabs (col TIMESTAMP after - t)) = false).
    { apply Qltb_ge. rewrite Qabs_pos by (apply Qlt_le_weak; exact Hpos). exact Hgap. }
    rewrite Hbig.
    unfold interpolate_try.
    rewrite !item_in_range by (try lia; unfold LON, LAT, SOG, COG; lia).
    fold before after. cbn [bind geod_call global].
    rewrite Hinv. cbn [bind geod_call global].
    unfold py_div.
    assert (Hnz : Qeq_bool (col TIMESTAMP after - t) 0 = false).
    { destruct (Qeq_bool (col TIMESTAMP after - t) 0) eqn:E; auto.
      apply Qeq_bool_iff in E. rewrite E in Hpos. discriminate Hpos. }
    rewrite Hnz. cbn [bind geod_call global].
    rewrite Hfwd by (unfold Qdiv; ring). cbn [bind geod_call global].
    rewrite HH, HR, HN. cbn [bind geod_call global].
    rewrite !item_in_range by lia. fold before after. cbn [bind geod_call global].
    assert (Hhalf : Qltb ((col TIMESTAMP after - t) / 2) (t - t) = false).
    { apply Qltb_ge. setoid_replace (t - t)%Q with 0%Q by ring.
      apply Qle_shift_div_l; [reflexivity|]. rewrite Qmult_0_l.
      apply Qlt_le_weak. exact Hpos. }
    rewrite Hhalf. cbn [bind geod_call global].
    rewrite item_in_range by (try lia; unfold MMSI; lia). cbn [bind geod_call global].
    do 4 eexists. split; [reflexivity|].
    unfold Qdiv. repeat split; ring.
  - split.
    + intros Hlastrow.
      unfold interpolate_, column_at. rewrite Hts. cbn [bind geod_call global].
      assert (Ea : col TIMESTAMP after = nth (S b) (column TIMESTAMP track) 0%Q)
        by (symmetry; apply nth_column).
      rewrite Ea.
      rewrite (no_after_at_last track (S b) Hsorted Hlastrow).
      simpl length. rewrite andb_false_r. reflexivity.
    + intros next Hnext Hsilence.
      assert (Hb2 : (S (S b) < nrows track)%nat).
      { apply nth_error_Some. rewrite Hnext. discriminate. }
      assert (En : nth (S (S b)) (rows track) [] = next)
        by (apply nth_error_nth; exact Hnext).
      assert (Ea : col TIMESTAMP after = nth (S b) (column TIMESTAMP track) 0%Q)
        by (symmetry; apply nth_column).
      assert (Ex : col TIMESTAMP next = nth (S (S b)) (column TIMESTAMP track) 0%Q)
        by (rewrite nth_column, En; reflexivity).
      assert (Hpos : (0 < col TIMESTAMP next - col TIMESTAMP after)%Q).
      { eapply Qlt_trans; [|exact Hsilence]. reflexivity. }
      destruct (bracket_at_message track (S b) Hsorted Hb2) as (Hb1 & Ha1 & Hlast & Hhd).
      { rewrite <- Ea, <- Ex. rewrite Qlt_minus_iff. exact Hpos. }
      rewrite <- Ea in Hb1, Ha1, Hlast, Hhd.
      unfold interpolate_, column_at. rewrite Hts. cbn [bind geod_call global].
      rewrite Hb1, Ha1, Hlast, Hhd. simpl andb. cbv iota.
      rewrite !item_in_range by (try lia; unfold TIMESTAMP; lia).
      cbn [bind geod_call global]. rewrite En. fold after.
      assert (Hbig : Qltb 7200 (Qabs (col TIMESTAMP next - col TIMESTAMP after)) = true).
      { apply Qltb_lt. rewrite Qabs_pos by (apply Qlt_le_weak; exact Hpos). exact Hsilence. }
      rewrite Hbig. reflexivity.
Qed.

End InterpolateFacts.

Lemma pair_track_sorted : time_sorted pair_track.
Proof.
  intros i j Hij Hj. unfold nrows in Hj. simpl in Hj.
  destruct i as [|[|i]]; destruct j as [|[|j]]; try lia;
    unfold Qle; simpl; lia.
Qed.

Lemma interpolate_never_raises_witness :
  (MMSI < ncols pair_track)%nat
  /\ exists r, interpolate_ flat_inv flat_fwd (Some 4%nat) (Some 5%nat) (Some 5%nat)
                            300 pair_track = Ok r.
Proof.
  assert (H : (MMSI < ncols pair_track)%nat) by (unfold MMSI; simpl; lia).
  split; [exact H|].
  exact (proj1 (interpolate_never_raises flat_inv flat_fwd (Some 4%nat) (Some 5%nat)
                  (Some 5%nat) 300 pair_track H)).
Defined.

Lemma interpolate_at_message_witness :
  time_sorted pair_track
  /\ (col TIMESTAMP (nth 1 (rows pair_track) []) - col TIMESTAMP (nth 0 (rows pair_track) [])
      <= 7200)%Q
  /\ (exists speed course heading rot,
         interpolate_ flat_inv flat_fwd (Some 4%nat) (Some 5%nat) (Some 5%nat) 0 pair_track
         = Ok (Some [10; 20; speed; course; heading; rot; 0; 1234; 0]%Q)
         /\ speed == 5 /\ course == 90 /\ heading == 91 /\ rot == 0)
  /\ (2%nat = nrows pair_track ->
      interpolate_ flat_inv flat_fwd (Some 4%nat) (Some 5%nat) (Some 5%nat) 600 pair_track
      = Ok None)
  /\ (forall next, nth_error (rows pair_track) 2 = Some next ->
        (7200 < col TIMESTAMP next - 600)%Q ->
        interpolate_ flat_inv flat_fwd (Some 4%nat) (Some 5%nat) (Some 5%nat) 600 pair_track
        = Ok None).
Proof.
  assert (Hgap : (col TIMESTAMP (nth 1 (rows pair_track) [])
                  - col TIMESTAMP (nth 0 (rows pair_track) []) <= 7200)%Q)
    by (unfold Qle; simpl; lia).
  assert (Hfwd : forall x, x == 0 -> flat_fwd 20 10 0 x = Some (20, 10, 0)%Q).
  { intros x Hx. unfold flat_fwd. f_equal. f_equal. f_equal.
    change 20%Q with (Qred 20). apply Qred_complete. rewrite Hx. reflexivity. }
  split; [exact pair_track_sorted|]. split; [exact Hgap|].
  exact (interpolate_at_message flat_inv flat_fwd (Some 4%nat) (Some 5%nat) (Some 5%nat)
           pair_track 0 4 5 5 0 0 (flat_dist 20 10 21 11) 20 10 0
           ltac:(unfold MMSI; simpl; lia) eq_refl eq_refl eq_refl
           ltac:(simpl; lia) ltac:(simpl; lia) ltac:(simpl; lia)
           pair_track_sorted ltac:(unfold nrows; simpl; lia)
           ltac:(unfold Qlt; simpl; lia) Hgap eq_refl Hfwd).
Defined.

Lemma gap_track_sorted : time_sorted gap_track.
Proof.
  intros i j Hij Hj. unfold nrows in Hj. simpl in Hj.
  destruct i as [|[|[|[|i]]]]; destruct j as [|[|[|[|j]]]]; try lia;
    unfold Qle; simpl; lia.
Qed.

(** C2, as stated, fails at [after.timestamp]: in [gap_track], sorted,
    the second and third messages are an interior pair ten minutes
    apart, and the interpolator called at the third message's timestamp
    returns [None], because the message after it is 8000 seconds later;
    so it does at the last timestamp of [pair_track], where no message
    is later. Neither depends on the three names being bound. *)
Lemma interpolate_at_after_unavailable :
  time_sorted gap_track
  /\ (col TIMESTAMP (nth 2 (rows gap_track) []) - col TIMESTAMP (nth 1 (rows gap_track) [])
      <= 7200)%Q
  /\ col TIMESTAMP (nth 2 (rows gap_track) []) = 1200%Q
  /\ interpolate_ flat_inv flat_fwd (Some 4%nat) (Some 5%nat) (Some 5%nat) 1200 gap_track
     = Ok None
  /\ interpolate_ flat_inv flat_fwd None None None 1200 gap_track = Ok None
  /\ interpolate_ flat_inv flat_fwd (Some 4%nat) (Some 5%nat) (Some 5%nat) 600 pair_track
     = Ok None.
Proof.
  split; [exact gap_track_sorted|].
  split; [unfold Qle; simpl; lia|].
  split; [reflexivity|].
  split; [vm_compute; reflexivity|].
  split; vm_compute; reflexivity.
Qed.

(** ** Dictionaries *)

Module DictFacts.

Lemma keys_app {V} (d1 d2 : dict V) : keys (d1 ++ d2) = keys d1 ++ keys d2.
Proof. unfold keys. apply map_app. Qed.

Lemma lookup_app_fresh {V} (k : nat) (d1 d2 : dict V) :
  ~ In k (keys d1) -> lookup k (d1 ++ d2) = lookup k d2.
Proof.
  induction d1 as [|[k' v'] d1 IH]; simpl; intros H; auto.
  destruct (Nat.eqb_spec k' k) as [->|Hne]; [tauto | apply IH; tauto].
Qed.

Lemma pop_fresh {V} (k : nat) (d : dict V) : ~ In k (keys d) -> pop k d = d.
Proof.
  induction d as [|[k' v'] d IH]; simpl; intros H; auto.
  destruct (Nat.eqb_spec k' k) as [->|Hne]; simpl; [tauto|].
  f_equal. apply IH. tauto.
Qed.

Lemma pop_app {V} (k : nat) (d1 d2 : dict V) : pop k (d1 ++ d2) = pop k d1 ++ pop k d2.
Proof. unfold pop. apply filter_app. Qed.

Lemma pop_here {V} (k : nat) (v : V) (d1 d2 : dict V) :
  NoDup (keys (d1 ++ (k, v) :: d2)) -> pop k (d1 ++ (k, v) :: d2) = d1 ++ d2.
Proof.
  intros Hnd. rewrite keys_app in Hnd. simpl in Hnd.
  apply NoDup_remove in Hnd as [Hnd Hk]. rewrite in_app_iff in Hk.
  rewrite pop_app. simpl. rewrite Nat.eqb_refl. simpl.
  rewrite !pop_fresh by tauto. reflexivity.
Qed.

Lemma assign_fresh {V} (k : nat) (v : V) (d : dict V) :
  ~ In k (keys d) -> assign k v d = d ++ [(k, v)].
Proof.
  induction d as [|[k' v'] d IH]; simpl; intros H; auto.
  destruct (Nat.eqb_spec k' k) as [->|Hne]; [tauto|].
  f_equal. apply IH. tauto.
Qed.

Lemma assign_here {V} (k : nat) (v v' : V) (d1 d2 : dict V) :
  ~ In k (keys d1) -> assign k v' (d1 ++ (k, v) :: d2) = d1 ++ (k, v') :: d2.
Proof.
  induction d1 as [|[k1 v1] d1 IH]; simpl; intros H.
  - rewrite Nat.eqb_refl. reflexivity.
  - destruct (Nat.eqb_spec k1 k) as [->|Hne]; [tauto|].
    f_equal. apply IH. tauto.
Qed.

(** The popping loops keep, in order, the entries that pass the test. *)
Lemma pop_for_filter {V} (drop : V -> bool) (d2 : dict V) : forall d1,
  NoDup (keys (d1 ++ d2)) ->
  pop_for drop (keys d2) (d1 ++ d2)
  = d1 ++ filter (fun kv => negb (drop (snd kv))) d2.
Proof.
  induction d2 as [|[k v] d2 IH]; intros d1 Hnd; simpl.
  - reflexivity.
  - assert (Hfresh : ~ In k (keys d1)).
    { rewrite keys_app in Hnd. simpl in Hnd.
      apply NoDup_remove_2 in Hnd. rewrite in_app_iff in Hnd. tauto. }
    rewrite lookup_app_fresh by exact Hfresh. simpl. rewrite Nat.eqb_refl.
    destruct (drop v) eqn:E; simpl.
    + rewrite pop_here by exact Hnd. apply IH.
      rewrite keys_app in *. simpl in Hnd. apply NoDup_remove_1 in Hnd. exact Hnd.
    + replace (d1 ++ (k, v) :: d2) with ((d1 ++ [(k, v)]) ++ d2)
        by (rewrite <- app_assoc; reflexivity).
      rewrite IH.
      * rewrite <- app_assoc. reflexivity.
      * rewrite <- app_assoc. exact Hnd.
Qed.

Lemma pop_for_all {V} (drop : V -> bool) (d : dict V) :
  NoDup (keys d) ->
  pop_for drop (keys d) d = filter (fun kv => negb (drop (snd kv))) d.
Proof. intros H. apply (pop_for_filter drop d []). exact H. Qed.

(** The loops whose test may raise, on entries where it returns. *)
Lemma pop_for_try_filter {V} (drop : V -> outcome bool) (f : V -> bool) (d2 : dict V) :
  forall d1,
  NoDup (keys (d1 ++ d2)) ->
  (forall kv, In kv d2 -> drop (snd kv) = Ok (f (snd kv))) ->
  pop_for_try drop (keys d2) (d1 ++ d2)
  = Ok (d1 ++ filter (fun kv => negb (f (snd kv))) d2).
Proof.
  induction d2 as [|[k v] d2 IH]; intros d1 Hnd Hok; simpl.
  - reflexivity.
  - assert (Hfresh : ~ In k (keys d1)).
    { rewrite keys_app in Hnd. simpl in Hnd.
      apply NoDup_remove_2 in Hnd. rewrite in_app_iff in Hnd. tauto. }
    rewrite lookup_app_fresh by exact Hfresh. simpl. rewrite Nat.eqb_refl.
    pose proof (Hok (k, v) (or_introl eq_refl)) as Hv. simpl in Hv.
    rewrite Hv. cbn [bind].
    assert (Hok' : forall kv, In kv d2 -> drop (snd kv) = Ok (f (snd kv)))
      by (intros kv Hkv; apply Hok; right; exact Hkv).
    destruct (f v) eqn:E; simpl.
    + rewrite pop_here by exact Hnd. apply IH; [|exact Hok'].
      rewrite keys_app in *. simpl in Hnd. apply NoDup_remove_1 in Hnd. exact Hnd.
    + replace (d1 ++ (k, v) :: d2) with ((d1 ++ [(k, v)]) ++ d2)
        by (rewrite <- app_assoc; reflexivity).
      rewrite IH; [|rewrite <- app_assoc; exact Hnd | exact Hok'].
      rewrite <- app_assoc. reflexivity.
Qed.

Lemma pop_for_try_all {V} (drop : V -> outcome bool) (f : V -> bool) (d : dict V) :
  NoDup (keys d) ->
  (forall kv, In kv d -> drop (snd kv) = Ok (f (snd kv))) ->
  pop_for_try drop (keys d) d = Ok (filter (fun kv => negb (f (snd kv))) d).
Proof. intros H Hok. apply (pop_for_try_filter drop f d [] H Hok). Qed.

(** A test that raises on the first entry ends the loop there. *)
Lemma pop_for_try_raises {V} (drop : V -> outcome bool) (k : nat) (v : V) (d : dict V)
      (e : exn) :
  drop v = Raise e ->
  pop_for_try drop (keys ((k, v) :: d)) ((k, v) :: d) = Raise e.
Proof. intros H. simpl. rewrite Nat.eqb_refl, H. reflexivity. Qed.

(** Storing under a running counter above every key appends. *)
Lemma store_all_fresh {V} (tmp : list V) : forall (d : dict V) (count : nat),
  (forall k, In k (keys d) -> (k < count)%nat) ->
  store_all tmp d count
  = (d ++ combine (seq count (length tmp)) tmp, (count + length tmp)%nat).
Proof.
  induction tmp as [|t tmp IH]; intros d count Hlt; simpl.
  - rewrite app_nil_r. f_equal. lia.
  - rewrite assign_fresh by (intros Hin; apply Hlt in Hin; lia).
    rewrite IH.
    + rewrite <- app_assoc. simpl. f_equal. lia.
    + intros k Hin. rewrite keys_app, in_app_iff in Hin. simpl in Hin.
      destruct Hin as [Hin|[<-|[]]]; [apply Hlt in Hin|]; lia.
Qed.

Lemma keys_combine_seq {V} (count : nat) (l : list V) :
  keys (combine (seq count (length l)) l) = seq count (length l).
Proof.
  unfold keys. revert count; induction l as [|x l IH]; intros count; simpl; auto.
  f_equal. apply IH.
Qed.

Lemma values_combine_seq {V} (count : nat) (l : list V) :
  map snd (combine (seq count (length l)) l) = l.
Proof.
  revert count; induction l as [|x l IH]; intros count; simpl; auto.
  f_equal. apply IH.
Qed.

Lemma combine_append {A B} (l1 l2 : list A) (m1 m2 : list B) :
  length l1 = length m1 ->
  combine (l1 ++ l2) (m1 ++ m2) = combine l1 m1 ++ combine l2 m2.
Proof.
  revert m1; induction l1 as [|x l1 IH]; intros [|y m1] H; simpl in *;
    try discriminate; auto.
  f_equal. apply IH. lia.
Qed.

Lemma store_pieces_fresh {V W} (pieces : V -> list W) (xs : list V) :
  forall (d : dict W) (count : nat),
  (forall k, In k (keys d) -> (k < count)%nat) ->
  store_pieces pieces xs d count
  = (d ++ combine (seq count (length (flat_map pieces xs))) (flat_map pieces xs),
     (count + length (flat_map pieces xs))%nat).
Proof.
  induction xs as [|x xs IH]; intros d count Hlt; simpl.
  - rewrite app_nil_r. f_equal. lia.
  - rewrite store_all_fresh by exact Hlt.
    rewrite IH.
    + rewrite <- app_assoc, length_app, seq_app, combine_append
        by (rewrite length_seq; reflexivity).
      f_equal. lia.
    + intros k Hin. rewrite keys_app, in_app_iff, keys_combine_seq in Hin.
      destruct Hin as [Hin|Hin]; [apply Hlt in Hin; lia|].
      apply in_seq in Hin. lia.
Qed.

(** From the empty dictionary: keys [0 .. n-1], values the pieces in order. *)
Lemma store_pieces_empty {V W} (pieces : V -> list W) (xs : list V) :
  let d := fst (store_pieces pieces xs [] 0%nat) in
  map snd d = flat_map pieces xs
  /\ keys d = seq 0 (length (flat_map pieces xs))
  /\ NoDup (keys d).
Proof.
  simpl. rewrite store_pieces_fresh by (intros k []). simpl.
  rewrite keys_combine_seq, values_combine_seq.
  repeat split. apply seq_NoDup.
Qed.

Lemma NoDup_keys_filter {V} (f : nat * V -> bool) (d : dict V) :
  NoDup (keys d) -> NoDup (keys (filter f d)).
Proof.
  unfold keys. induction d as [|kv d IH]; simpl; intros H; auto.
  inversion H as [|? ? Hnin Hnd]; subst.
  destruct (f kv); simpl; auto.
  constructor; auto.
  intros Hin. apply Hnin. apply in_map_iff in Hin as (x & Hx & Hin).
  apply filter_In in Hin as [Hin _]. apply in_map_iff. eauto.
Qed.

End DictFacts.

(** ** Stage 5: blocks of 144 samples *)

Module BlockFacts.

Section Chunks.
Context {A : Type}.
Variable s : nat.
Hypothesis s_pos : (1 <= s)%nat.

Lemma split_from_multiples (l : list A) (m : nat) : forall j,
  split_from (j * s) (map (fun k => k * s)%nat (seq (S j) m)) l
  = map (fun i => slice (i * s) (S i * s) l) (seq j m) ++ [skipn ((j + m) * s) l].
Proof.
  induction m as [|m IH]; intros j; simpl.
  - rewrite Nat.add_0_r. reflexivity.
  - f_equal. change (s + j * s)%nat with (S j * s)%nat.
    rewrite IH. do 3 f_equal. lia.
Qed.

Lemma length_chunk (l : list A) (i : nat) :
  (S i * s <= length l)%nat -> length (slice (i * s) (S i * s) l) = s.
Proof.
  intros H. unfold slice. rewrite length_firstn, length_skipn. simpl in *. lia.
Qed.

Lemma filter_full_chunks (l : list A) (m : nat) :
  (m * s <= length l)%nat ->
  filter (fun sub => (s <=? length sub)%nat)
         (map (fun i => slice (i * s) (S i * s) l) (seq 0 m))
  = map (fun i => slice (i * s) (S i * s) l) (seq 0 m).
Proof.
  intros H. apply forallb_filter_id. apply forallb_forall.
  intros sub Hin. apply in_map_iff in Hin as (i & <- & Hi). apply in_seq in Hi.
  apply Nat.leb_le. rewrite length_chunk; [lia|].
  apply Nat.le_trans with (m * s)%nat; [|exact H].
  apply Nat.mul_le_mono_r. lia.
Qed.

(** Cutting at the multiples of [s] and keeping the pieces of at least
    [s] rows gives the [length l / s] full chunks, in order. *)
Lemma full_chunks (l : list A) :
  filter (fun sub => (s <=? length sub)%nat)
         (np_split l (tl (np_arange (length l) s)))
  = map (fun i => slice (i * s) (S i * s) l) (seq 0 (length l / s)).
Proof.
  unfold np_arange, np_split.
  set (n := length l).
  assert (Hs : s <> 0%nat) by lia.
  pose proof (Nat.div_mod_eq n s) as Hdm.
  pose proof (Nat.mod_upper_bound n s Hs) as Hr.
  set (q := (n / s)%nat) in *. set (r := (n mod s)%nat) in *.
  destruct (Nat.eq_dec r 0) as [Hr0|Hr0].
  - (* s divides n *)
    assert (HK : ((n + s - 1) / s = q)%nat).
    { symmetry. apply (Nat.div_unique _ _ _ (s - 1)); lia. }
    rewrite HK.
    destruct q as [|q'].
    + simpl. assert (Hn : length l = 0%nat) by (fold n; lia).
      rewrite Hn. destruct (Nat.leb_spec s 0); [lia | reflexivity].
    + change (tl (map (fun k => (k * s)%nat) (seq 0 (S q'))))
        with (map (fun k => (k * s)%nat) (seq 1 q')).
      change (split_from 0) with (@split_from A (0 * s)). rewrite split_from_multiples.
      rewrite filter_app, filter_full_chunks by (fold n; nia).
      simpl filter.
      assert (Hlast : length (skipn (q' * s) l) = s).
      { rewrite length_skipn. fold n. nia. }
      rewrite Hlast, Nat.leb_refl.
      rewrite seq_S, map_app. simpl. do 2 f_equal.
      unfold slice. replace (s + q' * s - q' * s)%nat with s by lia.
      rewrite firstn_all2; [reflexivity | lia].
  - (* a shorter trailing piece *)
    assert (HK : ((n + s - 1) / s = S q)%nat).
    { symmetry. apply (Nat.div_unique _ _ _ (r - 1)); lia. }
    rewrite HK.
    change (tl (map (fun k => (k * s)%nat) (seq 0 (S q))))
      with (map (fun k => (k * s)%nat) (seq 1 q)).
    change (split_from 0) with (@split_from A (0 * s)). rewrite split_from_multiples.
    rewrite filter_app, filter_full_chunks by (fold n; nia).
    simpl filter.
    assert (Hlast : length (skipn (q * s) l) = r).
    { rewrite length_skipn. fold n. nia. }
    rewrite Hlast. destruct (Nat.leb_spec s r); [lia|].
    apply app_nil_r.
Qed.

Lemma firstn_plus (a b : nat) (l : list A) :
  firstn (a + b) l = firstn a l ++ firstn b (skipn a l).
Proof.
  revert l; induction a as [|a IH]; intros [|x l]; simpl; auto.
  - rewrite firstn_nil. reflexivity.
  - f_equal. apply IH.
Qed.

Lemma concat_chunks (l : list A) (m : nat) :
  concat (map (fun i => slice (i * s) (S i * s) l) (seq 0 m)) = firstn (m * s) l.
Proof.
  induction m as [|m IH].
  - reflexivity.
  - rewrite seq_S, map_app, concat_app, IH. simpl.
    rewrite app_nil_r. unfold slice.
    replace (s + m * s)%nat with (m * s + s)%nat by lia.
    rewrite firstn_plus. do 2 f_equal. lia.
Qed.

End Chunks.

(** C9: every block stored by the re-splitting loop has exactly 144
    rows. The blocks of a resampled voyage are its consecutive full
    runs of 144 rows, [len // 144] of them; put end to end they are the
    voyage's first [144 * (len // 144)] rows, so the shorter trailing
    slice is not stored. *)
Theorem resplit_blocks (Vs : list ndarray) :
  let Data := fst (resplit Vs [] 0%nat) in
  (forall k block, In (k, block) Data -> nrows block = 144%nat)
  /\ map snd Data = flat_map blocks_of Vs
  /\ (forall v, blocks_of v
                = map (fun i => mkarr (ncols v) (slice (i * 144) (S i * 144) (rows v)))
                      (seq 0 (nrows v / 144)))
  /\ (forall v, concat (map rows (blocks_of v))
                = firstn (nrows v / 144 * 144) (rows v)).
Proof.
  assert (Hblocks : forall v, blocks_of v
            = map (fun i => mkarr (ncols v) (slice (i * 144) (S i * 144) (rows v)))
                  (seq 0 (nrows v / 144))).
  { intros v. unfold blocks_of.
    change (one_hour * DURATION_MAX)%nat with 144%nat.
    unfold nrows. rewrite (full_chunks 144 ltac:(lia)).
    rewrite map_map. reflexivity. }
  assert (Hlen : forall v block, In block (blocks_of v) -> nrows block = 144%nat).
  { intros v block Hin. rewrite Hblocks in Hin.
    apply in_map_iff in Hin as (i & <- & Hi). apply in_seq in Hi.
    unfold nrows at 1. cbn [rows]. apply (length_chunk 144); [lia|].
    pose proof (Nat.div_mod_eq (nrows v) 144) as Hdm. unfold nrows in *. lia. }
  pose proof (DictFacts.store_pieces_empty blocks_of Vs) as (Hvals & _ & _).
  intros Data. fold (resplit Vs [] 0%nat) in Hvals. fold Data in Hvals.
  split; [|split; [exact Hvals | split; [exact Hblocks|]]].
  - intros k block Hin.
    assert (Hb : In block (map snd Data)) by (apply in_map_iff; exists (k, block); auto).
    rewrite Hvals in Hb. apply in_flat_map in Hb as (v & _ & Hb).
    eapply Hlen; eauto.
  - intros v. rewrite Hblocks, map_map. cbn [rows].
    apply (concat_chunks 144). lia.
Qed.

End BlockFacts.

(** ** Stages 1 and 2: voyages *)

Module VoyageFacts.

Lemma concat_split_from {A} (l : list A) (idx : list nat) : forall st,
  StronglySorted le (st :: idx) ->
  concat (split_from st idx l) = skipn st l.
Proof.
  induction idx as [|i idx IH]; intros st Hs; simpl.
  - apply app_nil_r.
  - inversion Hs as [|? ? Hrest Hall]; subst.
    inversion Hall as [|? ? Hi _]; subst.
    rewrite IH by exact Hrest. unfold slice.
    replace (skipn i l) with (skipn (i - st) (skipn st l)).
    + apply firstn_skipn.
    + rewrite skipn_skipn. f_equal. lia.
Qed.

Lemma length_split_from {A} (l : list A) (idx : list nat) : forall st,
  length (split_from st idx l) = S (length idx).
Proof. induction idx as [|i idx IH]; intros st; simpl; auto. Qed.

Lemma nonzero_from_sorted (mask : list bool) : forall o,
  StronglySorted le (o :: map S (nonzero_from o mask)).
Proof.
  induction mask as [|x m IH]; intros o; simpl.
  - repeat constructor.
  - specialize (IH (S o)).
    inversion IH as [|? ? Hrest Hall]; subst.
    destruct x; simpl.
    + constructor; [exact IH|].
      constructor; [lia|].
      eapply Forall_impl; [|exact Hall]. simpl. intros. lia.
    + constructor; [exact Hrest|].
      eapply Forall_impl; [|exact Hall]. simpl. intros. lia.
Qed.

Lemma nonzero_from_single (mask : list bool) : forall o i,
  (i < length mask)%nat -> nth i mask false = true ->
  (forall j, (j < length mask)%nat -> j <> i -> nth j mask false = false) ->
  nonzero_from o mask = [(o + i)%nat].
Proof.
  induction mask as [|x m IH]; intros o i Hi Ht Hothers; simpl in *; [lia|].
  destruct i as [|i].
  - subst x. rewrite nonzero_from_none.
    + f_equal. lia.
    + intros j Hj. apply (Hothers (S j)); lia.
  - rewrite (Hothers 0%nat) by lia.
    rewrite (IH (S o) i); try lia; auto.
    + f_equal. lia.
    + intros j Hj Hne. apply (Hothers (S j)); lia.
Qed.

(** The timestamps differences of line 185. *)
Lemma gaps_spec (v : ndarray) (i : nat) :
  In i (gaps v) <->
  (S i < nrows v)%nat
  /\ (INTERVAL_MAX < nth (S i) (column TIMESTAMP v) 0 - nth i (column TIMESTAMP v) 0)%Q.
Proof.
  unfold gaps. set (ts := column TIMESTAMP v).
  assert (Hlen : length ts = nrows v) by (unfold ts, column; apply length_map).
  assert (Hinit : slice_to (-1) ts = firstn (nrows v - 1) ts).
  { unfold slice_to. simpl. f_equal. lia. }
  rewrite Hinit. rewrite nonzero_In, length_map, length_map2.
  assert (Htl : length (tl ts) = (nrows v - 1)%nat) by (destruct ts; simpl in *; lia).
  rewrite Htl, length_firstn, Hlen.
  split.
  - intros [Hi Hm]. split; [lia|].
    rewrite (nth_map_lt _ _ _ 0%Q) in Hm by (rewrite length_map2, Htl, length_firstn; lia).
    rewrite (nth_map2 _ _ _ i 0%Q 0%Q) in Hm by (rewrite ?Htl, ?length_firstn; lia).
    apply Qltb_lt in Hm.
    rewrite nth_firstn in Hm.
    destruct (Nat.ltb_spec i (nrows v - 1)); [|lia].
    destruct ts; [simpl in *; lia | exact Hm].
  - intros [Hi Hm]. split; [lia|].
    rewrite (nth_map_lt _ _ _ 0%Q) by (rewrite length_map2, Htl, length_firstn; lia).
    rewrite (nth_map2 _ _ _ i 0%Q 0%Q) by (rewrite ?Htl, ?length_firstn; lia).
    apply Qltb_lt. rewrite nth_firstn.
    destruct (Nat.ltb_spec i (nrows v - 1)); [|lia].
    destruct ts; [simpl in *; lia | exact Hm].
Qed.

Lemma segment_pieces (v : ndarray) :
  (0 < nrows v)%nat ->
  segment v = map (mkarr (ncols v)) (np_split (rows v) (map S (gaps v))).
Proof.
  intros Hn. unfold segment. apply Nat.ltb_lt in Hn. rewrite Hn.
  destruct (gaps v) as [|i idx]; simpl; auto.
  destruct v; reflexivity.
Qed.

Lemma segment_empty (v : ndarray) : nrows v = 0%nat -> segment v = [].
Proof. intros H. unfold segment. rewrite H. reflexivity. Qed.

Lemma too_short_spec (v : ndarray) :
  too_short v = true <-> (nrows v < 75)%nat \/ (duration v < 6 * 3600)%Q.
Proof.
  unfold too_short. rewrite orb_true_iff, Nat.ltb_lt, Qltb_lt. reflexivity.
Qed.

End VoyageFacts.

(** ** Stage 6: the moored / at-anchor test *)

Module QualityFacts.

Lemma Qlt_div_iff (a b c : Q) : (0 < c)%Q -> (a < b / c <-> a * c < b)%Q.
Proof.
  intros Hc. rewrite <- (Qmult_lt_r a (b / c) c Hc).
  assert (E : (b / c * c == b)%Q).
  { field. intros H. rewrite H in Hc. discriminate Hc. }
  rewrite E. reflexivity.
Qed.

(** [count / len > 0.7], on integers. *)
Lemma share_exceeds (c n : nat) :
  (c <= n)%nat ->
  Qltb (7 # 10) (inject_Z (Z.of_nat c) / inject_Z (Z.of_nat n)) = true
  <-> 7 * Z.of_nat n < 10 * Z.of_nat c.
Proof.
  intros Hcn. rewrite Qltb_lt.
  destruct n as [|n].
  - assert (c = 0%nat) by lia. subst c. simpl. split; [intros H; discriminate H | lia].
  - rewrite Qlt_div_iff by (unfold Qlt; simpl; lia).
    unfold Qlt. simpl Qnum. simpl Qden. lia.
Qed.

Lemma count_nonzero_le (mask : list bool) : (count_nonzero mask <= length mask)%nat.
Proof. unfold count_nonzero. apply filter_length_le. Qed.

Lemma rows_nonzero (block : ndarray) :
  (0 < nrows block)%nat -> Qeq_bool (inject_Z (Z.of_nat (nrows block))) 0 = false.
Proof.
  intros Hn. destruct (Qeq_bool _ 0) eqn:E; auto.
  apply Qeq_bool_iff in E. unfold Qeq in E. simpl in E. lia.
Qed.

Lemma fraction_eq_rows (j : nat) (code : Q) (block : ndarray) :
  (0 < nrows block)%nat ->
  fraction_eq j code block
  = Ok (inject_Z (Z.of_nat (count_nonzero (map (fun x => Qeq_bool x code)
                                               (column j block))))
        / inject_Z (Z.of_nat (nrows block)))%Q.
Proof. intros Hn. unfold fraction_eq, py_div. rewrite rows_nonzero by exact Hn. reflexivity. Qed.

Lemma fraction_eq_empty (j : nat) (code : Q) (block : ndarray) :
  nrows block = 0%nat -> fraction_eq j code block = Raise ZeroDivisionError.
Proof. intros Hn. unfold fraction_eq, py_div. rewrite Hn. reflexivity. Qed.

(** On a block with rows the first test returns: it compares the two
    shares with 0.7 one after the other. *)
Lemma moored_or_anchor_rows (block : ndarray) :
  (0 < nrows block)%nat ->
  let share code :=
    (inject_Z (Z.of_nat (count_nonzero (map (fun x => Qeq_bool x code)
                                            (column NAV block))))
     / inject_Z (Z.of_nat (nrows block)))%Q in
  moored_or_anchor block = Ok (Qltb (7 # 10) (share 7%Q) || Qltb (7 # 10) (share 8%Q)).
Proof.
  intros Hn share. unfold moored_or_anchor.
  rewrite !fraction_eq_rows by exact Hn. cbn [bind]. fold (share 7%Q) (share 8%Q).
  destruct (Qltb (7 # 10) (share 7%Q)); reflexivity.
Qed.

Lemma never_moved_rows (block : ndarray) :
  (0 < nrows block)%nat -> exists b, never_moved block = Ok b.
Proof.
  unfold never_moved, column, nrows. intros Hn.
  destruct (rows block) as [|r0 l]; [simpl in Hn; lia|]. simpl. eauto.
Qed.

(** The loop of lines 255-264 on blocks with rows. *)
Lemma remove_moored_rows (Data : dict ndarray) :
  NoDup (keys Data) ->
  Forall (fun kv => (0 < nrows (snd kv))%nat) Data ->
  remove_moored Data
  = Ok (filter (fun kv => passes moored_or_anchor (snd kv) && passes never_moved (snd kv))
               Data).
Proof.
  intros Hnd Hrows. unfold remove_moored.
  rewrite (DictFacts.pop_for_try_all _
             (fun b => negb (passes moored_or_anchor b && passes never_moved b)) Data Hnd).
  - f_equal. apply filter_ext. intros kv. apply negb_involutive.
  - intros [k b] Hin. rewrite Forall_forall in Hrows. specialize (Hrows _ Hin).
    simpl in *. unfold passes.
    rewrite (moored_or_anchor_rows b Hrows). cbn [bind].
    destruct (_ || _)%bool; [reflexivity|].
    destruct (never_moved_rows b Hrows) as (m & ->). destruct m; reflexivity.
Qed.

(** C1, as stated, fails on [half_and_half]: all of its 144 rows are
    moored or at anchor, in the column the filter reads and in the
    status column of the row layout alike, yet neither code alone
    exceeds 70% and the block passes every quality test. *)
Lemma moored_split_block_retained :
  nrows half_and_half = 144%nat
  /\ (7 # 10 < spec_moored_share NAV half_and_half)%Q
  /\ (7 # 10 < spec_moored_share NAV_OUT half_and_half)%Q
  /\ moored_or_anchor half_and_half = Ok false
  /\ (Data <- remove_moored [(0%nat, half_and_half)] ;; remove_low_speed Data)
     = Ok [(0%nat, half_and_half)].
Proof.
  split; [reflexivity|].
  split; [vm_compute; reflexivity|].
  split; [vm_compute; reflexivity|].
  split; vm_compute; reflexivity.
Qed.

(** C1 (amended): on a block with rows whose navigational status, the
    last of the nine fields of lines 168-172, is also what the filter
    reads in column [NAV], the test of lines 258-259 pops the block
    exactly when the messages of status 7 are strictly more than 70% of
    the block, or those of status 8 are: each code is counted on its
    own and the two shares are not added; a block at exactly 70% is
    kept by this test. The loop of lines 255-264 keeps, in order, the
    blocks that pass this test and whose top speed is at least one
    knot. *)
Theorem moored_or_anchor_spec (block : ndarray) :
  (0 < nrows block)%nat ->
  column NAV block = column NAV_OUT block ->
  let n := Z.of_nat (nrows block) in
  let count code :=
    Z.of_nat (count_nonzero (map (fun x => Qeq_bool x code) (column NAV_OUT block))) in
  exists moored,
    moored_or_anchor block = Ok moored
    /\ (moored = true <-> 7 * n < 10 * count 7%Q \/ 7 * n < 10 * count 8%Q)
    /\ (10 * count 7%Q <= 7 * n -> 10 * count 8%Q <= 7 * n -> moored = false)
    /\ (forall Data, NoDup (keys Data) ->
          Forall (fun kv => (0 < nrows (snd kv))%nat) Data ->
          remove_moored Data
          = Ok (filter (fun kv => passes moored_or_anchor (snd kv)
                                  && passes never_moved (snd kv)) Data)).
Proof.
  intros Hn Hstatus n count.
  eexists. split; [apply (moored_or_anchor_rows block Hn)|].
  cbv zeta. rewrite Hstatus.
  assert (Hiff : Qltb (7 # 10)
                   (inject_Z (Z.of_nat (count_nonzero
                      (map (fun x => Qeq_bool x 7) (column NAV_OUT block))))
                    / inject_Z (Z.of_nat (nrows block)))
                 || Qltb (7 # 10)
                      (inject_Z (Z.of_nat (count_nonzero
                         (map (fun x => Qeq_bool x 8) (column NAV_OUT block))))
                       / inject_Z (Z.of_nat (nrows block))) = true
                 <-> 7 * n < 10 * count 7%Q \/ 7 * n < 10 * count 8%Q).
  { rewrite orb_true_iff.
    rewrite !share_exceeds; [reflexivity| |];
      (eapply Nat.le_trans; [apply count_nonzero_le|]);
      unfold column, nrows; rewrite !length_map; auto. }
  split; [exact Hiff|]. split.
  - intros H7 H8. apply not_true_is_false. intros E.
    apply Hiff in E. lia.
  - apply remove_moored_rows.
Qed.

Lemma moored_or_anchor_spec_witness :
  (0 < nrows half_and_half)%nat
  /\ column NAV half_and_half = column NAV_OUT half_and_half
  /\ exists moored,
      moored_or_anchor half_and_half = Ok moored
      /\ (moored = true <->
          7 * 144 < 10 * Z.of_nat (count_nonzero
                                     (map (fun x => Qeq_bool x 7)
                                          (column NAV_OUT half_and_half)))
          \/ 7 * 144 < 10 * Z.of_nat (count_nonzero
                                        (map (fun x => Qeq_bool x 8)
                                             (column NAV_OUT half_and_half)))).
Proof.
  assert (Hn : (0 < nrows half_and_half)%nat) by (vm_compute; lia).
  assert (Hs : column NAV half_and_half = column NAV_OUT half_and_half)
    by (vm_compute; reflexivity).
  split; [exact Hn|]. split; [exact Hs|].
  destruct (moored_or_anchor_spec half_and_half Hn Hs) as (moored & H1 & H2 & _).
  exists moored. split; [exact H1 | exact H2].
Defined.

(** The filter reads column 5, where the rows of lines 168-172 hold
    the rate of turn: a block of 144 moored messages, status 7 in the
    last field and a rate of turn of 0, is kept by the test. *)
Example moored_status_unread :
  let block := mkarr 9 (repeat [0; 0; 10; 0; 0; 0; 0; 1234; 7]%Q 144) in
  (7 # 10 < spec_moored_share NAV_OUT block)%Q
  /\ moored_or_anchor block = Ok false.
Proof. split; vm_compute; reflexivity. Qed.

End QualityFacts.

(** ** Stage 4: sampling *)

Module RangeFacts.

(** [range(a, b, step)] is the arithmetic progression from [a] by
    [step] that stops before [b]. *)
Lemma py_range_spec (a b step : Z) :
  0 < step ->
  let r := py_range a b step in
  (forall k, (k < length r)%nat -> nth k r 0 = a + step * Z.of_nat k)
  /\ (forall t, In t r -> a <= t < b)
  /\ (a < b -> b <= a + step * Z.of_nat (length r))
  /\ (b <= a -> r = []).
Proof.
  intros Hstep r. unfold r, py_range.
  set (m := (b - a + step - 1) / step).
  assert (Hm1 : step * m <= b - a + step - 1).
  { apply Z.mul_div_le. exact Hstep. }
  assert (Hm2 : b - a + step - 1 < step * (m + 1)).
  { replace (step * (m + 1)) with (step * m + step) by ring.
    pose proof (Z.mod_pos_bound (b - a + step - 1) step Hstep) as Hmod.
    pose proof (Z.div_mod (b - a + step - 1) step ltac:(lia)) as Hdm.
    fold m in Hdm. lia. }
  rewrite length_map, length_seq.
  split; [|split; [|split]].
  - intros k Hk.
    rewrite (nth_map_lt _ _ _ 0%nat) by (rewrite length_seq; exact Hk).
    rewrite seq_nth by exact Hk. reflexivity.
  - intros t Hin. apply in_map_iff in Hin as (k & <- & Hk). apply in_seq in Hk.
    assert (Z.of_nat k < m) by lia. nia.
  - intros Hab. assert (0 <= m) by (apply Z.div_pos; lia).
    rewrite Z2Nat.id by lia. nia.
  - intros Hba. assert (m <= 0).
    { destruct (Z_le_gt_dec m 0); auto. nia. }
    replace (Z.to_nat m) with 0%nat by lia. reflexivity.
Qed.

End RangeFacts.

Section SamplingFacts.

Variable geod_inv : Q -> Q -> Q -> Q -> option (Q * Q * Q).
Variable geod_fwd : Q -> Q -> Q -> Q -> option (Q * Q * Q).
Variables HEADING ROT NAV_STT : option nat.

Local Abbreviation interp := (interpolate_ geod_inv geod_fwd HEADING ROT NAV_STT).
Local Abbreviation sample := (sample_voyage geod_inv geod_fwd HEADING ROT NAV_STT).
Local Abbreviation sample_for := (sampling_for geod_inv geod_fwd HEADING ROT NAV_STT).

(** The row [interpolate_] returns has nine fields. *)
Lemma interpolate_row_length (t : Q) (v : ndarray) (r : row) :
  (MMSI < ncols v)%nat -> interp t v = Ok (Some r) -> length r = 9%nat.
Proof.
  intros Hcols H.
  destruct (interpolate_cases geod_inv geod_fwd HEADING ROT NAV_STT t v Hcols)
    as [Hnone | (apos & bpos & vals & _ & _ & _ & Hres)].
  - rewrite Hnone in H. discriminate.
  - rewrite Hres in H. injection H as <-.
    destruct vals as [[[[[[lat lon] speed] course] heading] rot] nav]. reflexivity.
Qed.

(** The loop over the targets, started on [np.empty((0, 8))] or on any
    array of eight columns: an unavailable first target drops the
    voyage, an available one cannot be stacked. *)
Lemma sampling_for_cases (v : ndarray) (targets : list Z) (acc : ndarray) :
  (MMSI < ncols v)%nat -> ncols acc = 8%nat ->
  match targets with
  | [] => sample_for v targets acc = Ok (Some acc)
  | t :: _ =>
      (interp (inject_Z t) v = Ok None /\ sample_for v targets acc = Ok None)
      \/ ((exists r, interp (inject_Z t) v = Ok (Some r))
          /\ sample_for v targets acc = Raise ValueError)
  end.
Proof.
  intros Hcols Hacc. destruct targets as [|t rest]; [reflexivity|].
  simpl.
  destruct (proj1 (interpolate_outcomes geod_inv geod_fwd HEADING ROT NAV_STT
                     (inject_Z t) v Hcols)) as ([r|] & Hr).
  - right. split; [eauto|]. rewrite Hr. simpl.
    unfold vstack. rewrite (interpolate_row_length _ _ _ Hcols Hr), Hacc. reflexivity.
  - left. rewrite Hr. auto.
Qed.

Lemma walk_ok (v : ndarray) :
  (MMSI < ncols v)%nat -> (0 < nrows v)%nat ->
  walk v = Ok (py_range (py_int (col TIMESTAMP (hd [] (rows v))))
                        (py_int (col TIMESTAMP (last (rows v) [])))
                        resolution).
Proof.
  intros Hcols Hrows. unfold walk, item_last, MMSI in *.
  destruct (nrows v) as [|m] eqn:Hn; [lia|].
  rewrite !item_in_range by (rewrite ?Hn; unfold TIMESTAMP; lia).
  simpl bind. do 3 f_equal.
  - unfold nrows in Hn. destruct (rows v); [discriminate | reflexivity].
  - unfold nrows in Hn. f_equal.
    destruct (rows v) as [|r0 l] using rev_ind; [discriminate|].
    rewrite length_app in Hn. simpl in Hn.
    rewrite last_last, app_nth2 by lia.
    replace (m - length l)%nat with 0%nat by lia. reflexivity.
Qed.

End SamplingFacts.

(** ** Stage 3: faults are caught voyage by voyage *)

Lemma while_loop_length A n : forall fuel b o o',
  Koyak.while_loop fuel A n b o = Ok o' -> length o = n -> length o' = n.
Proof.
  induction fuel as [|fuel IH]; intros b o o' H Hlen; simpl in H; [discriminate|].
  destruct (Koyak.np_max b) as [m| |]; simpl in H; try discriminate.
  destruct (0 <? m).
  - eapply IH; [exact H|]. rewrite length_upd. exact Hlen.
  - injection H as <-. exact Hlen.
Qed.

Lemma trackOutlier_length (A : Koyak.matrix) (o : list bool) :
  Koyak.trackOutlier A = Ok o -> length o = length A.
Proof.
  unfold Koyak.trackOutlier, Koyak.trackOutlier_fuel.
  destruct (Koyak.symmetricb A); cbn [negb]; [|discriminate].
  destruct (Koyak.binaryb A); cbn [negb]; [|discriminate].
  intros H. eapply while_loop_length; [exact H|]. apply repeat_length.
Qed.

Lemma select_map {A B} (f : A -> B) (mask : list bool) (l : list A) :
  select mask (map f l) = map f (select mask l).
Proof.
  revert l; induction mask as [|b m IH]; intros [|x l]; simpl; auto;
    destruct b; simpl; auto.
  f_equal. apply IH.
Qed.

Section AnomalyFacts.
Import Koyak MatrixFacts DictFacts.

Variable geod_inv : Q -> Q -> Q -> Q -> option (Q * Q * Q).

Lemma sized_assign n (f g : nat -> nat) (x : Z) (idx : list nat) : forall A,
  sized n A -> sized n (fold_left (fun M k => set_entry M (f k) (g k) x) idx A).
Proof.
  induction idx as [|k idx IH]; intros A Hs; simpl; auto.
  apply IH. apply sized_set_entry. exact Hs.
Qed.

Lemma inv_each_halts pts : inv_each geod_inv pts <> Diverge.
Proof.
  induction pts as [|[[lon1 lat1] [lon2 lat2]] pts IH]; simpl; [discriminate|].
  destruct (geod_inv lon1 lat1 lon2 lat2) as [[[az baz] d]|]; simpl; [|discriminate].
  destruct (inv_each geod_inv pts); simpl; congruence.
Qed.

Lemma diagonal_cases track speed_max A i n :
  sized n A ->
  (exists e, diagonal geod_inv track speed_max A i = Raise e)
  \/ (exists A', diagonal geod_inv track speed_max A i = Ok A' /\ sized n A').
Proof.
  intros Hs. unfold diagonal, geod_inv_vec.
  destruct (_ && _)%bool; [|left; eexists; reflexivity].
  destruct (inv_each geod_inv _) as [d|e|] eqn:E; simpl.
  - right. eexists. split; [reflexivity|]. do 2 apply sized_assign. exact Hs.
  - left. eexists; reflexivity.
  - exfalso. eapply inv_each_halts; eauto.
Qed.

Lemma diagonals_cases track speed_max n lags : forall A,
  sized n A ->
  (exists e, diagonals geod_inv track speed_max A lags = Raise e)
  \/ (exists A', diagonals geod_inv track speed_max A lags = Ok A' /\ sized n A').
Proof.
  induction lags as [|i lags IH]; intros A Hs; simpl.
  - right. eauto.
  - destruct (diagonal_cases track speed_max A i n Hs) as [(e & ->) | (A1 & -> & Hs1)];
      simpl; [left; eexists; reflexivity | apply IH; exact Hs1].
Qed.

(** Every way out of the [try] body: the voyage is popped, kept with
    at least one row and its columns, or a fault is raised. *)
Lemma anomaly_try_cases (v : ndarray) :
  anomaly_try geod_inv v = Ok None
  \/ (exists e, anomaly_try geod_inv v = Raise e)
  \/ (exists v', anomaly_try geod_inv v = Ok (Some v')
                 /\ ncols v' = ncols v /\ (0 < nrows v')%nat).
Proof.
  unfold anomaly_try, detectOutlier.
  set (track := map _ (rows v)).
  set (o_report := map (fun r => Qltb 30 (col 3 r)) track).
  destruct (all o_report) eqn:Hall.
  { left. cbn [bind]. rewrite Hall. reflexivity. }
  unfold anomaly_matrix.
  match goal with
  | |- context [diagonals geod_inv ?t ?s ?z ?l] =>
      destruct (diagonals_cases t s (length t) l z (sized_zeros _))
        as [(e & HA) | (A & HA & Hs)]; rewrite HA; cbn [bind]
  end.
  - right. left. eauto.
  - destruct (trackOutlier A) as [o|e|] eqn:Ho; cbn [bind].
    + rewrite Hall. cbn [bind all_method].
      destruct (all o) eqn:Ho_all; cbn [bind np_invert]; [left; reflexivity|].
      right. right. eexists. split; [reflexivity|]. split; [reflexivity|].
      unfold nrows. cbn [rows].
      assert (Hne : select (map negb o) (select (map negb o_report) (rows v)) <> []).
      { apply select_all_false; [|exact Ho_all].
        rewrite (trackOutlier_length A o Ho). destruct Hs as [-> _].
        unfold track. rewrite select_map, length_map. reflexivity. }
      destruct (select (map negb o) _); [congruence | simpl; lia].
    + right. left. eauto.
    + exfalso. eapply KoyakFacts.trackOutlier_no_diverge; eauto.
Qed.

Lemma anomaly_for_spec (d2 : dict ndarray) : forall d1 count,
  NoDup (keys (d1 ++ d2)) ->
  anomaly_for geod_inv (keys d2) (d1 ++ d2) count
  = Ok (d1 ++ flat_map (cleaned_entry geod_inv) d2,
        (count + length (filter (faulted geod_inv) d2))%nat).
Proof.
  induction d2 as [|[k v] d2 IH]; intros d1 count Hnd; simpl.
  - rewrite app_nil_r, Nat.add_0_r. reflexivity.
  - assert (Hfresh : ~ In k (keys d1)).
    { rewrite keys_app in Hnd. simpl in Hnd.
      apply NoDup_remove_2 in Hnd. rewrite in_app_iff in Hnd. tauto. }
    assert (Hnd' : NoDup (keys (d1 ++ d2))).
    { rewrite keys_app in *. simpl in Hnd. apply NoDup_remove_1 in Hnd. exact Hnd. }
    rewrite lookup_app_fresh by exact Hfresh. simpl. rewrite Nat.eqb_refl.
    unfold cleaned_entry at 1, faulted at 1. simpl.
    destruct (anomaly_try_cases v) as [H | [(e & H) | (v' & H & _)]]; rewrite H.
    + rewrite pop_here by exact Hnd. apply IH. exact Hnd'.
    + rewrite pop_here by exact Hnd. rewrite IH by exact Hnd'.
      simpl. do 2 f_equal. lia.
    + rewrite assign_here by exact Hfresh.
      replace (d1 ++ (k, v') :: d2) with ((d1 ++ [(k, v')]) ++ d2)
        by (rewrite <- app_assoc; reflexivity).
      rewrite IH.
      * rewrite <- app_assoc. reflexivity.
      * rewrite <- app_assoc. rewrite keys_app in *. simpl in *. exact Hnd.
Qed.

End AnomalyFacts.

(** ** The whole script *)

Section PipelineFacts.
Import DictFacts.

Variable geod_inv : Q -> Q -> Q -> Q -> option (Q * Q * Q).
Variable geod_fwd : Q -> Q -> Q -> Q -> option (Q * Q * Q).
Variables HEADING ROT NAV_STT : option nat.

(** The script as written: a name read by [interpolate_] is unbound. *)
Hypothesis unbound : HEADING = None \/ ROT = None \/ NAV_STT = None.

Lemma sample_voyage_unbound (v : ndarray) :
  (MMSI < ncols v)%nat -> (0 < nrows v)%nat ->
  sample_voyage geod_inv geod_fwd HEADING ROT NAV_STT v = Ok None
  \/ sample_voyage geod_inv geod_fwd HEADING ROT NAV_STT v = Ok (Some (np_empty 0 8)).
Proof.
  intros Hcols Hrows. unfold sample_voyage.
  rewrite (walk_ok v Hcols Hrows). simpl bind.
  set (targets := py_range _ _ _).
  pose proof (sampling_for_cases geod_inv geod_fwd HEADING ROT NAV_STT
                v targets (np_empty 0 8) Hcols eq_refl) as Hcases.
  destruct targets as [|t rest]; [right; exact Hcases|].
  destruct Hcases as [[_ H] | [(r & Hr) _]]; [left; exact H|].
  rewrite (proj1 (proj2 (proj2 (proj2 (interpolate_outcomes
             geod_inv geod_fwd HEADING ROT NAV_STT (inject_Z t) v Hcols)))) unbound) in Hr.
  discriminate.
Qed.

Lemma sampling_total (vs : list ndarray) : forall Vs count,
  (forall v, In v vs -> (MMSI < ncols v)%nat /\ (0 < nrows v)%nat) ->
  exists Vs' count',
    sampling geod_inv geod_fwd HEADING ROT NAV_STT vs Vs count = Ok (Vs', count').
Proof.
  induction vs as [|v vs IH]; intros Vs count Hvs; simpl.
  - eauto.
  - destruct (Hvs v (or_introl eq_refl)) as [Hcols Hrows].
    destruct (sample_voyage_unbound v Hcols Hrows) as [-> | ->]; simpl;
      apply IH; intros v' Hv'; apply Hvs; right; exact Hv'.
Qed.

Lemma segment_ncols (v p : ndarray) : In p (segment v) -> ncols p = ncols v.
Proof.
  unfold segment. destruct (0 <? nrows v)%nat; [|intros []].
  destruct (length (gaps v) =? 0)%nat.
  - intros [<-|[]]. reflexivity.
  - intros Hin. apply in_map_iff in Hin as (l & <- & _). reflexivity.
Qed.

(** After stages 1 to 3 every voyage has rows and the input columns. *)
Lemma cleaned_voyages (traj_data : list ndarray) (v' : ndarray) :
  (forall v, In v traj_data -> (MMSI < ncols v)%nat) ->
  In v' (map snd (flat_map (cleaned_entry geod_inv)
                           (remove_short (fst (segmentation traj_data [] 0%nat))))) ->
  (MMSI < ncols v')%nat /\ (0 < nrows v')%nat.
Proof.
  intros Hin Hv'.
  pose proof (store_pieces_empty segment traj_data) as (Hvals & _ & Hnd).
  fold (segmentation traj_data [] 0%nat) in Hvals, Hnd.
  unfold remove_short in Hv'. rewrite pop_for_all in Hv' by exact Hnd.
  apply in_map_iff in Hv' as ([k w] & <- & Hkw). simpl.
  apply in_flat_map in Hkw as ([k0 v] & Hkv & Hc).
  apply filter_In in Hkv as [Hkv _].
  assert (Hv : In v (flat_map segment traj_data)).
  { rewrite <- Hvals. apply in_map_iff. exists (k0, v). auto. }
  apply in_flat_map in Hv as (v0 & Hv0 & Hseg).
  unfold cleaned_entry in Hc. simpl in Hc.
  destruct (anomaly_try_cases geod_inv v) as [H | [(e & H) | (v1 & H & Hc1 & Hr1)]];
    rewrite H in Hc.
  - destruct Hc.
  - destruct Hc.
  - destruct Hc as [Hc|[]]. injection Hc as _ <-.
    rewrite Hc1, (segment_ncols v0 v Hseg). auto.
Qed.

End PipelineFacts.

(** ** The script on concrete tracks *)

Lemma steady_voyage_columns :
  forall v, In v [steady_voyage] -> (MMSI < ncols v)%nat.
Proof. intros v [<-|[]]. unfold MMSI. simpl. lia. Qed.

(** The steady voyage passes stages 1 to 3 untouched; its first target
    has no interpolation while the three names are unbound, so the
    script ends without blocks and without counted faults. *)
Example pipeline_steady_voyage :
  remove_anomalies flat_inv (remove_short (fst (segmentation [steady_voyage] [] 0%nat)))
  = Ok ([(0%nat, steady_voyage)], 0%nat)
  /\ pipeline flat_inv flat_fwd None None None [steady_voyage] = Ok ([], 0%nat).
Proof. split; vm_compute; reflexivity. Qed.

(** With the three names bound to columns of the input, the first
    target is interpolated and its nine fields do not stack on the
    eight columns of [np.empty((0, 8))]. *)
Example sample_steady_voyage_bound :
  sample_voyage flat_inv flat_fwd (Some 4%nat) (Some 5%nat) (Some 5%nat) steady_voyage
  = Raise ValueError.
Proof. vm_compute. reflexivity. Qed.

(** ** Tracks of two or three rows *)

Section ShortTracks.
Import Koyak MatrixFacts.

Variable geod_inv : Q -> Q -> Q -> Q -> option (Q * Q * Q).
Variable dist : Q -> Q -> Q -> Q -> Q.
Hypothesis geod_inv_dist : forall lon1 lat1 lon2 lat2,
  exists az baz, geod_inv lon1 lat1 lon2 lat2 = Some (az, baz, dist lon1 lat1 lon2 lat2).

(** A lag between the length of the track and twice that length gives
    [track[:N-i]] rows and [track[i:]] none: the buffers handed to
    [geod.inv] differ in length. *)
Lemma diagonal_mismatch (track : list row) (speed_max : Q) (A : matrix) (i : nat) :
  (length track < i)%nat -> (i < 2 * length track)%nat ->
  diagonal geod_inv track speed_max A i = Raise GeodError.
Proof.
  intros H1 H2. unfold diagonal, geod_inv_vec, slice_to.
  destruct (0 <=? Z.of_nat (length track) - Z.of_nat i) eqn:E;
    [apply Z.leb_le in E; lia|].
  rewrite !length_map, length_firstn, length_skipn.
  replace (length track - i)%nat with 0%nat by lia.
  rewrite Nat.eqb_refl.
  destruct (Nat.eqb_spec (Nat.min (Z.to_nat (Z.of_nat (length track)
                            + (Z.of_nat (length track) - Z.of_nat i))) (length track)) 0);
    [lia | reflexivity].
Qed.

(** When two or three messages are left after the reported-speed test,
    the loop over lags faults: the caller's [except] pops the voyage
    and counts it. *)
Lemma anomaly_matrix_short_track (track : list row) (speed_max : Q) :
  (length track = 2 \/ length track = 3)%nat ->
  anomaly_matrix geod_inv track speed_max = Raise GeodError.
Proof.
  intros HN. unfold anomaly_matrix. simpl seq. cbn [diagonals].
  destruct (diagonal_spec geod_inv dist geod_inv_dist track speed_max 1
              (zeros (length track)) ltac:(lia) (sized_zeros _)) as (A1 & -> & Hs1 & _).
  cbn [bind].
  destruct (diagonal_spec geod_inv dist geod_inv_dist track speed_max 2 A1
              ltac:(lia) Hs1) as (A2 & -> & Hs2 & _).
  cbn [bind].
  destruct HN as [HN|HN].
  - rewrite diagonal_mismatch by lia. reflexivity.
  - destruct (diagonal_spec geod_inv dist geod_inv_dist track speed_max 3 A2
                ltac:(lia) Hs2) as (A3 & -> & Hs3 & _).
    cbn [bind]. rewrite diagonal_mismatch by lia. reflexivity.
Qed.

End ShortTracks.

(** ** The 70% boundary of the moored test *)

(** Seven moored rows out of ten are kept by the test, eight are not. *)
Example moored_boundary :
  moored_or_anchor
    (mkarr 9 (repeat [0; 0; 10; 0; 0; 7; 0; 1234; 7]%Q 7
              ++ repeat [0; 0; 10; 0; 0; 0; 0; 1234; 0]%Q 3)) = Ok false
  /\ moored_or_anchor
       (mkarr 9 (repeat [0; 0; 10; 0; 0; 7; 0; 1234; 7]%Q 8
                 ++ repeat [0; 0; 10; 0; 0; 0; 0; 1234; 0]%Q 2)) = Ok true.
Proof. split; vm_compute; reflexivity. Qed.

(** * Further properties of the script *)

(** ** What the selection of [trackOutlier] guarantees *)

Module KoyakCover.
Import Koyak.

Lemma symmetricb_elim (A : matrix) :
  symmetricb A = true ->
  forall r c, (r < length A)%nat -> (c < length A)%nat -> entry A c r = entry A r c.
Proof.
  unfold symmetricb. intros H r c Hr Hc.
  rewrite forallb_forall in H.
  specialize (H r ltac:(apply in_seq; lia)).
  rewrite forallb_forall in H.
  specialize (H c ltac:(apply in_seq; lia)).
  apply Z.eqb_eq. exact H.
Qed.

Lemma binaryb_elim (A : matrix) :
  square A -> binaryb A = true ->
  forall r c, (r < length A)%nat -> (c < length A)%nat ->
              entry A r c = 0 \/ entry A r c = 1.
Proof.
  unfold square, binaryb, entry. intros Hsq H r c Hr Hc.
  rewrite forallb_forall in H. rewrite Forall_forall in Hsq.
  assert (Hrow : In (nth r A []) A) by (apply nth_In; exact Hr).
  specialize (H _ Hrow). rewrite forallb_forall in H.
  assert (Hx : In (nth c (nth r A []) 0) (nth r A [])).
  { apply nth_In. rewrite (Hsq _ Hrow). exact Hc. }
  specialize (H _ Hx). apply orb_true_iff in H.
  destruct H as [H|H]; apply Z.eqb_eq in H; auto.
Qed.

Lemma live_row_all_false (row : list Z) :
  live_row row (repeat false (length row)) = fold_right Z.add 0 row.
Proof.
  unfold live_row, map2. induction row as [|x row IH]; simpl; auto.
  rewrite IH. reflexivity.
Qed.

Lemma live_row_mark (row : list Z) : forall (o : list bool) (r : nat),
  (r < length row)%nat -> (r < length o)%nat -> nth r o false = false ->
  live_row row (upd r true o) = live_row row o - nth r row 0.
Proof.
  unfold live_row, map2.
  induction row as [|x row IH]; intros [|m o] [|r] Hr Ho Hm; simpl in *; try lia.
  - subst m. lia.
  - rewrite IH by (auto; lia). destruct m; lia.
Qed.

Lemma live_row_nonneg (row : list Z) : forall (o : list bool),
  (forall x, In x row -> 0 <= x) -> 0 <= live_row row o.
Proof.
  unfold live_row, map2.
  induction row as [|x row IH]; intros [|m o] Hpos; simpl; try lia.
  assert (0 <= x) by (apply Hpos; left; reflexivity).
  specialize (IH o (fun z Hz => Hpos z (or_intror Hz))).
  destruct m; lia.
Qed.

Lemma live_row_zero (row : list Z) : forall (o : list bool),
  (forall x, In x row -> 0 <= x) -> live_row row o <= 0 ->
  forall k, (k < length row)%nat -> (k < length o)%nat ->
            nth k o false = false -> nth k row 0 = 0.
Proof.
  induction row as [|x row IH]; intros [|m o] Hpos Hle [|k] Hk Ho Hm;
    simpl in *; try lia.
  - subst m.
    assert (0 <= x) by (apply Hpos; auto).
    pose proof (live_row_nonneg row o (fun z Hz => Hpos z (or_intror Hz))) as Hrest.
    unfold live_row, map2 in *. simpl in Hle. lia.
  - pose proof (live_row_nonneg row o (fun z Hz => Hpos z (or_intror Hz))) as Hrest.
    apply (IH o); auto; try lia.
    assert (0 <= (if m then 0 else x)).
    { destruct m; [lia | apply Hpos; auto]. }
    unfold live_row, map2 in *. simpl in Hle. lia.
Qed.

Lemma live_row_positive (row : list Z) : forall (o : list bool),
  0 < live_row row o -> exists k, (k < length row)%nat /\ nth k row 0 <> 0.
Proof.
  unfold live_row, map2.
  induction row as [|x row IH]; intros [|m o] H; simpl in *; try lia.
  destruct (Z.eq_dec x 0) as [->|Hx].
  - destruct (IH o) as (k & Hk & Hn); [destruct m; lia|].
    exists (S k). split; [lia | exact Hn].
  - exists 0%nat. split; [lia | exact Hx].
Qed.

Lemma decrement_other A r o b j j' :
  j' <> j -> nth j (decrement A r o b j') 0 = nth j b 0.
Proof.
  intros H. unfold decrement. destruct (nth j' o false); auto.
  apply nth_upd_ne. exact H.
Qed.

Lemma fold_decrement_outside A r o j (len : nat) : forall s b,
  (j < s \/ s + len <= j)%nat ->
  nth j (fold_left (decrement A r o) (seq s len) b) 0 = nth j b 0.
Proof.
  induction len as [|len IH]; intros s b H; simpl; auto.
  rewrite IH by lia. apply decrement_other. lia.
Qed.

Lemma fold_decrement_inside A r o j (len : nat) : forall s b,
  (s <= j)%nat -> (j < s + len)%nat -> (j < length b)%nat ->
  nth j o false = false ->
  nth j (fold_left (decrement A r o) (seq s len) b) 0 = nth j b 0 - entry A r j.
Proof.
  induction len as [|len IH]; intros s b Hs Hj Hb Ho; simpl; [lia|].
  destruct (Nat.eq_dec s j) as [->|Hne].
  - rewrite fold_decrement_outside by lia.
    unfold decrement. rewrite Ho. apply nth_upd_eq. exact Hb.
  - rewrite IH; try lia; auto.
    + rewrite decrement_other by exact Hne. reflexivity.
    + rewrite KoyakFacts.decrement_length. exact Hb.
Qed.

Section Loop.

Variable A : matrix.
Let n := length A.
Hypothesis A_square : square A.
Hypothesis A_symmetric : symmetricb A = true.
Hypothesis A_binary : binaryb A = true.

Lemma row_length j : (j < n)%nat -> length (nth j A []) = n.
Proof.
  intros Hj. unfold square in A_square. rewrite Forall_forall in A_square.
  apply A_square. apply nth_In. exact Hj.
Qed.

Lemma row_nonneg j : (j < n)%nat -> forall x, In x (nth j A []) -> 0 <= x.
Proof.
  intros Hj x Hx. destruct (In_nth _ _ 0 Hx) as (c & Hc & <-).
  rewrite row_length in Hc by exact Hj.
  destruct (binaryb_elim A A_square A_binary j c Hj Hc) as [E|E];
    unfold entry in E; rewrite E; lia.
Qed.

Lemma scores_live_init : scores_live A n (row_sums A) (repeat false n).
Proof.
  unfold scores_live, row_sums. rewrite length_map, repeat_length.
  repeat split; auto. intros j Hj.
  rewrite nth_repeat_lt by exact Hj.
  rewrite (nth_map_lt _ _ _ []) by exact Hj.
  unfold live_score. rewrite <- (live_row_all_false (nth j A [])).
  rewrite (row_length j Hj). reflexivity.
Qed.

Lemma scores_live_step b o m :
  scores_live A n b o -> marked_anomalous A n o ->
  np_max b = Ok m -> 0 < m ->
  let r := argmax b in
  scores_live A n (inner_for A r n (upd r true o) (upd r 0 b)) (upd r true o)
  /\ marked_anomalous A n (upd r true o).
Proof.
  intros (Hb & Ho & Hscore) Hmarked Hm Hpos r.
  destruct (KoyakFacts.argmax_spec b m Hm) as (Hr & Hv & _). fold r in Hr, Hv.
  rewrite Hb in Hr.
  assert (Hfresh : nth r o false = false).
  { destruct (nth r o false) eqn:E; auto.
    pose proof (Hscore r Hr) as Hs. rewrite E in Hs. lia. }
  assert (Hlive : live_score A o r = m).
  { pose proof (Hscore r Hr) as Hs. rewrite Hfresh in Hs. lia. }
  split.
  - unfold scores_live, inner_for.
    rewrite KoyakFacts.inner_for_length, !length_upd.
    split; [exact Hb|]. split; [exact Ho|].
    intros j Hj.
    destruct (nth j (upd r true o) false) eqn:Ej.
    + rewrite KoyakFacts.inner_for_marked by exact Ej.
      destruct (Nat.eq_dec r j) as [<-|Hne].
      * apply nth_upd_eq. lia.
      * rewrite nth_upd_ne by exact Hne. rewrite nth_upd_ne in Ej by exact Hne.
        pose proof (Hscore j Hj) as Hs. rewrite Ej in Hs. exact Hs.
    + assert (Hne : r <> j).
      { intros <-. rewrite nth_upd_eq in Ej by lia. discriminate. }
      rewrite fold_decrement_inside; try lia; auto;
        [|rewrite length_upd; lia].
      rewrite nth_upd_ne by exact Hne. rewrite nth_upd_ne in Ej by exact Hne.
      pose proof (Hscore j Hj) as Hs. rewrite Ej in Hs. rewrite Hs.
      unfold live_score.
      rewrite live_row_mark; [|rewrite row_length; lia | lia | exact Hfresh].
      change (nth r (nth j A []) 0) with (entry A j r).
      rewrite (symmetricb_elim A A_symmetric r j Hr Hj). reflexivity.
  - intros j Hj Hmark.
    destruct (Nat.eq_dec r j) as [<-|Hne].
    + unfold live_score in Hlive.
      destruct (live_row_positive (nth r A []) o ltac:(lia)) as (k & Hk & Hnz).
      rewrite row_length in Hk by exact Hr.
      exists k. split; [exact Hk|].
      destruct (binaryb_elim A A_square A_binary r k Hr Hk) as [E|E];
        [unfold entry in E; congruence | exact E].
    + rewrite nth_upd_ne in Hmark by exact Hne. apply Hmarked; auto.
Qed.

(** At the end of the loop every anomalous pair has a marked member,
    and only observations with an anomaly are marked. *)
Lemma while_loop_cover : forall fuel b o o',
  scores_live A n b o -> marked_anomalous A n o ->
  while_loop fuel A n b o = Ok o' ->
  length o' = n
  /\ marked_anomalous A n o'
  /\ forall r s, (r < n)%nat -> (s < n)%nat -> entry A r s = 1 ->
                 nth r o' false = true \/ nth s o' false = true.
Proof.
  induction fuel as [|fuel IH]; intros b o o' Hlive Hmarked H; simpl in H;
    [discriminate|].
  destruct (np_max b) as [m| |] eqn:Hm; simpl in H; try discriminate.
  destruct (0 <? m) eqn:Hpos.
  - apply Z.ltb_lt in Hpos.
    destruct (scores_live_step b o m Hlive Hmarked Hm Hpos) as [Hlive' Hmarked'].
    eapply IH; eauto.
  - apply Z.ltb_ge in Hpos. injection H as <-.
    destruct Hlive as (Hb & Ho & Hscore).
    split; [exact Ho|]. split; [exact Hmarked|].
    intros r s Hr Hs Hrs.
    destruct (nth r o false) eqn:Er; [left; reflexivity|].
    destruct (nth s o false) eqn:Es; [right; reflexivity|].
    exfalso.
    destruct (KoyakFacts.argmax_spec b m Hm) as (_ & _ & Hmax & _).
    pose proof (Hmax r ltac:(lia)) as Hbr.
    pose proof (Hscore r Hr) as Hsr. rewrite Er in Hsr.
    assert (Hz : nth s (nth r A []) 0 = 0).
    { apply (live_row_zero (nth r A []) o); auto.
      - apply row_nonneg. exact Hr.
      - unfold live_score in Hsr. lia.
      - rewrite row_length; lia.
      - lia. }
    unfold entry in Hrs. lia.
Qed.

Lemma trackOutlier_cover (o : list bool) :
  trackOutlier A = Ok o ->
  length o = n
  /\ marked_anomalous A n o
  /\ forall r s, (r < n)%nat -> (s < n)%nat -> entry A r s = 1 ->
                 nth r o false = true \/ nth s o false = true.
Proof.
  unfold trackOutlier, trackOutlier_fuel. rewrite A_symmetric, A_binary.
  cbn [negb]. intros H.
  apply (while_loop_cover _ _ _ _ scores_live_init) in H; auto.
  intros j Hj Hmark. rewrite nth_repeat_lt in Hmark by exact Hj. discriminate.
Qed.

End Loop.

Lemma trackOutlier_ok_asserts (A : matrix) (o : list bool) :
  trackOutlier A = Ok o -> symmetricb A = true /\ binaryb A = true.
Proof.
  unfold trackOutlier, trackOutlier_fuel.
  destruct (symmetricb A); cbn [negb]; [|discriminate].
  destruct (binaryb A); cbn [negb]; [auto | discriminate].
Qed.

(** X1: the vector returned by [trackOutlier] covers the anomaly
    relation: of two observations marked anomalous with each other in
    [A], at least one is an outlier, so the observations that are kept
    are pairwise free of anomalies. *)
Theorem trackOutlier_covers_pairs (A : matrix) (o : list bool) :
  square A -> trackOutlier A = Ok o ->
  length o = length A
  /\ forall r s, (r < length A)%nat -> (s < length A)%nat -> entry A r s = 1 ->
                 nth r o false = true \/ nth s o false = true.
Proof.
  intros Hsq H. destruct (trackOutlier_ok_asserts A o H) as [Hs Hb].
  destruct (trackOutlier_cover A Hsq Hs Hb o H) as (Hlen & _ & Hcover).
  auto.
Qed.

Lemma trackOutlier_covers_pairs_witness :
  square docstring_A
  /\ trackOutlier docstring_A = Ok [false; false; true; true; false]
  /\ forall r s, (r < 5)%nat -> (s < 5)%nat -> entry docstring_A r s = 1 ->
                 nth r [false; false; true; true; false] false = true
                 \/ nth s [false; false; true; true; false] false = true.
Proof.
  assert (Hsq : square docstring_A) by (repeat constructor).
  split; [exact Hsq|]. split; [reflexivity|].
  exact (proj2 (trackOutlier_covers_pairs docstring_A _ Hsq eq_refl)).
Defined.

(** X2: [trackOutlier] marks an observation only if its row of [A]
    has an anomaly: an observation anomalous with no other is never
    reported as an outlier. *)
Theorem trackOutlier_marks_anomalous_only (A : matrix) (o : list bool) :
  square A -> trackOutlier A = Ok o ->
  forall j, (j < length A)%nat -> nth j o false = true ->
            exists s, (s < length A)%nat /\ entry A j s = 1.
Proof.
  intros Hsq H. destruct (trackOutlier_ok_asserts A o H) as [Hs Hb].
  destruct (trackOutlier_cover A Hsq Hs Hb o H) as (_ & Hmarked & _).
  exact Hmarked.
Qed.

Lemma trackOutlier_marks_anomalous_only_witness :
  square docstring_A
  /\ trackOutlier docstring_A = Ok [false; false; true; true; false]
  /\ exists s, (s < 5)%nat /\ entry docstring_A 2 s = 1.
Proof.
  assert (Hsq : square docstring_A) by (repeat constructor).
  split; [exact Hsq|]. split; [reflexivity|].
  exact (trackOutlier_marks_anomalous_only docstring_A _ Hsq eq_refl 2%nat
           ltac:(simpl; lia) eq_refl).
Defined.

Lemma zeros_square n : square (zeros n).
Proof.
  unfold square, zeros. rewrite repeat_length.
  apply Forall_forall. intros row Hin. apply repeat_spec in Hin. subst.
  apply repeat_length.
Qed.

Lemma all_false_repeat (o : list bool) :
  (forall j, (j < length o)%nat -> nth j o false = false) ->
  o = repeat false (length o).
Proof.
  induction o as [|x o IH]; intros H; simpl; auto.
  pose proof (H 0%nat ltac:(simpl; lia)) as H0. simpl in H0. subst x.
  f_equal. apply IH. intros j Hj. apply (H (S j)). simpl. lia.
Qed.

(** A matrix without anomalies has no outlier. *)
Lemma trackOutlier_quiet (A : matrix) :
  square A -> (1 <= length A)%nat ->
  (forall r c, (r < length A)%nat -> (c < length A)%nat -> entry A r c = 0) ->
  trackOutlier A = Ok (repeat false (length A)).
Proof.
  intros Hsq Hn Hzero.
  assert (Hs : symmetricb A = true).
  { apply MatrixFacts.symmetricb_intro. intros r c Hr Hc.
    rewrite !Hzero by assumption. reflexivity. }
  assert (Hb : binaryb A = true).
  { apply (MatrixFacts.binaryb_intro (length A)); [split; [reflexivity | exact Hsq]|].
    intros r c Hr Hc. left. apply Hzero; assumption. }
  destruct (KoyakFacts.trackOutlier_fuel_enough A) as (o & Ho & Hol); auto.
  destruct (trackOutlier_cover A Hsq Hs Hb o Ho) as (_ & Hmarked & _).
  rewrite Ho. f_equal. rewrite <- Hol.
  apply all_false_repeat. intros j Hj.
  destruct (nth j o false) eqn:E; auto.
  destruct (Hmarked j ltac:(lia) E) as (s & Hs' & Hs1).
  rewrite Hzero in Hs1 by lia. discriminate.
Qed.

(** X3: on a matrix with rows and without anomalies the loop is never
    entered: [trackOutlier] returns [False] for every observation. *)
Theorem trackOutlier_no_anomalies (A : matrix) :
  square A -> (1 <= length A)%nat ->
  (forall r c, (r < length A)%nat -> (c < length A)%nat -> entry A r c = 0) ->
  trackOutlier A = Ok (repeat false (length A)).
Proof. exact (trackOutlier_quiet A). Qed.

Lemma trackOutlier_no_anomalies_witness :
  trackOutlier (zeros 3) = Ok [false; false; false].
Proof.
  apply (trackOutlier_no_anomalies (zeros 3)).
  - apply zeros_square.
  - simpl. lia.
  - intros r c _ _. apply MatrixFacts.entry_zeros.
Defined.

Ltac outcome_cases :=
  repeat match goal with
         | H : _ /\ _ |- _ => destruct H
         | H : _ \/ _ |- _ => destruct H
         | H : exists _, _ |- _ => destruct H
         end;
  try discriminate; try congruence; eauto.

(** X4: the three ways out of [trackOutlier] on a square matrix:
    [AssertionError] exactly when the matrix is not symmetric or not
    binary, [ValueError] exactly when it passes both assertions and has
    no row, and a vector in every other case. *)
Theorem trackOutlier_outcomes (A : matrix) :
  square A ->
  (trackOutlier A = Raise AssertionError
   <-> symmetricb A = false \/ binaryb A = false)
  /\ (trackOutlier A = Raise ValueError
      <-> symmetricb A = true /\ binaryb A = true /\ A = [])
  /\ ((exists o, trackOutlier A = Ok o)
      <-> symmetricb A = true /\ binaryb A = true /\ A <> []).
Proof.
  intros _.
  destruct (symmetricb A) eqn:Hs; [destruct (binaryb A) eqn:Hb|].
  - destruct A as [|row A'].
    + assert (E : trackOutlier [] = Raise ValueError) by reflexivity.
      rewrite E. repeat split; intros; outcome_cases.
    + destruct (KoyakFacts.trackOutlier_fuel_enough (row :: A'))
        as (o & Ho & _); auto; [simpl; lia|].
      rewrite Ho. repeat split; intros; outcome_cases.
  - assert (E : trackOutlier A = Raise AssertionError)
      by (unfold trackOutlier, trackOutlier_fuel; rewrite Hs, Hb; reflexivity).
    rewrite E. repeat split; intros; outcome_cases.
  - assert (E : trackOutlier A = Raise AssertionError)
      by (unfold trackOutlier, trackOutlier_fuel; rewrite Hs; reflexivity).
    rewrite E. repeat split; intros; outcome_cases.
Qed.

Lemma trackOutlier_outcomes_witness :
  square docstring_A
  /\ exists o, trackOutlier docstring_A = Ok o.
Proof.
  assert (Hsq : square docstring_A) by (repeat constructor).
  split; [exact Hsq|].
  apply (proj2 (proj2 (trackOutlier_outcomes docstring_A Hsq))).
  split; [reflexivity|]. split; [reflexivity | discriminate].
Defined.

End KoyakCover.

(** ** [detectOutlier] with a geodesic library that may fail *)

Section DetectAny.
Import Koyak MatrixFacts.

Variable geod_inv : Q -> Q -> Q -> Q -> option (Q * Q * Q).

Lemma inv_each_length pts : forall d,
  inv_each geod_inv pts = Ok d -> length d = length pts.
Proof.
  induction pts as [|[[lon1 lat1] [lon2 lat2]] pts IH]; intros d H; simpl in H.
  - injection H as <-. reflexivity.
  - destruct (geod_inv lon1 lat1 lon2 lat2) as [[[az baz] x]|]; simpl in H;
      [|discriminate].
    destruct (inv_each geod_inv pts) as [ds| |]; simpl in H; try discriminate.
    injection H as <-. simpl. f_equal. apply IH. reflexivity.
Qed.

Lemma inv_each_raises pts e : inv_each geod_inv pts = Raise e -> e = GeodError.
Proof.
  induction pts as [|[[lon1 lat1] [lon2 lat2]] pts IH]; intros H; simpl in H;
    [discriminate|].
  destruct (geod_inv lon1 lat1 lon2 lat2) as [[[az baz] x]|]; simpl in H;
    [|congruence].
  destruct (inv_each geod_inv pts) as [ds|e'|]; simpl in H; try discriminate.
  apply IH. congruence.
Qed.

(** The only fault of one pass is the library's. *)
Lemma diagonal_raises track speed_max A i e :
  diagonal geod_inv track speed_max A i = Raise e -> e = GeodError.
Proof.
  unfold diagonal, geod_inv_vec.
  destruct (_ && _)%bool; [|cbn [bind]; congruence].
  destruct (inv_each geod_inv _) as [d|e'|] eqn:E; cbn [bind]; try discriminate.
  intros H. injection H as <-. eapply inv_each_raises; eauto.
Qed.

(** One pass that returns has written ones at pairs [(k, k + i)] and
    [(k + i, k)] inside the matrix, and nothing else. *)
Lemma diagonal_any track speed_max A A' i :
  sized (length track) A ->
  diagonal geod_inv track speed_max A i = Ok A' ->
  sized (length track) A'
  /\ exists idx,
      (forall k, In k idx -> (k + i < length track)%nat)
      /\ forall r c,
          entry A' r c
          = if existsb (fun k => (k + i =? r) && (k =? c))%nat idx
               || existsb (fun k => (k =? r) && (k + i =? c))%nat idx
            then 1 else entry A r c.
Proof.
  intros Hs. unfold diagonal, geod_inv_vec.
  set (N := length track) in *.
  set (head := slice_to (Z.of_nat N - Z.of_nat i) track).
  set (tail := skipn i track).
  rewrite !length_map.
  destruct (((length head =? length head) && (length head =? length tail)
             && (length tail =? length tail))%nat) eqn:Hlens;
    [|cbn [bind]; discriminate].
  apply andb_true_iff in Hlens as [Hlens _].
  apply andb_true_iff in Hlens as [_ Hlens]. apply Nat.eqb_eq in Hlens.
  assert (Ht : length tail = (N - i)%nat) by (unfold tail; apply length_skipn).
  destruct (inv_each geod_inv _) as [d|e'|] eqn:E; cbn [bind]; try discriminate.
  apply inv_each_length in E.
  rewrite !length_combine, !length_map in E.
  set (cond := map2 _ _ d).
  assert (Hc : (length cond <= N - i)%nat).
  { unfold cond. rewrite !length_map2, !length_map. lia. }
  assert (Hidx : forall k, In k (nonzero cond) -> (k + i < N)%nat).
  { intros k Hk. apply nonzero_In in Hk as [Hk _]. lia. }
  destruct (entry_assign_ones N (fun k => k) (fun k => (k + i)%nat) (nonzero cond) A Hs)
    as [Hs1 He1].
  { intros k Hk. pose proof (Hidx k Hk). lia. }
  set (A1 := fold_left _ (nonzero cond) A) in *.
  destruct (entry_assign_ones N (fun k => (k + i)%nat) (fun k => k) (nonzero cond) A1 Hs1)
    as [Hs2 He2].
  { intros k Hk. pose proof (Hidx k Hk). lia. }
  intros H. injection H as <-.
  split; [exact Hs2|]. exists (nonzero cond). split; [exact Hidx|].
  intros r c. rewrite He2, He1.
  destruct (existsb (fun k => (k + i =? r) && (k =? c))%nat (nonzero cond));
    reflexivity.
Qed.

Lemma banded_zeros N : banded N (zeros N).
Proof.
  split; [apply sized_zeros|]. split; [|split].
  - intros r c. left. apply entry_zeros.
  - intros r c. rewrite !entry_zeros. reflexivity.
  - intros r c H. rewrite entry_zeros in H. discriminate.
Qed.

Lemma banded_asserts N A :
  banded N A -> square A /\ symmetricb A = true /\ binaryb A = true.
Proof.
  intros (Hs & Hbin & Hsym & _). split; [|split].
  - destruct Hs as [Hlen Hrows]. unfold square. rewrite Hlen. exact Hrows.
  - apply symmetricb_intro. intros r c _ _. apply Hsym.
  - apply (binaryb_intro N); [exact Hs|]. intros r c _ _. apply Hbin.
Qed.

Lemma diagonal_banded track speed_max A A' i :
  (1 <= i)%nat -> (i <= 4)%nat ->
  banded (length track) A ->
  diagonal geod_inv track speed_max A i = Ok A' ->
  banded (length track) A'.
Proof.
  intros Hi1 Hi4 (Hs & Hbin & Hsym & Hband) H.
  destruct (diagonal_any track speed_max A A' i Hs H) as (Hs' & idx & Hidx & He).
  assert (Hswap : forall r c,
            existsb (fun k => (k + i =? c) && (k =? r))%nat idx
            = existsb (fun k => (k =? r) && (k + i =? c))%nat idx).
  { intros r c. apply eq_iff_eq_true.
    rewrite (existsb_index' (fun k => (k + i)%nat)), (existsb_index (fun k => (k + i)%nat)).
    reflexivity. }
  split; [exact Hs'|]. split; [|split].
  - intros r c. rewrite He. destruct (_ || _)%bool; auto.
  - intros r c. rewrite !He, Hsym, !Hswap.
    rewrite (orb_comm (existsb (fun k => (k =? c) && (k + i =? r))%nat idx)).
    rewrite <- (Hswap c r). reflexivity.
  - intros r c. rewrite He.
    destruct (existsb (fun k => (k + i =? r) && (k =? c))%nat idx) eqn:E2; cbn [orb].
    + intros _. apply (existsb_index' (fun k => (k + i)%nat)) in E2 as [Hin <-].
      pose proof (Hidx c Hin). lia.
    + destruct (existsb (fun k => (k =? r) && (k + i =? c))%nat idx) eqn:E1.
      * intros _. apply (existsb_index (fun k => (k + i)%nat)) in E1 as [Hin <-].
        pose proof (Hidx r Hin). lia.
      * apply Hband.
Qed.

Lemma diagonals_banded track speed_max lags : forall A A',
  (forall i, In i lags -> (1 <= i)%nat /\ (i <= 4)%nat) ->
  banded (length track) A ->
  diagonals geod_inv track speed_max A lags = Ok A' ->
  banded (length track) A'.
Proof.
  induction lags as [|i lags IH]; intros A A' Hlags HA H; simpl in H.
  - injection H as <-. exact HA.
  - destruct (diagonal geod_inv track speed_max A i) as [A1| |] eqn:E;
      cbn [bind] in H; try discriminate.
    destruct (Hlags i (or_introl eq_refl)) as [Hi1 Hi4].
    apply (IH A1 A'); auto.
    + intros j Hj. apply Hlags. right. exact Hj.
    + apply (diagonal_banded track speed_max A A1 i); auto.
Qed.

Lemma diagonals_raises track speed_max lags : forall A e,
  diagonals geod_inv track speed_max A lags = Raise e -> e = GeodError.
Proof.
  induction lags as [|i lags IH]; intros A e H; simpl in H; [discriminate|].
  destruct (diagonal geod_inv track speed_max A i) as [A1|e1|] eqn:E;
    cbn [bind] in H; try discriminate.
  - apply (IH A1). exact H.
  - injection H as <-. apply (diagonal_raises track speed_max A i). exact E.
Qed.

Lemma anomaly_matrix_banded track speed_max A :
  anomaly_matrix geod_inv track speed_max = Ok A -> banded (length track) A.
Proof.
  unfold anomaly_matrix. intros H.
  apply (diagonals_banded track speed_max (seq 1 4) (zeros (length track)) A); auto.
  - intros i Hi. apply in_seq in Hi. lia.
  - apply banded_zeros.
Qed.

Lemma anomaly_matrix_cases track speed_max :
  anomaly_matrix geod_inv track speed_max = Raise GeodError
  \/ exists A, anomaly_matrix geod_inv track speed_max = Ok A
               /\ banded (length track) A.
Proof.
  destruct (diagonals_cases geod_inv track speed_max (length track) (seq 1 4)
              (zeros (length track)) (sized_zeros _)) as [(e & H) | (A & H & _)].
  - left. unfold anomaly_matrix. rewrite H.
    rewrite (diagonals_raises _ _ _ _ _ H). reflexivity.
  - right. exists A. split; [exact H|].
    apply (anomaly_matrix_banded track speed_max). exact H.
Qed.

(** X5: whatever the geodesic library does, a matrix that
    [detectOutlier] hands to [trackOutlier] has the size of the track,
    is binary and symmetric (both assertions of [trackOutlier] pass),
    has a zero diagonal, and has its ones between messages at most
    four positions apart: no index of lines 118-119 is out of range. *)
Theorem anomaly_matrix_well_formed (track : list row) (speed_max : Q) (A : matrix) :
  anomaly_matrix geod_inv track speed_max = Ok A ->
  sized (length track) A
  /\ symmetricb A = true /\ binaryb A = true
  /\ forall r c, entry A r c = 1 ->
                 (r < length track)%nat /\ (c < length track)%nat /\ r <> c
                 /\ (r <= c + 4)%nat /\ (c <= r + 4)%nat.
Proof.
  intros H. apply (anomaly_matrix_banded track speed_max) in H.
  destruct (banded_asserts _ _ H) as (_ & Hsym & Hbin).
  destruct H as (Hs & _ & _ & Hband). auto.
Qed.

(** Every way out of [detectOutlier]. *)
Lemma detectOutlier_cases (track : list row) (speed_max : Q) :
  let o_report := map (fun r => Qltb speed_max (col 3 r)) track in
  let kept := select (map negb o_report) track in
  (all o_report = true
   /\ detectOutlier geod_inv track speed_max = Ok (o_report, None))
  \/ (all o_report = false
      /\ detectOutlier geod_inv track speed_max = Raise GeodError)
  \/ (all o_report = false
      /\ exists A o_calcul,
          anomaly_matrix geod_inv kept speed_max = Ok A
          /\ trackOutlier A = Ok o_calcul
          /\ length o_calcul = length kept
          /\ detectOutlier geod_inv track speed_max = Ok (o_report, Some o_calcul)).
Proof.
  intros o_report kept. unfold detectOutlier. fold o_report. fold kept.
  destruct (all o_report) eqn:Hall; [left; auto|]. right.
  destruct (anomaly_matrix_cases kept speed_max) as [H | (A & H & HA)].
  - left. rewrite H. auto.
  - right. split; [reflexivity|].
    destruct (banded_asserts _ _ HA) as (Hsq & Hsym & Hbin).
    assert (Hlen : length A = length kept) by apply HA.
    assert (Hne : kept <> []).
    { apply select_all_false; [|exact Hall]. unfold o_report. apply length_map. }
    destruct (KoyakFacts.trackOutlier_fuel_enough A) as (o & Ho & Hol); auto.
    { rewrite Hlen. destruct kept; [congruence | simpl; lia]. }
    exists A, o. rewrite H. cbn [bind]. rewrite Ho. cbn [bind].
    repeat split; auto. lia.
Qed.

(** X6: [detectOutlier] leaves in one of three ways: at line 102 with
    [None] in second position, exactly when every reported speed is
    above [speed_max]; with the fault of the geodesic library; or with
    one indicator per message that passed the reported-speed test.
    Neither assertion of [trackOutlier] fails there, [np.max] is never
    applied to an empty vector, and the loop ends. *)
Theorem detectOutlier_outcomes (track : list row) (speed_max : Q) :
  let o_report := map (fun r => Qltb speed_max (col 3 r)) track in
  let kept := select (map negb o_report) track in
  (all o_report = true
   /\ detectOutlier geod_inv track speed_max = Ok (o_report, None))
  \/ (all o_report = false
      /\ detectOutlier geod_inv track speed_max = Raise GeodError)
  \/ (all o_report = false
      /\ exists A o_calcul,
          anomaly_matrix geod_inv kept speed_max = Ok A
          /\ trackOutlier A = Ok o_calcul
          /\ length o_calcul = length kept
          /\ detectOutlier geod_inv track speed_max = Ok (o_report, Some o_calcul)).
Proof. exact (detectOutlier_cases track speed_max). Qed.

(** A lag the track is too short for faults, whatever was done before. *)
Lemma diagonals_fault_at track speed_max i lags : forall A,
  In i lags ->
  (forall M, diagonal geod_inv track speed_max M i = Raise GeodError) ->
  diagonals geod_inv track speed_max A lags = Raise GeodError.
Proof.
  induction lags as [|j lags IH]; intros A Hin Hi; [destruct Hin|]. simpl.
  destruct (diagonal geod_inv track speed_max A j) as [A1|e|] eqn:E; cbn [bind].
  - destruct Hin as [->|Hin]; [rewrite Hi in E; discriminate|].
    apply IH; auto.
  - rewrite (diagonal_raises _ _ _ _ _ E). reflexivity.
  - destruct Hin as [->|Hin]; [rewrite Hi in E; discriminate|].
    exfalso. revert E. unfold diagonal, geod_inv_vec.
    destruct (_ && _)%bool; [|discriminate].
    destruct (inv_each geod_inv _) eqn:E'; cbn [bind]; try discriminate.
    intros _. eapply inv_each_halts; eauto.
Qed.

Lemma short_track_faults (track : list row) (speed_max : Q) :
  (length track = 2 \/ length track = 3)%nat ->
  anomaly_matrix geod_inv track speed_max = Raise GeodError.
Proof.
  intros HN. unfold anomaly_matrix.
  apply (diagonals_fault_at track speed_max (S (length track))).
  - apply in_seq. lia.
  - intros M. apply diagonal_mismatch; lia.
Qed.

Lemma detectOutlier_short (track : list row) (speed_max : Q) :
  let o_report := map (fun r => Qltb speed_max (col 3 r)) track in
  let kept := select (map negb o_report) track in
  (length kept = 2 \/ length kept = 3)%nat ->
  detectOutlier geod_inv track speed_max = Raise GeodError.
Proof.
  intros o_report kept HN. unfold detectOutlier. fold o_report. fold kept.
  rewrite (select_nonempty_all o_report track).
  - rewrite (short_track_faults kept speed_max HN). reflexivity.
  - fold kept. destruct kept; simpl in HN; [lia | discriminate].
Qed.

(** X7: when two or three messages pass the reported-speed test,
    [detectOutlier] faults, whatever the geodesic library returns: a
    lag of the loop of line 111 exceeds the length of the track, and the
    two slices handed to [geod.inv] differ in length. *)
Theorem detectOutlier_short_track (track : list row) (speed_max : Q) :
  let o_report := map (fun r => Qltb speed_max (col 3 r)) track in
  let kept := select (map negb o_report) track in
  (length kept = 2 \/ length kept = 3)%nat ->
  detectOutlier geod_inv track speed_max = Raise GeodError.
Proof. exact (detectOutlier_short track speed_max). Qed.

End DetectAny.

Lemma anomaly_matrix_well_formed_witness :
  anomaly_matrix flat_inv (firstn 5 jump_track) 30
  = Ok [ [0; 0; 1; 0; 0]; [0; 0; 1; 0; 0]; [1; 1; 0; 1; 1];
         [0; 0; 1; 0; 0]; [0; 0; 1; 0; 0] ]
  /\ Koyak.symmetricb [ [0; 0; 1; 0; 0]; [0; 0; 1; 0; 0]; [1; 1; 0; 1; 1];
                        [0; 0; 1; 0; 0]; [0; 0; 1; 0; 0] ] = true.
Proof.
  assert (H : anomaly_matrix flat_inv (firstn 5 jump_track) 30
              = Ok [ [0; 0; 1; 0; 0]; [0; 0; 1; 0; 0]; [1; 1; 0; 1; 1];
                     [0; 0; 1; 0; 0]; [0; 0; 1; 0; 0] ])
    by (vm_compute; reflexivity).
  split; [exact H|].
  exact (proj1 (proj2 (anomaly_matrix_well_formed flat_inv _ _ _ H))).
Defined.

Lemma detectOutlier_short_track_witness :
  detectOutlier flat_inv [[0; 0; 0; 10]; [60; 0; 0; 10]; [120; 0; 0; 40]]%Q 30
  = Raise GeodError.
Proof.
  apply (detectOutlier_short_track flat_inv
           [[0; 0; 0; 10]; [60; 0; 0; 10]; [120; 0; 0; 40]]%Q 30).
  left. vm_compute. reflexivity.
Defined.

(** ** What stage 3 removes and what it keeps *)

Lemma select_filter {A} (f : A -> bool) (l : list A) :
  select (map negb (map f l)) l = filter (fun x => negb (f x)) l.
Proof.
  induction l as [|x l IH]; simpl; auto.
  destruct (f x); simpl; rewrite IH; reflexivity.
Qed.

Lemma select_select {A} (m2 : list bool) : forall (m1 : list bool) (l : list A),
  exists mask, select m2 (select m1 l) = select mask l.
Proof.
  intros m1. revert m2. induction m1 as [|b m1 IH]; intros m2 l.
  - exists []. simpl. destruct m2 as [|[|] ?]; reflexivity.
  - destruct l as [|x l].
    + exists []. destruct b; simpl; destruct m2 as [|[|] ?]; reflexivity.
    + destruct b; simpl.
      * destruct m2 as [|c m2].
        { exists []. reflexivity. }
        destruct (IH m2 l) as (mask & Hmask).
        exists (c :: mask). destruct c; simpl; rewrite Hmask; reflexivity.
      * destruct (IH m2 l) as (mask & Hmask).
        exists (false :: mask). simpl. exact Hmask.
Qed.

Lemma Forall_select {A} (P : A -> Prop) (mask : list bool) : forall (l : list A),
  Forall P l -> Forall P (select mask l).
Proof.
  induction mask as [|b m IH]; intros l H; [constructor|].
  destruct H as [|x l Hx Hl]; [destruct b; constructor|].
  destruct b; simpl; [constructor|]; auto.
Qed.

Lemma select_all_true {A} (l : list A) : select (repeat true (length l)) l = l.
Proof. induction l as [|x l IH]; simpl; [|rewrite IH]; reflexivity. Qed.

Lemma all_false_map {A} (f : A -> bool) (l : list A) :
  Forall (fun x => f x = false) l -> map f l = repeat false (length l).
Proof.
  induction 1 as [|x l Hx Hl IH]; simpl; [|rewrite Hx, IH]; reflexivity.
Qed.

Lemma map_negb_repeat_false n : map negb (repeat false n) = repeat true n.
Proof. induction n; simpl; [|rewrite IHn]; reflexivity. Qed.

Section Stage3.
Import Koyak MatrixFacts.

Variable geod_inv : Q -> Q -> Q -> Q -> option (Q * Q * Q).

(** The four columns [detectOutlier] is given. *)
Local Abbreviation track_of v :=
  (map (fun r => [col TIMESTAMP r; col LAT r; col LON r; col SOG r]) (rows v)).

Lemma report_of (v : ndarray) :
  map (fun r => Qltb 30 (col 3 r)) (track_of v)
  = map (fun r => Qltb 30 (col SOG r)) (rows v).
Proof. rewrite map_map. reflexivity. Qed.

(** A voyage that stage 3 keeps was cut down by two masks, has at
    least one row, and no reported speed above 30 knots. *)
Lemma anomaly_try_kept (v v' : ndarray) :
  anomaly_try geod_inv v = Ok (Some v') ->
  ncols v' = ncols v
  /\ (0 < nrows v')%nat
  /\ (exists mask, rows v' = select mask (rows v))
  /\ Forall (fun r => (col SOG r <= 30)%Q) (rows v').
Proof.
  intros H.
  destruct (anomaly_try_cases geod_inv v) as [E | [(e & E) | (w & E & Hc & Hr)]];
    rewrite E in H; try discriminate.
  injection H as ->. split; [exact Hc|]. split; [exact Hr|].
  revert E. unfold anomaly_try.
  destruct (detectOutlier geod_inv (track_of v) 30) as [[o_report o_calcul]| |] eqn:D;
    cbn [bind]; try discriminate.
  assert (Ho : o_report = map (fun r => Qltb 30 (col SOG r)) (rows v)).
  { rewrite <- report_of.
    destruct (detectOutlier_cases geod_inv (track_of v) 30)
      as [[_ D'] | [[_ D'] | (_ & A & o & _ & _ & _ & D')]];
      rewrite D' in D; congruence. }
  destruct (all o_report); cbn [bind].
  { discriminate. }
  destruct o_calcul as [o|]; cbn [all_method np_invert bind]; [|discriminate].
  destruct (all o); cbn [bind]; [discriminate|].
  intros E. injection E as <-. cbn [rows]. split.
  - apply select_select.
  - apply Forall_select. rewrite Ho, select_filter.
    apply Forall_forall. intros r Hin. apply filter_In in Hin as [_ Hin].
    apply negb_true_iff in Hin. apply Qltb_ge in Hin. exact Hin.
Qed.

(** X8: stage 3 always completes on a dictionary, with any geodesic
    library. A voyage it keeps stays under its key, made of rows of the
    voyage it had there (a boolean selection), at least one of them,
    with the same columns and no reported speed above 30 knots; the
    voyages kept and the faults counted never exceed the voyages given. *)
Theorem remove_anomalies_keeps (voyages : dict ndarray) :
  NoDup (keys voyages) ->
  exists cleaned error_count,
    remove_anomalies geod_inv voyages = Ok (cleaned, error_count)
    /\ (length cleaned + error_count <= length voyages)%nat
    /\ forall k v', In (k, v') cleaned ->
         exists v mask,
           In (k, v) voyages
           /\ ncols v' = ncols v
           /\ rows v' = select mask (rows v)
           /\ (0 < nrows v')%nat
           /\ Forall (fun r => (col SOG r <= 30)%Q) (rows v').
Proof.
  intros Hnd.
  exists (flat_map (cleaned_entry geod_inv) voyages),
         (length (filter (faulted geod_inv) voyages)).
  split; [apply (anomaly_for_spec geod_inv voyages [] 0%nat Hnd)|]. split.
  - clear Hnd. induction voyages as [|[k v] d IH]; simpl; [lia|].
    unfold cleaned_entry at 1, faulted at 1. simpl.
    destruct (anomaly_try geod_inv v) as [[w|]|e|]; simpl; lia.
  - intros k v' Hin. apply in_flat_map in Hin as ([k0 v] & Hkv & Hc).
    unfold cleaned_entry in Hc. simpl in Hc.
    destruct (anomaly_try geod_inv v) as [[w|]|e|] eqn:E;
      try (destruct Hc; fail).
    destruct Hc as [Hc|[]]. injection Hc as -> ->.
    destruct (anomaly_try_kept v v' E) as (Hcols & Hrows & (mask & Hmask) & Hsog).
    exists v, mask. auto.
Qed.

(** X9: a voyage of which two or three messages report a speed of at
    most 30 knots makes the [try] body of stage 3 fault: the voyage is
    popped and counted in [error_count]. *)
Theorem anomaly_try_short_track (v : ndarray) :
  let feasible := filter (fun r => negb (Qltb 30 (col SOG r))) (rows v) in
  (length feasible = 2 \/ length feasible = 3)%nat ->
  anomaly_try geod_inv v = Raise GeodError
  /\ forall k, faulted geod_inv (k, v) = true /\ cleaned_entry geod_inv (k, v) = [].
Proof.
  intros feasible HN.
  assert (H : anomaly_try geod_inv v = Raise GeodError).
  { unfold anomaly_try.
    rewrite (detectOutlier_short geod_inv (track_of v) 30); [reflexivity|].
    cbv zeta. rewrite report_of, select_map, length_map, select_filter.
    exact HN. }
  split; [exact H|]. intros k. unfold faulted, cleaned_entry. simpl.
  rewrite H. auto.
Qed.

End Stage3.

Lemma remove_anomalies_keeps_witness :
  NoDup (keys [(0%nat, steady_voyage)])
  /\ exists cleaned error_count,
      remove_anomalies flat_inv [(0%nat, steady_voyage)] = Ok (cleaned, error_count)
      /\ (length cleaned + error_count <= 1)%nat.
Proof.
  assert (Hnd : NoDup (keys [(0%nat, steady_voyage)])).
  { simpl. constructor; [intros [] | constructor]. }
  split; [exact Hnd|].
  destruct (remove_anomalies_keeps flat_inv [(0%nat, steady_voyage)] Hnd)
    as (cleaned & error_count & H1 & H2 & _).
  exists cleaned, error_count. split; [exact H1 | exact H2].
Defined.

Lemma anomaly_try_short_track_witness :
  anomaly_try flat_inv
    (mkarr 8 [ [50; 0; 10; 90; 90; 0; 0; 1234];
               [50; 1000; 10; 90; 90; 0; 300; 1234];
               [50; 2000; 40; 90; 90; 0; 600; 1234] ]%Q)
  = Raise GeodError.
Proof.
  apply (anomaly_try_short_track flat_inv
           (mkarr 8 [ [50; 0; 10; 90; 90; 0; 0; 1234];
                      [50; 1000; 10; 90; 90; 0; 300; 1234];
                      [50; 2000; 40; 90; 90; 0; 600; 1234] ]%Q)).
  left. vm_compute. reflexivity.
Defined.

(** ** Stage 3 with a geodesic library that answers *)

Section Resolve.
Import Koyak MatrixFacts.

Variable geod_inv : Q -> Q -> Q -> Q -> option (Q * Q * Q).
Variable dist : Q -> Q -> Q -> Q -> Q.
Hypothesis geod_inv_dist : forall lon1 lat1 lon2 lat2,
  exists az baz, geod_inv lon1 lat1 lon2 lat2 = Some (az, baz, dist lon1 lat1 lon2 lat2).

(** A matrix the loop over the lags returns has a one exactly at the
    pairs of the band that are too fast. *)
Lemma anomaly_matrix_entries (track : list row) (speed_max : Q) (A : matrix) :
  anomaly_matrix geod_inv track speed_max = Ok A ->
  forall r c, (r < length track)%nat -> (c < length track)%nat ->
              entry A r c = if spec_banded dist track speed_max r c then 1 else 0.
Proof.
  intros H r c Hr Hc.
  assert (HN : (length track <> 2 /\ length track <> 3)%nat).
  { split; intros E;
      rewrite (short_track_faults geod_inv track speed_max) in H by lia;
      discriminate. }
  destruct (diagonals_spec geod_inv dist geod_inv_dist track speed_max (seq 1 4)
              (zeros (length track))) as (A' & HA' & _ & He).
  { intros i Hi. apply in_seq in Hi. lia. }
  { apply sized_zeros. }
  unfold anomaly_matrix in H. rewrite HA' in H. injection H as <-.
  rewrite He by assumption. rewrite entry_zeros. reflexivity.
Qed.

(** X10: when the geodesic library answers, the second vector of
    [detectOutlier] settles every anomaly of the band: of two messages
    at most four positions apart whose calculated speed is too high, at
    least one is an outlier, and a message is an outlier only if its
    calculated speed with one of its neighbours is too high. *)
Theorem detectOutlier_resolves (track : list row) (speed_max : Q)
        (o_report o_calcul : list bool) :
  detectOutlier geod_inv track speed_max = Ok (o_report, Some o_calcul) ->
  let kept := select (map negb o_report) track in
  length o_calcul = length kept
  /\ (forall r c, (r < length kept)%nat -> (c < length kept)%nat ->
                  spec_banded dist kept speed_max r c = true ->
                  nth r o_calcul false = true \/ nth c o_calcul false = true)
  /\ (forall j, (j < length kept)%nat -> nth j o_calcul false = true ->
                exists s, (s < length kept)%nat
                          /\ spec_banded dist kept speed_max j s = true).
Proof.
  intros H.
  destruct (detectOutlier_cases geod_inv track speed_max)
    as [[_ D] | [[_ D] | (_ & A & o & HA & Ho & Hlen & D)]];
    rewrite D in H; try discriminate.
  injection H as <- ->. cbv zeta.
  set (kept := select _ track) in *.
  pose proof (anomaly_matrix_banded geod_inv kept speed_max A HA) as Hb.
  destruct (banded_asserts _ _ Hb) as (Hsq & Hsym & Hbin).
  assert (HlenA : length A = length kept) by apply Hb.
  destruct (KoyakCover.trackOutlier_cover A Hsq Hsym Hbin o_calcul Ho)
    as (_ & Hmarked & Hcover).
  rewrite HlenA in Hmarked, Hcover.
  split; [exact Hlen|]. split.
  - intros r c Hr Hc Hrc. apply Hcover; auto.
    rewrite (anomaly_matrix_entries kept speed_max A HA) by assumption.
    rewrite Hrc. reflexivity.
  - intros j Hj Hmark. destruct (Hmarked j Hj Hmark) as (s & Hs & Hjs).
    exists s. split; [exact Hs|].
    rewrite (anomaly_matrix_entries kept speed_max A HA) in Hjs by assumption.
    destruct (spec_banded dist kept speed_max j s); [reflexivity | discriminate].
Qed.

(** The four columns [detectOutlier] is given. *)
Local Abbreviation track_of v :=
  (map (fun r => [col TIMESTAMP r; col LAT r; col LON r; col SOG r]) (rows v)).

(** X11: stage 3 leaves a clean voyage as it is: with one message or
    at least four, no reported speed above 30 knots and no pair of the
    band too fast, the voyage is stored again with all its rows. *)
Theorem anomaly_try_clean (v : ndarray) :
  (nrows v = 1 \/ 4 <= nrows v)%nat ->
  Forall (fun r => (col SOG r <= 30)%Q) (rows v) ->
  (forall r c, (r < nrows v)%nat -> (c < nrows v)%nat ->
               spec_banded dist (track_of v) 30 r c = false) ->
  anomaly_try geod_inv v = Ok (Some v).
Proof.
  intros HN Hsog Hband. unfold nrows in *.
  assert (Hreport : map (fun r => Qltb 30 (col 3 r)) (track_of v)
                    = repeat false (length (rows v))).
  { rewrite report_of. apply all_false_map.
    apply Forall_forall. intros r Hr. rewrite Forall_forall in Hsog.
    apply Qltb_ge. apply Hsog. exact Hr. }
  assert (Hkept : select (map negb (repeat false (length (rows v)))) (track_of v)
                  = track_of v).
  { rewrite map_negb_repeat_false.
    rewrite <- (length_map (fun r => [col TIMESTAMP r; col LAT r; col LON r; col SOG r])
                           (rows v)).
    apply select_all_true. }
  assert (Hlen : length (track_of v) = length (rows v)) by apply length_map.
  assert (Hallf : forall n, (n = 1 \/ 4 <= n)%nat -> all (repeat false n) = false).
  { intros [|n] Hn; [lia | reflexivity]. }
  destruct (diagonals_spec geod_inv dist geod_inv_dist (track_of v) 30 (seq 1 4)
              (zeros (length (track_of v)))) as (A & HA & HsA & He).
  { intros i Hi. apply in_seq in Hi. rewrite !length_map. lia. }
  { apply sized_zeros. }
  assert (HlenA : length A = length (rows v)).
  { destruct HsA as [HlA _]. rewrite HlA. apply length_map. }
  assert (Ho : trackOutlier A = Ok (repeat false (length A))).
  { apply KoyakCover.trackOutlier_quiet.
    - destruct HsA as [HlA Hrows]. unfold square. rewrite HlA. exact Hrows.
    - lia.
    - intros r c Hr Hc. rewrite He by (rewrite length_map; lia). rewrite entry_zeros.
      pose proof (Hband r c ltac:(lia) ltac:(lia)) as Hrc.
      unfold spec_banded in Hrc. rewrite Hrc. reflexivity. }
  unfold anomaly_try, detectOutlier. cbv zeta.
  rewrite Hreport, (Hallf _ HN).
  assert (HA' : anomaly_matrix geod_inv
                  (select (map negb (repeat false (length (rows v)))) (track_of v)) 30
                = Ok A) by (rewrite Hkept; exact HA).
  match goal with
  | |- context [anomaly_matrix geod_inv ?t 30] =>
      replace (anomaly_matrix geod_inv t 30) with (@Ok matrix A)
        by (symmetry; exact HA')
  end. cbn [bind]. rewrite Ho. cbn [bind].
  rewrite (Hallf _ HN). cbn [all_method bind].
  rewrite HlenA, (Hallf _ HN). cbn [np_invert bind].
  rewrite !map_negb_repeat_false, select_all_true, select_all_true.
  destruct v; reflexivity.
Qed.

End Resolve.

Lemma flat_inv_dist : forall lon1 lat1 lon2 lat2, exists az baz,
  flat_inv lon1 lat1 lon2 lat2 = Some (az, baz, flat_dist lon1 lat1 lon2 lat2).
Proof. intros. exists 0%Q, 0%Q. reflexivity. Qed.

Lemma detectOutlier_resolves_witness :
  detectOutlier flat_inv jump_track 30
  = Ok ([false; false; false; false; false; true],
        Some [false; false; true; false; false])
  /\ forall r c, (r < 5)%nat -> (c < 5)%nat ->
       spec_banded flat_dist (firstn 5 jump_track) 30 r c = true ->
       nth r [false; false; true; false; false] false = true
       \/ nth c [false; false; true; false; false] false = true.
Proof.
  assert (H : detectOutlier flat_inv jump_track 30
              = Ok ([false; false; false; false; false; true],
                    Some [false; false; true; false; false]))
    by (vm_compute; reflexivity).
  split; [exact H|].
  exact (proj1 (proj2 (detectOutlier_resolves flat_inv flat_dist flat_inv_dist
                         jump_track 30 _ _ H))).
Defined.

Lemma anomaly_try_clean_witness :
  anomaly_try flat_inv calm_voyage = Ok (Some calm_voyage).
Proof.
  apply (anomaly_try_clean flat_inv flat_dist flat_inv_dist calm_voyage).
  - right. unfold nrows. simpl. lia.
  - repeat constructor; unfold Qle; simpl; lia.
  - intros r c Hr Hc. change (r < 4)%nat in Hr. change (c < 4)%nat in Hc.
    destruct r as [|[|[|[|r]]]]; try lia;
      destruct c as [|[|[|[|c]]]]; try lia; vm_compute; reflexivity.
Defined.

(** ** [interpolate_] between and outside the messages *)

Section InterpolateBetween.

Variable geod_inv : Q -> Q -> Q -> Q -> option (Q * Q * Q).
Variable geod_fwd : Q -> Q -> Q -> Q -> option (Q * Q * Q).
Variables HEADING ROT NAV_STT : option nat.

Local Abbreviation interp := (interpolate_ geod_inv geod_fwd HEADING ROT NAV_STT).

(** On a sorted track a target between message [b] and the strictly
    later message [b + 1] is bracketed by these two. *)
Lemma bracket_between (track : ndarray) (b : nat) (t : Q) :
  let ts := column TIMESTAMP track in
  time_sorted track -> (S b < nrows track)%nat ->
  (nth b ts 0 <= t)%Q -> (t < nth (S b) ts 0)%Q ->
  let before_p := nonzero (map (fun x => Qle_bool x t) ts) in
  let after_p := nonzero (map (fun x => Qltb t x) ts) in
  (0 <? length before_p)%nat = true /\ (0 <? length after_p)%nat = true
  /\ last before_p 0%nat = b /\ hd 0%nat after_p = S b.
Proof.
  intros ts Hsorted Hb Hge Hlt before_p after_p.
  assert (Hlen : length ts = nrows track) by (unfold ts, column; apply length_map).
  assert (Hle : forall j, (j <= b)%nat -> (nth j ts 0 <= t)%Q).
  { intros j Hj. eapply Qle_trans; [|exact Hge]. apply Hsorted; lia. }
  assert (Hgt : forall j, (b < j)%nat -> (j < nrows track)%nat -> (t < nth j ts 0)%Q).
  { intros j Hj1 Hj2. eapply Qlt_le_trans; [exact Hlt|]. apply Hsorted; lia. }
  assert (Hmb : forall j, (j < nrows track)%nat ->
              nth j (map (fun x => Qle_bool x t) ts) false = (j <=? b)%nat).
  { intros j Hj. rewrite (nth_map_lt _ _ _ 0%Q) by lia.
    destruct (Nat.leb_spec j b) as [H|H].
    - apply Qle_bool_iff. apply Hle; auto.
    - destruct (Qle_bool (nth j ts 0%Q) t) eqn:E; auto.
      apply Qle_bool_iff in E. exfalso.
      apply (Qlt_not_le _ _ (Hgt j H Hj)). exact E. }
  assert (Hma : forall j, (j < nrows track)%nat ->
              nth j (map (fun x => Qltb t x) ts) false = (b <? j)%nat).
  { intros j Hj. rewrite (nth_map_lt _ _ _ 0%Q) by lia.
    destruct (Nat.ltb_spec b j) as [H|H].
    - apply Qltb_lt. apply Hgt; auto.
    - apply Qltb_ge. apply Hle; auto. }
  assert (Hlast : last before_p 0%nat = b).
  { unfold before_p, nonzero.
    apply nonzero_from_last; rewrite ?Nat.sub_0_r, ?length_map; try lia.
    - rewrite Hmb by lia. apply Nat.leb_refl.
    - intros j Hj1 Hj2. rewrite Hmb by lia. apply Nat.leb_gt. lia. }
  assert (Hhd : hd 0%nat after_p = S b).
  { unfold after_p, nonzero.
    apply nonzero_from_hd; rewrite ?Nat.sub_0_r, ?length_map; try lia.
    - rewrite Hma by lia. apply Nat.ltb_lt. lia.
    - intros j Hj. rewrite Hma by lia. apply Nat.ltb_ge. lia. }
  assert (Hinb : In b before_p).
  { apply nonzero_In. rewrite length_map. split; [lia|].
    rewrite Hmb by lia. apply Nat.leb_refl. }
  assert (Hina : In (S b) after_p).
  { apply nonzero_In. rewrite length_map. split; [lia|].
    rewrite Hma by lia. apply Nat.ltb_lt. lia. }
  repeat split; auto.
  - destruct before_p; [destruct Hinb | reflexivity].
  - destruct after_p; [destruct Hina | reflexivity].
Qed.

(** X12: the row [interpolate_] builds. On a sorted track, for a
    target [t] at or after message [before] and strictly earlier than
    the next message [after], at most two hours later, with the three
    names bound to columns and both geodesic calls answering: the
    position is what [geod.fwd] gives from [before] along the azimuth
    to [after] at the share [f = (t - tb) / (ta - tb)] of the distance;
    speed, course, heading and rate of turn go linearly from [before]
    to [after] with [f]; the status is [after]'s past the middle of the
    interval and [before]'s up to it; the timestamp is [t] and the
    vessel is that of the first row. The status comes last, after the
    vessel: nine fields. *)
Theorem interpolate_between (track : ndarray) (b h r n : nat) (t : Q)
        (az baz d lon lat back : Q) :
  let before := nth b (rows track) [] in
  let after := nth (S b) (rows track) [] in
  let tb := col TIMESTAMP before in
  let ta := col TIMESTAMP after in
  let f := ((t - tb) / (ta - tb))%Q in
  (MMSI < ncols track)%nat ->
  HEADING = Some h -> ROT = Some r -> NAV_STT = Some n ->
  (h < ncols track)%nat -> (r < ncols track)%nat -> (n < ncols track)%nat ->
  time_sorted track ->
  (S b < nrows track)%nat ->
  (tb <= t)%Q -> (t < ta)%Q -> (ta - tb <= 7200)%Q ->
  geod_inv (col LON before) (col LAT before) (col LON after) (col LAT after)
  = Some (az, baz, d) ->
  geod_fwd (col LON before) (col LAT before) az (d * f) = Some (lon, lat, back) ->
  interp t track
  = Ok (Some [lat; lon;
              (col SOG after - col SOG before) * f + col SOG before;
              (col COG after - col COG before) * f + col COG before;
              (col h after - col h before) * f + col h before;
              (col r after - col r before) * f + col r before;
              t;
              col MMSI (nth 0 (rows track) []);
              if Qltb ((ta - tb) / 2) (t - tb) then col n after else col n before])%Q.
Proof.
  intros before after tb ta f Hcols HH HR HN Hh Hr Hn Hsorted Hb Hge Hlt Hgap Hinv Hfwd.
  unfold MMSI in Hcols.
  assert (Hts : (TIMESTAMP <? ncols track)%nat = true)
    by (apply Nat.ltb_lt; unfold TIMESTAMP; lia).
  assert (Eb : tb = nth b (column TIMESTAMP track) 0%Q)
    by (symmetry; apply nth_column).
  assert (Ea : ta = nth (S b) (column TIMESTAMP track) 0%Q)
    by (symmetry; apply nth_column).
  destruct (bracket_between track b t Hsorted Hb) as (Hb1 & Ha1 & Hlast & Hhd).
  { rewrite <- Eb. exact Hge. }
  { rewrite <- Ea. exact Hlt. }
  unfold interpolate_, column_at. rewrite Hts. cbn [bind geod_call global].
  rewrite Hb1, Ha1, Hlast, Hhd. simpl andb. cbv iota.
  rewrite !item_in_range by (try lia; unfold TIMESTAMP; lia). cbn [bind geod_call global].
  fold before after. fold tb ta.
  assert (Hpos : (0 < ta - tb)%Q).
  { unfold Qminus. rewrite <- Qlt_minus_iff.
    eapply Qle_lt_trans; [exact Hge | exact Hlt]. }
  assert (Hbig : Qltb 7200 (Qabs (ta - tb)) = false).
  { apply Qltb_ge. rewrite Qabs_pos by (apply Qlt_le_weak; exact Hpos). exact Hgap. }
  rewrite Hbig.
  unfold interpolate_try.
  rewrite !item_in_range by (try lia; unfold LON, LAT, SOG, COG; lia).
  fold before after. cbn [bind geod_call global].
  rewrite Hinv. cbn [bind geod_call global].
  unfold py_div.
  assert (Hnz : Qeq_bool (ta - tb) 0 = false).
  { destruct (Qeq_bool (ta - tb) 0) eqn:E; auto.
    apply Qeq_bool_iff in E. rewrite E in Hpos. discriminate Hpos. }
  rewrite Hnz. cbn [bind geod_call global].
  fold f. rewrite Hfwd. cbn [bind geod_call global].
  rewrite HH, HR, HN. cbn [bind geod_call global].
  rewrite !item_in_range by lia. fold before after. cbn [bind geod_call global].
  destruct (Qltb ((ta - tb) / 2) (t - tb)); cbn [bind geod_call global];
    rewrite item_in_range by (try lia; unfold MMSI; lia); reflexivity.
Qed.

(** X13: [interpolate_] never extrapolates. When no message is
    strictly later than the target, or none is at or before it (an
    empty track is both), the result is [None], before any call of the
    geodesic library and whatever the three names are bound to. *)
Theorem interpolate_outside_span (track : ndarray) (t : Q) :
  (TIMESTAMP < ncols track)%nat ->
  Forall (fun row => (col TIMESTAMP row <= t)%Q) (rows track)
  \/ Forall (fun row => (t < col TIMESTAMP row)%Q) (rows track) ->
  interp t track = Ok None.
Proof.
  intros Hts Hspan. unfold interpolate_, column_at.
  apply Nat.ltb_lt in Hts. rewrite Hts. cbn [bind].
  destruct Hspan as [H|H].
  - assert (E : nonzero (map (fun x => Qltb t x) (column TIMESTAMP track)) = []).
    { unfold nonzero. apply nonzero_from_none. intros j Hj.
      unfold column in *. rewrite !length_map in Hj.
      rewrite map_map, (nth_map_lt _ (rows track) j []) by exact Hj.
      apply Qltb_ge. rewrite Forall_forall in H. apply H. apply nth_In. exact Hj. }
    rewrite E. simpl length. rewrite andb_false_r. reflexivity.
  - assert (E : nonzero (map (fun x => Qle_bool x t) (column TIMESTAMP track)) = []).
    { unfold nonzero. apply nonzero_from_none. intros j Hj.
      unfold column in *. rewrite !length_map in Hj.
      rewrite map_map, (nth_map_lt _ (rows track) j []) by exact Hj.
      destruct (Qle_bool (col TIMESTAMP (nth j (rows track) [])) t) eqn:Hq; auto.
      apply Qle_bool_iff in Hq. rewrite Forall_forall in H.
      exfalso. apply (Qlt_not_le _ _ (H _ (nth_In (rows track) [] Hj))). exact Hq. }
    rewrite E. reflexivity.
Qed.

(** X14: [interpolate_] does not bridge a silence. On a sorted track
    with the timestamp column, a target at or after a message whose
    successor is more than two hours later, and strictly earlier than
    that successor, has no interpolation, with any geodesic library and
    any binding of the three names. *)
Theorem interpolate_long_gap (track : ndarray) (b : nat) (t : Q) :
  let tb := col TIMESTAMP (nth b (rows track) []) in
  let ta := col TIMESTAMP (nth (S b) (rows track) []) in
  (TIMESTAMP < ncols track)%nat ->
  time_sorted track ->
  (S b < nrows track)%nat ->
  (tb <= t)%Q -> (t < ta)%Q -> (7200 < ta - tb)%Q ->
  interp t track = Ok None.
Proof.
  intros tb ta Hts Hsorted Hb Hge Hlt Hgap.
  assert (Eb : tb = nth b (column TIMESTAMP track) 0%Q)
    by (symmetry; apply nth_column).
  assert (Ea : ta = nth (S b) (column TIMESTAMP track) 0%Q)
    by (symmetry; apply nth_column).
  destruct (bracket_between track b t Hsorted Hb) as (Hb1 & Ha1 & Hlast & Hhd).
  { rewrite <- Eb. exact Hge. }
  { rewrite <- Ea. exact Hlt. }
  unfold interpolate_, column_at.
  pose proof Hts as Hts'. apply Nat.ltb_lt in Hts'. rewrite Hts'. cbn [bind].
  rewrite Hb1, Ha1, Hlast, Hhd. simpl andb. cbv iota.
  rewrite !item_in_range by (try lia; exact Hts). cbn [bind].
  fold tb ta.
  assert (Hbig : Qltb 7200 (Qabs (ta - tb)) = true).
  { apply Qltb_lt. rewrite Qabs_pos; [exact Hgap|].
    apply Qlt_le_weak. eapply Qlt_trans; [|exact Hgap]. reflexivity. }
  rewrite Hbig. reflexivity.
Qed.

(** The row [interpolate_] returns has nine fields, whatever the
    columns of the track. *)
Lemma interpolate_nine_fields (t : Q) (track : ndarray) (row : list Q) :
  interp t track = Ok (Some row) -> length row = 9%nat.
Proof.
  unfold interpolate_.
  destruct (column_at track TIMESTAMP) as [ts| |]; cbn [bind]; try discriminate.
  destruct (_ && _)%bool; [|discriminate].
  destruct (item track _ TIMESTAMP) as [ta| |]; cbn [bind]; try discriminate.
  destruct (item track _ TIMESTAMP) as [tb| |]; cbn [bind]; try discriminate.
  destruct (Qltb 7200 _); [discriminate|].
  destruct (interpolate_try _ _ _ _ _ _ _ _ _ _)
    as [[[[[[[lat lon] speed] course] heading] rot] nav]| |]; try discriminate.
  destruct (item track 0 MMSI) as [mmsi| |]; cbn [bind]; try discriminate.
  intros H. injection H as <-. reflexivity.
Qed.

(** The faults of [interpolate_] are those of the reads outside the
    [try] block. *)
Lemma interpolate_raises (t : Q) (track : ndarray) (e : exn) :
  interp t track = Raise e -> e = IndexError /\ (ncols track <= MMSI)%nat.
Proof.
  intros H. split.
  - revert H. unfold interpolate_, column_at, item.
    destruct (TIMESTAMP <? ncols track)%nat; cbn [bind]; [|congruence].
    destruct (_ && _)%bool; [|discriminate].
    destruct (nth_error (rows track) _); cbn [bind]; [|congruence].
    destruct (nth_error (rows track) _); cbn [bind]; [|congruence].
    destruct (Qltb 7200 _); [discriminate|].
    destruct (interpolate_try _ _ _ _ _ _ _ _ _ _)
      as [[[[[[[lat lon] speed] course] heading] rot] nav]| |]; try discriminate.
    destruct (MMSI <? ncols track)%nat; cbn [bind]; [|congruence].
    destruct (nth_error (rows track) 0); cbn [bind]; [discriminate | congruence].
  - destruct (Nat.le_gt_cases (ncols track) MMSI) as [Hle|Hgt]; [exact Hle|].
    destruct (proj1 (interpolate_outcomes geod_inv geod_fwd HEADING ROT NAV_STT
                       t track Hgt)) as (res & Hres).
    rewrite Hres in H. discriminate.
Qed.

(** X15: the exceptions that leave [interpolate_] come from the reads
    outside its [try] block. A track without the timestamp column
    raises [IndexError] at line 139; any exception that leaves the
    function is an [IndexError] and the track has fewer than the eight
    input columns; and the function always ends. *)
Theorem interpolate_faults (t : Q) (track : ndarray) :
  ((ncols track <= TIMESTAMP)%nat -> interp t track = Raise IndexError)
  /\ (forall e, interp t track = Raise e ->
                e = IndexError /\ (ncols track <= MMSI)%nat)
  /\ interp t track <> Diverge.
Proof.
  split; [|split].
  - intros H. unfold interpolate_, column_at.
    apply Nat.ltb_ge in H. rewrite H. reflexivity.
  - intros e. apply interpolate_raises.
  - unfold interpolate_, column_at, item.
    destruct (TIMESTAMP <? ncols track)%nat; cbn [bind]; [|discriminate].
    destruct (_ && _)%bool; [|discriminate].
    destruct (nth_error (rows track) _); cbn [bind]; [|discriminate].
    destruct (nth_error (rows track) _); cbn [bind]; [|discriminate].
    destruct (Qltb 7200 _); [discriminate|].
    destruct (interpolate_try _ _ _ _ _ _ _ _ _ _)
      as [[[[[[[lat lon] speed] course] heading] rot] nav]| |] eqn:E;
      try discriminate.
    + destruct (MMSI <? ncols track)%nat; cbn [bind]; [|discriminate].
      destruct (nth_error (rows track) 0); cbn [bind]; discriminate.
    + intros _. eapply interpolate_try_halts; eauto.
Qed.

End InterpolateBetween.

Lemma interpolate_between_witness :
  time_sorted pair_track
  /\ exists row,
      interpolate_ flat_inv flat_fwd (Some 4%nat) (Some 5%nat) (Some 5%nat) 300 pair_track
      = Ok (Some row)
      /\ nth 6 row 0%Q = 300%Q /\ nth 8 row 1%Q = 0%Q.
Proof.
  split; [exact pair_track_sorted|].
  eexists. split.
  - apply (interpolate_between flat_inv flat_fwd (Some 4%nat) (Some 5%nat) (Some 5%nat)
             pair_track 0 4 5 5 300 0 0 (flat_dist 20 10 21 11)
             (Qred (20 + flat_dist 20 10 21 11 * ((300 - 0) / (600 - 0)))) 10 0).
    + unfold MMSI. simpl. lia.
    + reflexivity.
    + reflexivity.
    + reflexivity.
    + simpl. lia.
    + simpl. lia.
    + simpl. lia.
    + exact pair_track_sorted.
    + unfold nrows. simpl. lia.
    + unfold Qle. simpl. lia.
    + unfold Qlt. simpl. lia.
    + unfold Qle. simpl. lia.
    + reflexivity.
    + reflexivity.
  - split; reflexivity.
Defined.

Lemma interpolate_outside_span_witness :
  interpolate_ flat_inv flat_fwd (Some 4%nat) (Some 5%nat) (Some 5%nat) 600 pair_track
  = Ok None.
Proof.
  apply (interpolate_outside_span flat_inv flat_fwd (Some 4%nat) (Some 5%nat) (Some 5%nat)
           pair_track 600).
  - unfold TIMESTAMP. simpl. lia.
  - left. repeat constructor; unfold Qle; simpl; lia.
Defined.

Lemma interpolate_long_gap_witness :
  interpolate_ flat_inv flat_fwd (Some 4%nat) (Some 5%nat) (Some 5%nat) 5000 gap_track
  = Ok None.
Proof.
  apply (interpolate_long_gap flat_inv flat_fwd (Some 4%nat) (Some 5%nat) (Some 5%nat)
           gap_track 2 5000).
  - unfold TIMESTAMP. simpl. lia.
  - exact gap_track_sorted.
  - unfold nrows. simpl. lia.
  - unfold Qle. simpl. lia.
  - unfold Qlt. simpl. lia.
  - unfold Qlt. simpl. lia.
Defined.

(** ** Stage 4 and the output of the script, with any binding of the names *)

Section SamplingAny.
Import DictFacts.

Variable geod_inv : Q -> Q -> Q -> Q -> option (Q * Q * Q).
Variable geod_fwd : Q -> Q -> Q -> Q -> option (Q * Q * Q).
Variables HEADING ROT NAV_STT : option nat.

Local Abbreviation interp := (interpolate_ geod_inv geod_fwd HEADING ROT NAV_STT).
Local Abbreviation sample := (sample_voyage geod_inv geod_fwd HEADING ROT NAV_STT).
Local Abbreviation sample_for := (sampling_for geod_inv geod_fwd HEADING ROT NAV_STT).

(** The loop over the targets never gets past a first target: its
    nine fields do not stack on eight columns. *)
Lemma sampling_for_keeps (v : ndarray) (targets : list Z) (acc s : ndarray) :
  ncols acc = 8%nat -> sample_for v targets acc = Ok (Some s) ->
  targets = [] /\ s = acc.
Proof.
  intros Hacc. destruct targets as [|t rest]; simpl.
  - intros H. injection H as <-. auto.
  - destruct (interp (inject_Z t) v) as [[r|]| |] eqn:E; cbn [bind]; try discriminate.
    unfold vstack. rewrite (interpolate_nine_fields _ _ _ _ _ _ _ _ E), Hacc.
    simpl. discriminate.
Qed.

Lemma sample_voyage_keeps (v s : ndarray) :
  sample v = Ok (Some s) -> s = np_empty 0 8.
Proof.
  unfold sample_voyage. destruct (walk v) as [targets| |]; cbn [bind]; try discriminate.
  intros H. apply sampling_for_keeps in H; [|reflexivity]. apply H.
Qed.

Lemma range_first (a b step : Z) :
  0 < step -> a < b -> exists rest, py_range a b step = a :: rest.
Proof.
  intros Hstep Hab.
  destruct (RangeFacts.py_range_spec a b step Hstep) as (Hnth & _ & Hlen & _).
  specialize (Hlen Hab).
  destruct (py_range a b step) as [|x rest] eqn:E.
  - simpl in Hlen. lia.
  - exists rest. f_equal. specialize (Hnth 0%nat ltac:(simpl; lia)).
    simpl in Hnth. lia.
Qed.

(** X16: what stage 4 does with a voyage that has rows and the eight
    input columns, whatever the three names are bound to. When the
    truncated first and last timestamps leave no target, an array
    without rows is stored. Otherwise the first target is the first
    timestamp: if its interpolation is unavailable the voyage is
    dropped, and if it is available line 230 raises [ValueError],
    nine fields against the eight columns of [np.empty((0, 8))]. *)
Theorem sample_voyage_outcomes (v : ndarray) :
  (MMSI < ncols v)%nat -> (0 < nrows v)%nat ->
  let first := py_int (col TIMESTAMP (hd [] (rows v))) in
  let final := py_int (col TIMESTAMP (last (rows v) [])) in
  (final <= first -> sample v = Ok (Some (np_empty 0 8)))
  /\ (first < final ->
      (interp (inject_Z first) v = Ok None /\ sample v = Ok None)
      \/ ((exists r, interp (inject_Z first) v = Ok (Some r))
          /\ sample v = Raise ValueError)).
Proof.
  intros Hcols Hrows first final. unfold sample_voyage.
  rewrite (walk_ok v Hcols Hrows). cbn [bind]. fold first final. split.
  - intros Hle.
    destruct (RangeFacts.py_range_spec first final resolution eq_refl) as (_ & _ & _ & H).
    rewrite (H Hle). reflexivity.
  - intros Hlt. destruct (range_first first final resolution eq_refl Hlt) as (rest & ->).
    apply (sampling_for_cases geod_inv geod_fwd HEADING ROT NAV_STT
             v (first :: rest) (np_empty 0 8) Hcols eq_refl).
Qed.

Lemma sampling_keeps (vs : list ndarray) : forall Vs count Vs' count',
  Forall (fun kv => snd kv = np_empty 0 8) Vs ->
  sampling geod_inv geod_fwd HEADING ROT NAV_STT vs Vs count = Ok (Vs', count') ->
  Forall (fun kv => snd kv = np_empty 0 8) Vs'.
Proof.
  induction vs as [|v vs IH]; intros Vs count Vs' count' HVs H; simpl in H.
  - injection H as <- _. exact HVs.
  - destruct (sample v) as [[s|]| |] eqn:E; cbn [bind] in H; try discriminate.
    + apply (IH (assign count s Vs) (S count) Vs' count'); [|exact H].
      apply sample_voyage_keeps in E. subst s.
      clear - HVs. induction HVs as [|[k w] d Hw Hd IHd]; simpl.
      * repeat constructor.
      * destruct (k =? count)%nat; constructor; auto.
    + apply (IH _ _ _ _ HVs H).
Qed.

(** Arrays without rows give no block. *)
Lemma resplit_no_rows (Vs : dict ndarray) :
  Forall (fun kv => snd kv = np_empty 0 8) Vs ->
  fst (resplit (map snd Vs) [] 0%nat) = [].
Proof.
  intros E.
  pose proof (store_pieces_empty blocks_of (map snd Vs)) as (Hvals & _ & _).
  fold (resplit (map snd Vs) [] 0%nat) in Hvals.
  assert (Hnone : flat_map blocks_of (map snd Vs) = []).
  { clear - E. induction E as [|[k w] d Hw Hd IH]; simpl; auto.
    simpl in Hw. rewrite Hw, IH. reflexivity. }
  rewrite Hnone in Hvals.
  destruct (fst (resplit (map snd Vs) [] 0%nat)); [reflexivity | discriminate].
Qed.

(** X17: the script never outputs a block. With any geodesic library,
    any binding of [HEADING], [ROT] and [NAV_STT] and any input, a
    run that ends leaves [Data] empty: stage 4 stores arrays without
    rows only, and an array without rows has no block of 144 rows. *)
Theorem pipeline_output_empty (traj_data : list ndarray) (Data : dict ndarray)
        (error_count : nat) :
  pipeline geod_inv geod_fwd HEADING ROT NAV_STT traj_data = Ok (Data, error_count) ->
  Data = [].
Proof.
  unfold pipeline.
  destruct (remove_anomalies geod_inv _) as [[voyages errors]| |];
    cbn [bind]; try discriminate.
  destruct (sampling geod_inv geod_fwd HEADING ROT NAV_STT _ [] 0%nat)
    as [[Vs c]| |] eqn:E; cbn [bind]; try discriminate.
  apply sampling_keeps in E; [|constructor].
  rewrite (resplit_no_rows Vs E). cbn.
  intros H. injection H as <- _. reflexivity.
Qed.

End SamplingAny.

Lemma sample_voyage_outcomes_witness :
  sample_voyage flat_inv flat_fwd (Some 4%nat) (Some 5%nat) (Some 5%nat) pair_track
  = Raise ValueError.
Proof.
  destruct (sample_voyage_outcomes flat_inv flat_fwd (Some 4%nat) (Some 5%nat) (Some 5%nat)
              pair_track ltac:(unfold MMSI; simpl; lia) ltac:(unfold nrows; simpl; lia))
    as [_ H].
  destruct (H ltac:(vm_compute; reflexivity)) as [[H1 _] | [_ H2]].
  - vm_compute in H1. discriminate H1.
  - exact H2.
Defined.

Lemma pipeline_output_empty_witness :
  pipeline flat_inv flat_fwd None None None [steady_voyage] = Ok ([], 0%nat).
Proof.
  assert (H : exists Data, pipeline flat_inv flat_fwd None None None [steady_voyage]
                           = Ok (Data, 0%nat)).
  { eexists. vm_compute. reflexivity. }
  destruct H as (Data & H).
  rewrite H. f_equal. f_equal.
  exact (pipeline_output_empty flat_inv flat_fwd None None None [steady_voyage] Data 0%nat H).
Defined.

(** ** Stage 1: what a voyage is *)

Module VoyageCover.
Import VoyageFacts.

Lemma nonzero_from_strict (mask : list bool) : forall o,
  StronglySorted lt (o :: map S (nonzero_from o mask)).
Proof.
  induction mask as [|x m IH]; intros o; simpl.
  - repeat constructor.
  - specialize (IH (S o)).
    inversion IH as [|? ? Hrest Hall]; subst.
    destruct x; simpl.
    + constructor; [exact IH|].
      constructor; [lia|].
      eapply Forall_impl; [|exact Hall]. simpl. intros. lia.
    + constructor; [exact Hrest|].
      eapply Forall_impl; [|exact Hall]. simpl. intros. lia.
Qed.

(** A piece of [np.split] at strictly increasing indices inside the
    array is a non-empty slice with no index of the split inside. *)
Lemma split_from_piece {A} (l : list A) (idx : list nat) : forall st p,
  StronglySorted lt (st :: idx) ->
  Forall (fun i => (i < length l)%nat) idx ->
  (st < length l)%nat ->
  In p (split_from st idx l) ->
  exists a b, p = slice a b l /\ (st <= a)%nat /\ (a < b)%nat /\ (b <= length l)%nat
              /\ forall k, (a < k)%nat -> (k < b)%nat -> ~ In k idx.
Proof.
  induction idx as [|i idx IH]; intros st p Hs Hr Hst Hin; simpl in Hin.
  - destruct Hin as [<-|[]]. exists st, (length l). split.
    + unfold slice. symmetry. apply firstn_all2. rewrite length_skipn. lia.
    + repeat split; try lia. intros k _ _ [].
  - inversion Hs as [|? ? Hrest Hall]; subst.
    inversion Hall as [|? ? Hi Hall']; subst.
    inversion Hr as [|? ? Hil Hr']; subst.
    destruct Hin as [<-|Hin].
    + exists st, i. split; [reflexivity|]. repeat split; try lia.
      intros k Hk1 Hk2 [Hk|Hk]; [lia|].
      inversion Hrest as [|? ? _ Hgt]; subst.
      rewrite Forall_forall in Hgt. specialize (Hgt k Hk). lia.
    + destruct (IH i p Hrest Hr' Hil Hin) as (a & b & -> & Ha & Hab & Hb & Hfree).
      exists a, b. split; [reflexivity|]. repeat split; try lia.
      intros k Hk1 Hk2 [Hk|Hk]; [lia|]. apply (Hfree k Hk1 Hk2 Hk).
Qed.

Lemma nth_slice {A} (a b j : nat) (l : list A) (d : A) :
  (j < b - a)%nat -> nth j (slice a b l) d = nth (a + j) l d.
Proof.
  intros Hj. unfold slice. rewrite nth_firstn.
  destruct (Nat.ltb_spec j (b - a)); [|lia].
  apply nth_skipn.
Qed.

Lemma length_slice {A} (a b : nat) (l : list A) :
  (b <= length l)%nat -> length (slice a b l) = (b - a)%nat.
Proof. intros H. unfold slice. rewrite length_firstn, length_skipn. lia. Qed.

Lemma segment_piece (v p : ndarray) :
  In p (segment v) ->
  ncols p = ncols v
  /\ (0 < nrows p)%nat
  /\ forall j, (S j < nrows p)%nat ->
       (nth (S j) (column TIMESTAMP p) 0 - nth j (column TIMESTAMP p) 0 <= INTERVAL_MAX)%Q.
Proof.
  intros Hin.
  destruct (Nat.ltb_spec 0 (nrows v)) as [Hn|Hn];
    [|rewrite segment_empty in Hin by lia; destruct Hin].
  rewrite (segment_pieces v Hn) in Hin.
  apply in_map_iff in Hin as (piece & <- & Hin). unfold np_split in Hin.
  destruct (split_from_piece (rows v) (map S (gaps v)) 0 piece) as
    (a & b & -> & _ & Hab & Hb & Hfree); auto.
  - unfold gaps, nonzero. apply nonzero_from_strict.
  - apply Forall_forall. intros i Hi. apply in_map_iff in Hi as (k & <- & Hk).
    apply gaps_spec in Hk. apply Hk.
  - cbn [ncols]. unfold nrows. cbn [rows]. rewrite length_slice by exact Hb.
    split; [reflexivity|]. split; [lia|].
    intros j Hj. rewrite !nth_column. cbn [rows].
    rewrite !nth_slice by lia.
    apply Qnot_lt_le. intros Hgap.
    apply (Hfree (S (a + j))); try lia.
    apply in_map. apply gaps_spec. split; [unfold nrows; lia|].
    rewrite !nth_column. replace (S (a + j)) with (a + S j)%nat by lia.
    exact Hgap.
Qed.

(** X18: the voyages of stage 1. Every piece stored for a vessel has
    the columns of the stream, at least one message, and no two
    successive messages more than two hours apart. *)
Theorem segment_voyages (v p : ndarray) :
  In p (segment v) ->
  ncols p = ncols v
  /\ (0 < nrows p)%nat
  /\ forall j, (S j < nrows p)%nat ->
       (nth (S j) (column TIMESTAMP p) 0 - nth j (column TIMESTAMP p) 0 <= INTERVAL_MAX)%Q.
Proof. exact (segment_piece v p). Qed.

(** C8: the voyages stored by stage 1 are, vessel after vessel, the
    pieces of [segment], each with at least one message; a stream with
    messages is cut right after every message followed by a gap above
    two hours and nowhere else (the pieces put end to end give the
    stream back, and there is one more piece than gaps), so a stream
    with a single such gap gives exactly two voyages, split at the gap;
    stage 2 then keeps, under their keys and in order, exactly the
    voyages with at least 75 messages whose last timestamp is at least
    six hours after the first. *)
Theorem segmentation_spec (traj_data : list ndarray) :
  let voyages := fst (segmentation traj_data [] 0%nat) in
  map snd voyages = flat_map segment traj_data
  /\ (forall k v, In (k, v) voyages -> (0 < nrows v)%nat)
  /\ (forall k v, In (k, v) (remove_short voyages) <->
        In (k, v) voyages
        /\ (75 <= nrows v)%nat
        /\ (6 * 3600 <= col TIMESTAMP (last (rows v) [])
                        - col TIMESTAMP (hd [] (rows v)))%Q)
  /\ remove_short voyages
     = filter (fun kv =>
                 negb ((nrows (snd kv) <? 75)%nat
                       || Qltb (col TIMESTAMP (last (rows (snd kv)) [])
                                - col TIMESTAMP (hd [] (rows (snd kv))))
                               (6 * 3600))) voyages
  /\ (forall v, (0 < nrows v)%nat ->
        segment v = map (mkarr (ncols v)) (np_split (rows v) (map S (gaps v)))
        /\ concat (map rows (segment v)) = rows v
        /\ length (segment v) = S (length (gaps v))
        /\ forall i, In i (gaps v) <->
                     (S i < nrows v)%nat
                     /\ (2 * 3600 < nth (S i) (column TIMESTAMP v) 0
                                    - nth i (column TIMESTAMP v) 0)%Q)
  /\ (forall v i, (S i < nrows v)%nat -> (forall j, In j (gaps v) <-> j = i) ->
        segment v = [mkarr (ncols v) (firstn (S i) (rows v));
                     mkarr (ncols v) (skipn (S i) (rows v))]).
Proof.
  intros voyages.
  pose proof (DictFacts.store_pieces_empty segment traj_data) as (Hvals & _ & Hnd).
  fold (segmentation traj_data [] 0%nat) in Hvals, Hnd. fold voyages in Hvals, Hnd.
  assert (Hkeep : remove_short voyages
                  = filter (fun kv => negb (too_short (snd kv))) voyages)
    by (apply DictFacts.pop_for_all; exact Hnd).
  split; [exact Hvals|].
  split.
  { intros k v Hin.
    assert (Hv : In v (flat_map segment traj_data)).
    { rewrite <- Hvals. apply in_map_iff. exists (k, v). auto. }
    apply in_flat_map in Hv as (v0 & _ & Hseg).
    apply (segment_piece v0 v Hseg). }
  split.
  { intros k v. rewrite Hkeep, filter_In. cbn [snd].
    rewrite negb_true_iff. split.
    - intros [Hin Hlong]. split; [exact Hin|].
      unfold too_short, duration in Hlong. apply orb_false_iff in Hlong as [Hn Hd].
      apply Nat.ltb_ge in Hn. apply Qltb_ge in Hd. auto.
    - intros (Hin & Hn & Hd). split; [exact Hin|].
      unfold too_short, duration. apply orb_false_iff. split.
      + apply Nat.ltb_ge. exact Hn.
      + apply Qltb_ge. exact Hd. }
  split; [exact Hkeep|].
  split.
  - intros v Hn. rewrite segment_pieces by exact Hn.
    split; [reflexivity|]. split; [|split].
    + rewrite map_map. cbn [rows]. rewrite map_id.
      unfold np_split. rewrite concat_split_from; [reflexivity|].
      unfold gaps, nonzero. apply nonzero_from_sorted.
    + rewrite length_map. unfold np_split. rewrite length_split_from, length_map. reflexivity.
    + intros i. rewrite gaps_spec. unfold INTERVAL_MAX.
      assert (E : (2 * 3600 == 7200)%Q) by reflexivity.
      split; intros [H1 H2]; (split; [exact H1|]).
      * rewrite E. exact H2.
      * rewrite <- E. exact H2.
  - intros v i Hi Hsingle.
    rewrite segment_pieces by lia.
    assert (Hg : gaps v = [i]).
    { assert (Hin : In i (gaps v)) by (apply Hsingle; reflexivity).
      unfold gaps, nonzero in *.
      set (mask := map (fun d => Qltb INTERVAL_MAX d) _) in *.
      apply nonzero_from_In in Hin as (_ & Hlen & Ht). rewrite Nat.sub_0_r in *.
      rewrite (nonzero_from_single mask 0 i Hlen Ht); [reflexivity|].
      intros j Hj Hne. destruct (nth j mask false) eqn:E; auto.
      exfalso. apply Hne. apply Hsingle. apply nonzero_from_In.
      rewrite Nat.sub_0_r. repeat split; auto; lia. }
    rewrite Hg. unfold np_split. simpl. unfold slice.
    rewrite Nat.sub_0_r. reflexivity.
Qed.

(** Stage 2 on four vessels: 80 messages five minutes apart stay; 80
    messages over less than six hours and 74 messages over more than
    six hours go; 75 messages over exactly six hours stay. *)
Example remove_short_cases :
  remove_short [(0%nat, ramp 80 300); (1%nat, ramp 80 200);
                (2%nat, ramp 74 300); (3%nat, ramp 75 (10800 # 37))]
  = [(0%nat, ramp 80 300); (3%nat, ramp 75 (10800 # 37))].
Proof. vm_compute. reflexivity. Qed.

End VoyageCover.

Lemma segment_voyages_witness :
  In (mkarr 8 (firstn 3 (rows gap_track))) (segment gap_track)
  /\ (0 < nrows (mkarr 8 (firstn 3 (rows gap_track))))%nat.
Proof.
  assert (H : In (mkarr 8 (firstn 3 (rows gap_track))) (segment gap_track)).
  { vm_compute. left. reflexivity. }
  split; [exact H|].
  exact (proj1 (proj2 (VoyageCover.segment_voyages gap_track _ H))).
Defined.

(** ** Stages 6 and 7: the quality tests *)

Module QualityCover.
Import QualityFacts DictFacts.

Lemma qmax_below (c : Q) (t : list Q) : forall m,
  Qltb (fold_left (fun m y => if Qltb m y then y else m) t m) c = true
  <-> (m < c)%Q /\ Forall (fun x => (x < c)%Q) t.
Proof.
  induction t as [|y t IH]; intros m; simpl.
  - rewrite Qltb_lt. split; [intros H; split; [exact H | constructor] | intros [H _]; exact H].
  - rewrite IH. destruct (Qltb m y) eqn:E.
    + apply Qltb_lt in E. split.
      * intros [Hy Ht]. split; [eapply Qlt_trans; eauto | constructor; auto].
      * intros [_ H]. inversion H; subst. auto.
    + apply Qltb_ge in E. split.
      * intros [Hm Ht]. split; [exact Hm|]. constructor; [|exact Ht].
        eapply Qle_lt_trans; eauto.
      * intros [Hm H]. inversion H; subst. auto.
Qed.

(** X19: the second test of the loop of lines 255-264 returns on a
    block with rows, and pops it exactly when every message of the
    block reports a speed below one knot. *)
Theorem never_moved_spec (block : ndarray) :
  (0 < nrows block)%nat ->
  exists b, never_moved block = Ok b
            /\ (b = true <-> Forall (fun r => (col SOG r < 1)%Q) (rows block)).
Proof.
  unfold never_moved, column, nrows. intros Hn.
  destruct (rows block) as [|r0 l]; [simpl in Hn; lia|]. simpl.
  eexists. split; [reflexivity|].
  rewrite qmax_below. rewrite Forall_map. split.
  - intros [H0 Hl]. constructor; auto.
  - intros H. inversion H; subst. auto.
Qed.

(** [count / len > 0.8], on integers. *)
Lemma share_exceeds_80 (c n : nat) :
  (c <= n)%nat ->
  Qltb (8 # 10) (inject_Z (Z.of_nat c) / inject_Z (Z.of_nat n)) = true
  <-> 8 * Z.of_nat n < 10 * Z.of_nat c.
Proof.
  intros Hcn. rewrite Qltb_lt.
  destruct n as [|n].
  - assert (c = 0%nat) by lia. subst c. simpl. split; [intros H; discriminate H | lia].
  - rewrite Qlt_div_iff by (unfold Qlt; simpl; lia).
    unfold Qlt. simpl Qnum. simpl Qden. lia.
Qed.

Lemma low_speed_rows (block : ndarray) :
  (0 < nrows block)%nat ->
  low_speed block
  = Ok (Qltb (8 # 10)
             (inject_Z (Z.of_nat (count_nonzero (map (fun x => Qltb x 2)
                                                     (column SOG block))))
              / inject_Z (Z.of_nat (nrows block)))).
Proof.
  intros Hn. unfold low_speed, py_div. rewrite rows_nonzero by exact Hn. reflexivity.
Qed.

Lemma low_speed_empty (block : ndarray) :
  nrows block = 0%nat -> low_speed block = Raise ZeroDivisionError.
Proof. intros Hn. unfold low_speed, py_div. rewrite Hn. reflexivity. Qed.

Lemma remove_low_speed_rows (Data : dict ndarray) :
  NoDup (keys Data) ->
  Forall (fun kv => (0 < nrows (snd kv))%nat) Data ->
  remove_low_speed Data = Ok (filter (fun kv => passes low_speed (snd kv)) Data).
Proof.
  intros Hnd Hrows. unfold remove_low_speed.
  rewrite (pop_for_try_all _ (fun b => negb (passes low_speed b)) Data Hnd).
  - f_equal. apply filter_ext. intros kv. apply negb_involutive.
  - intros [k b] Hin. rewrite Forall_forall in Hrows. specialize (Hrows _ Hin).
    simpl in *. unfold passes. rewrite (low_speed_rows b Hrows).
    destruct (Qltb _ _); reflexivity.
Qed.

(** X20: the test of line 269 raises [ZeroDivisionError] on a block
    without rows, and so does the loop of lines 267-270 when it meets
    one first. On a block with rows the test returns, and pops the
    block exactly when the messages reporting a speed below two knots
    are strictly more than 80% of the block; a block at exactly 80% is
    kept. On blocks with rows the loop keeps, in order, those that pass
    the test. *)
Theorem low_speed_spec (block : ndarray) :
  let n := Z.of_nat (nrows block) in
  let slow := Z.of_nat (count_nonzero (map (fun x => Qltb x 2) (column SOG block))) in
  (nrows block = 0%nat ->
   low_speed block = Raise ZeroDivisionError
   /\ forall k Data, remove_low_speed ((k, block) :: Data) = Raise ZeroDivisionError)
  /\ ((0 < nrows block)%nat ->
      exists b, low_speed block = Ok b
                /\ (b = true <-> 8 * n < 10 * slow)
                /\ (10 * slow = 8 * n -> b = false))
  /\ (forall Data, NoDup (keys Data) ->
        Forall (fun kv => (0 < nrows (snd kv))%nat) Data ->
        remove_low_speed Data = Ok (filter (fun kv => passes low_speed (snd kv)) Data)).
Proof.
  intros n slow. split; [|split].
  - intros Hn. split; [apply low_speed_empty; exact Hn|].
    intros k Data. unfold remove_low_speed.
    apply pop_for_try_raises. apply low_speed_empty. exact Hn.
  - intros Hn. eexists. split; [apply (low_speed_rows block Hn)|].
    assert (Hiff : Qltb (8 # 10)
                     (inject_Z (Z.of_nat (count_nonzero (map (fun x => Qltb x 2)
                                                             (column SOG block))))
                      / inject_Z (Z.of_nat (nrows block))) = true
                   <-> 8 * n < 10 * slow).
    { apply share_exceeds_80.
      eapply Nat.le_trans; [apply count_nonzero_le|].
      unfold column, nrows. rewrite !length_map. auto. }
    split; [exact Hiff|].
    intros H. apply not_true_is_false. intros E. apply Hiff in E. lia.
  - apply remove_low_speed_rows.
Qed.

Lemma filter_filter {A} (f g : A -> bool) (l : list A) :
  filter f (filter g l) = filter (fun x => g x && f x) l.
Proof.
  induction l as [|x l IH]; simpl; auto.
  destruct (g x); simpl; [destruct (f x)|]; rewrite IH; reflexivity.
Qed.

Lemma Forall_filter_keeps {A} (P : A -> Prop) (f : A -> bool) (l : list A) :
  Forall P l -> Forall P (filter f l).
Proof.
  rewrite !Forall_forall. intros H x Hx. apply filter_In in Hx. apply H, Hx.
Qed.

(** X21: on blocks with rows the two loops of lines 255-270 together
    keep, under their keys and in order, exactly the blocks that are
    not moored or at anchor by the test of lines 258-259, whose top
    speed is at least one knot, and that are not slow by the test of
    line 269; running the loop of stage 7 before that of stage 6 gives
    the same dictionary. *)
Theorem quality_filters_compose (Data : dict ndarray) :
  NoDup (keys Data) ->
  Forall (fun kv => (0 < nrows (snd kv))%nat) Data ->
  (d <- remove_moored Data ;; remove_low_speed d)
  = Ok (filter (fun kv => passes moored_or_anchor (snd kv)
                          && passes never_moved (snd kv)
                          && passes low_speed (snd kv)) Data)
  /\ (d <- remove_low_speed Data ;; remove_moored d)
     = (d <- remove_moored Data ;; remove_low_speed d).
Proof.
  intros Hnd Hrows.
  assert (H1 : (d <- remove_moored Data ;; remove_low_speed d)
               = Ok (filter (fun kv => passes moored_or_anchor (snd kv)
                                       && passes never_moved (snd kv)
                                       && passes low_speed (snd kv)) Data)).
  { rewrite (remove_moored_rows Data Hnd Hrows). cbn [bind].
    rewrite remove_low_speed_rows
      by (try apply NoDup_keys_filter; try apply Forall_filter_keeps; assumption).
    f_equal. apply filter_filter. }
  split; [exact H1|]. rewrite H1.
  rewrite (remove_low_speed_rows Data Hnd Hrows). cbn [bind].
  rewrite remove_moored_rows
    by (try apply NoDup_keys_filter; try apply Forall_filter_keeps; assumption).
  f_equal. rewrite filter_filter. apply filter_ext. intros kv. apply andb_comm.
Qed.

End QualityCover.

Lemma never_moved_spec_witness :
  (0 < nrows pair_track)%nat
  /\ exists b, never_moved pair_track = Ok b
               /\ (b = true <-> Forall (fun r => (col SOG r < 1)%Q) (rows pair_track)).
Proof.
  assert (H : (0 < nrows pair_track)%nat) by (unfold nrows; simpl; lia).
  split; [exact H|]. exact (QualityCover.never_moved_spec pair_track H).
Defined.

Lemma quality_filters_compose_witness :
  NoDup (keys [(0%nat, half_and_half)])
  /\ Forall (fun kv => (0 < nrows (snd kv))%nat) [(0%nat, half_and_half)]
  /\ (d <- remove_low_speed [(0%nat, half_and_half)] ;; remove_moored d)
     = (d <- remove_moored [(0%nat, half_and_half)] ;; remove_low_speed d).
Proof.
  assert (H : NoDup (keys [(0%nat, half_and_half)])).
  { simpl. constructor; [intros [] | constructor]. }
  assert (Hr : Forall (fun kv => (0 < nrows (snd kv))%nat) [(0%nat, half_and_half)]).
  { constructor; [vm_compute; lia | constructor]. }
  split; [exact H|]. split; [exact Hr|].
  exact (proj2 (QualityCover.quality_filters_compose [(0%nat, half_and_half)] H Hr)).
Defined.

(** ** Where the script departs from its description *)

(** The factor from knots to metres per second decides: 16.7 m/s is
    above 30 knots, and the first message of [brisk_track] is an
    outlier. *)
Example detectOutlier_knots :
  detectOutlier flat_inv brisk_track 30
  = Ok ([false; false; false; false; false],
        Some [true; false; false; false; false]).
Proof. vm_compute. reflexivity. Qed.

(** C7: on three messages at 10 knots [detectOutlier] builds no
    matrix and returns no vector. The lags 1 to 3 pass; at lag 4,
    [track[:N-4]] is [track[:-1]], two rows, and [track[4:]] has none,
    so [geod.inv] is handed buffers of different lengths and raises,
    whatever library answers: the claim's matrix, which would be zero
    here, and [trackOutlier] of it are never computed. *)
Theorem detectOutlier_three_left :
  select (map negb (map (fun r => Qltb 30 (col 3 r)) three_messages)) three_messages
  = three_messages
  /\ diagonals flat_inv three_messages 30 (zeros 3) [1; 2; 3]%nat = Ok (zeros 3)
  /\ (forall r c, (r < 3)%nat -> (c < 3)%nat ->
                  spec_banded flat_dist three_messages 30 r c = false)
  /\ (forall geod_inv A, diagonal geod_inv three_messages 30 A 4 = Raise GeodError)
  /\ (forall geod_inv, anomaly_matrix geod_inv three_messages 30 = Raise GeodError)
  /\ (forall geod_inv, detectOutlier geod_inv three_messages 30 = Raise GeodError).
Proof.
  split; [reflexivity|].
  split; [vm_compute; reflexivity|].
  split.
  { intros r c Hr Hc.
    destruct r as [|[|[|r]]]; try lia; destruct c as [|[|[|c]]]; try lia;
      vm_compute; reflexivity. }
  split.
  { intros geod_inv A. apply diagonal_mismatch; simpl; lia. }
  split.
  { intros geod_inv. apply short_track_faults. right. reflexivity. }
  intros geod_inv. apply (detectOutlier_short geod_inv three_messages 30).
  right. reflexivity.
Qed.

Section Script.
Import DictFacts.

Variable geod_inv : Q -> Q -> Q -> Q -> option (Q * Q * Q).
Variable geod_fwd : Q -> Q -> Q -> Q -> option (Q * Q * Q).
Variables HEADING ROT NAV_STT : option nat.

Local Abbreviation sample := (sample_voyage geod_inv geod_fwd HEADING ROT NAV_STT).
Local Abbreviation run := (pipeline geod_inv geod_fwd HEADING ROT NAV_STT).





End Script.





